(** * eveapi.py: conversion of a parsed XML document into nested dictionaries

    This development embeds the conversion core of [eveapi.py]
    ([_dict_with_path], [_dict_update], [dom_to_dict],
    [_process_eveapi_rowset]) twice:

    - [Module Py] follows the Python text statement by statement over an
      explicit object store: dictionaries and lists are objects behind
      references, [d[k] = v] overwrites the object in place, [dict()] allocates.
    - [Module Fun] is the same code read with value semantics: a dictionary is
      a finite map, an update returns the updated map.

    The definitions come first: the two embeddings, the vocabulary of the
    specifications, the example documents and stores, and a small separation
    logic over the store.  The theorems follow.  Properties of the computed
    dictionaries are stated on [Fun]; properties about aliasing, mutation and
    state shared between calls are stated on [Py], and [dom_to_dict_refines]
    relates the two: a run of [Py.dom_to_dict] returns a dictionary that
    stands for the value of [Fun.dom_to_dict]. *)

From stdpp Require Import gmap strings list fin_maps.
From iris.proofmode Require Import proofmode.
From iris.base_logic.lib Require Import gen_heap.
From Stdlib Require Import Ascii String.

#[local] Set Warnings "-register-all,-rewrite-rw,-clear-no-such-hyp".

Local Open Scope string_scope.
Local Open Scope list_scope.

(** * Exceptions

    The Python exceptions the converter can raise.  [RecursionLimit] is the
    interpreter's "maximum recursion depth exceeded"; [InternalError] marks a
    dangling reference, which no Python program can build. *)

Inductive exn :=
| IndexError
| KeyError (k : string)
| TypeError
| AttributeError
| RuntimeError
| RecursionLimit
| InternalError.

Inductive res (A : Type) :=
| Ok (a : A)
| Raise (e : exn).
Arguments Ok {A} a.
Arguments Raise {A} e.

Global Instance res_ret : MRet res := @Ok.
Global Instance res_bind : MBind res := λ A B f r,
  match r with
  | Ok a => f a
  | Raise e => Raise e
  end.

Global Instance res_fmap : FMap res := λ A B f r,
  match r with
  | Ok a => Ok (f a)
  | Raise e => Raise e
  end.

Definition is_ok {A} (r : res A) : bool :=
  match r with
  | Ok _ => true
  | Raise _ => false
  end.

(** * The document tree (xml.dom.minidom)

    A node is a text node, an element with a tag name, an attribute map and
    children, the document node, or a node of another type (comment, CDATA
    section, processing instruction) whose [nodeType] is neither [TEXT_NODE]
    nor [ELEMENT_NODE]. *)

Inductive node :=
| Text (data : string)
| Element (tagName : string) (attributes : gmap string string) (children : list node)
| Document (children : list node)
| Other.

Definition childNodes (n : node) : list node :=
  match n with
  | Element _ _ cs | Document cs => cs
  | Text _ | Other => []
  end.

(** A Python [unicode] string is held as its UTF-8 encoding: the bytes of a
    [string] are those of the encoded text, and two strings are equal when
    the texts are.  [utf8] is the encoding of one code point. *)

Definition utf8 (cp : N) : list ascii :=
  (if cp <? 128 then [ascii_of_N cp]
   else if cp <? 2048 then [ascii_of_N (192 + cp / 64); ascii_of_N (128 + cp mod 64)]
   else if cp <? 65536 then
     [ascii_of_N (224 + cp / 4096); ascii_of_N (128 + (cp / 64) mod 64);
      ascii_of_N (128 + cp mod 64)]
   else
     [ascii_of_N (240 + cp / 262144); ascii_of_N (128 + (cp / 4096) mod 64);
      ascii_of_N (128 + (cp / 64) mod 64); ascii_of_N (128 + cp mod 64)])%N.

(** The code points for which [unicode.isspace()] holds in Python 2.7:
    U+0009..U+000D, U+001C..U+0020, U+0085, U+00A0, U+1680, U+180E,
    U+2000..U+200A, U+2028, U+2029, U+202F, U+205F and U+3000. *)
Definition spaces : list N :=
  [9; 10; 11; 12; 13; 28; 29; 30; 31; 32; 133; 160; 5760; 6158;
   8192; 8193; 8194; 8195; 8196; 8197; 8198; 8199; 8200; 8201; 8202;
   8232; 8233; 8239; 8287; 12288]%N.

Definition space_bytes : list (list ascii) := utf8 <$> spaces.

(** What follows the prefix [w] of [s]. *)
Fixpoint after_prefix (w s : list ascii) : option (list ascii) :=
  match w, s with
  | [], _ => Some s
  | a :: w, b :: s => if bool_decide (a = b) then after_prefix w s else None
  | _ :: _, [] => None
  end.

(** What follows the first character of [s] when it is one of [ws]. *)
Definition after_space (ws : list (list ascii)) (s : list ascii) : option (list ascii) :=
  foldr (λ w other, match after_prefix w s with Some rest => Some rest | None => other end)
        None ws.

(** The loop of [strip]: characters of [ws] are dropped from the front while
    there is one; [n] bounds the number of rounds. *)
Fixpoint drop_spaces (ws : list (list ascii)) (n : nat) (s : list ascii) : list ascii :=
  match n with
  | 0 => s
  | S n =>
      match after_space ws s with
      | Some rest => drop_spaces ws n rest
      | None => s
      end
  end.

Definition lstrip (s : string) : string :=
  let bytes := list_ascii_of_string s in
  string_of_list_ascii (drop_spaces space_bytes (List.length bytes) bytes).

Definition rstrip (s : string) : string :=
  let bytes := reverse (list_ascii_of_string s) in
  string_of_list_ascii
    (reverse (drop_spaces (reverse <$> space_bytes) (List.length bytes) bytes)).

(** [unicode.strip()] *)
Definition strip (s : string) : string := rstrip (lstrip s).

(** Order in which [iteritems()] and [items()] enumerate a dictionary.  Python 2
    fixes no order; the model picks one that depends on the key set only. *)

Definition items {A} (m : gmap string A) : list (string * A) := reverse (map_to_list m).

(** * The result: strings and nested dictionaries *)

Inductive Value :=
| Str (s : string)
| Dict (m : gmap string Value).

(** * Value semantics *)

Module Fun.

Definition for_each {A S} (xs : list A) (s : S) (body : S → A → res S) : res S :=
  (fix go xs s :=
     match xs with
     | [] => Ok s
     | x :: xs => s ← body s x; go xs s
     end) xs s.

Definition as_dict (e : exn) (v : Value) : res (gmap string Value) :=
  match v with
  | Dict m => Ok m
  | Str _ => Raise e
  end.

(** A dictionary key must be hashable: a string is, a dictionary is not. *)
Definition as_key (v : Value) : res string :=
  match v with
  | Str s => Ok s
  | Dict _ => Raise TypeError
  end.

(** [d.get(k, dflt)] *)
Definition dict_get (d : Value) (k : string) (dflt : Value) : res Value :=
  m ← as_dict AttributeError d;
  Ok (default dflt (m !! k)).

(** [d[k]] *)
Definition dict_getitem (d : Value) (k : string) : res Value :=
  m ← as_dict TypeError d;
  match m !! k with
  | Some v => Ok v
  | None => Raise (KeyError k)
  end.

(** [d[k] = v] *)
Definition dict_setitem (d : Value) (k : string) (v : Value) : res Value :=
  m ← as_dict TypeError d;
  Ok (Dict (<[k := v]> m)).

(** [path.pop()]: the list without its last element, and that element. *)
Definition list_pop (path : list Value) : res (list Value * Value) :=
  match last path with
  | Some x => Ok (removelast path, x)
  | None => Raise IndexError
  end.

(** The loop of [_dict_with_path] descends into the dictionary it has just
    stored, so the chain is built from the innermost dictionary outwards. *)
Definition _dict_with_path (path : list Value) (value : Value) : res Value :=
  '(path, last_element) ← list_pop path;
  elements ← mapM as_key path;
  last_element ← as_key last_element;
  Ok (foldr (λ element d, Dict {[ element := d ]}) (Dict {[ last_element := value ]}) elements).

(** Body of the loop of [_dict_update], for the item [k], [v] of [dict2];
    [rec] is [_dict_update] itself. *)
Definition update_item (rec : Value → Value → res Value)
    (k : string) (v : Value) (dict1 : Value) : res Value :=
  match v with
  | Dict _ =>
      d ← dict_get dict1 k (Dict ∅);
      r ← rec d v;
      dict_setitem dict1 k r
  | Str _ => dict_setitem dict1 k v
  end.

(** The loop runs over the items of [dict2] in the order of [items]:
    [map_fold] applies its function to the last item first. *)
Fixpoint _dict_update (dict1 dict2 : Value) {struct dict2} : res Value :=
  match dict2 with
  | Str _ => Raise AttributeError
  | Dict m2 =>
      map_fold (λ k v rest, dict1 ← rest; update_item _dict_update k v dict1) (Ok dict1) m2
  end.

(** [attributes = dict()] followed by [for k, v in child.attributes.items():
    attributes[k] = v] *)
Definition copy_attributes (attrs : gmap string string) : res Value :=
  for_each (items attrs) (Dict ∅) (λ attributes '(k, v), dict_setitem attributes k (Str v)).

(** [child.attributes[k].value] *)
Definition dom_attr (attrs : gmap string string) (k : string) : res Value :=
  match attrs !! k with
  | Some v => Ok (Str v)
  | None => Raise (KeyError k)
  end.

(** Body of the loop of [_process_eveapi_rowset]. *)
Definition rowset_step (path : list Value) (key : Value) (result : Value) (child : node) : res Value :=
  match child with
  | Element _ attrs _ =>
      attributes ← copy_attributes attrs;
      key ← as_key key;
      key_value ← dict_getitem attributes key;
      d ← _dict_with_path (path ++ [key_value]) attributes;
      _dict_update result d
  | _ => Ok result
  end.

Definition _process_eveapi_rowset (element : node) (path : list Value) (key : Value) : res Value :=
  for_each (childNodes element) (Dict ∅) (rowset_step path key).

(** Body of the loop of [dom_to_dict]; [rec] is [dom_to_dict] itself. *)
Definition dom_step (rec : node → list Value → res Value)
    (path : list Value) (result : Value) (child : node) : res Value :=
  match child with
  | Text data =>
      let child_data := strip data in
      if bool_decide (0 < String.length child_data) then
        d ← _dict_with_path (path ++ [Str "text"]) (Str child_data);
        _dict_update result d
      else Ok result
  | Element tagName attrs _ =>
      attributes ← copy_attributes attrs;
      m ← as_dict TypeError attributes;
      result ← (if bool_decide (0 < size m) then
                  d ← _dict_with_path (path ++ [Str "attributes"]) attributes;
                  _dict_update result d
                else Ok result);
      if bool_decide (tagName = "rowset") then
        name ← dom_attr attrs "name";
        key ← dict_getitem attributes "key";
        d ← _process_eveapi_rowset child (path ++ [name]) key;
        _dict_update result d
      else
        d ← rec child (path ++ [Str tagName]);
        _dict_update result d
  | Document _ | Other => Ok result
  end.

Fixpoint dom_to_dict (element : node) (path : list Value) {struct element} : res Value :=
  match element with
  | Element _ _ cs | Document cs => for_each cs (Dict ∅) (dom_step dom_to_dict path)
  | Text _ | Other => Ok (Dict ∅)
  end.

End Fun.

(** * Store semantics

    Every dictionary and list is an object in a store; a Python value is a
    string or a reference to an object.  A computation takes the store and
    returns a result, or the exception raised, with the store it leaves. *)

Module Py.

Definition loc := positive.

Inductive val :=
| VStr (s : string)
| VRef (l : loc).

Inductive obj :=
| ODict (d : gmap string val)
| OList (xs : list val).

Abbreviation heap := (gmap loc obj).

Definition M (A : Type) : Type := heap → res A * heap.

Global Instance M_ret : MRet M := λ A a σ, (Ok a, σ).
Global Instance M_bind : MBind M := λ A B f m σ,
  match m σ with
  | (Ok a, σ') => f a σ'
  | (Raise e, σ') => (Raise e, σ')
  end.

Definition raise {A} (e : exn) : M A := λ σ, (Raise e, σ).

Definition alloc (o : obj) : M loc := λ σ,
  let l := fresh (dom σ) in (Ok l, <[l := o]> σ).

Definition load (l : loc) : M obj := λ σ,
  match σ !! l with
  | Some o => (Ok o, σ)
  | None => (Raise InternalError, σ)
  end.

Definition store (l : loc) (o : obj) : M unit := λ σ,
  match σ !! l with
  | Some _ => (Ok tt, <[l := o]> σ)
  | None => (Raise InternalError, σ)
  end.

Definition for_each {A S} (xs : list A) (s : S) (body : S → A → M S) : M S :=
  (fix go xs s :=
     match xs with
     | [] => mret s
     | x :: xs => s ← body s x; go xs s
     end) xs s.

(** The dictionary behind [v]; [e] is raised when [v] is not a dictionary. *)
Definition as_dict (e : exn) (v : val) : M (loc * gmap string val) :=
  match v with
  | VStr _ => raise e
  | VRef l =>
      o ← load l;
      match o with
      | ODict d => mret (l, d)
      | OList _ => raise e
      end
  end.

(** The list behind [v]. *)
Definition as_list (e : exn) (v : val) : M (loc * list val) :=
  match v with
  | VStr _ => raise e
  | VRef l =>
      o ← load l;
      match o with
      | OList xs => mret (l, xs)
      | ODict _ => raise TypeError
      end
  end.

Definition as_key (v : val) : M string :=
  match v with
  | VStr s => mret s
  | VRef _ => raise TypeError
  end.

(** [dict()], [{}] *)
Definition dict_new : M val := l ← alloc (ODict ∅); mret (VRef l).

(** [d.get(k, dflt)]: the attribute [get] is looked up on [d] before the
    default argument is evaluated. *)
Definition dict_get (d : val) (k : string) (dflt : M val) : M val :=
  '(_, m) ← as_dict AttributeError d;
  dflt ← dflt;
  mret (default dflt (m !! k)).

(** [d[k]] *)
Definition dict_getitem (d : val) (k : string) : M val :=
  '(_, m) ← as_dict TypeError d;
  match m !! k with
  | Some v => mret v
  | None => raise (KeyError k)
  end.

(** [d[k] = v] *)
Definition dict_setitem (d : val) (k : string) (v : val) : M unit :=
  '(l, m) ← as_dict TypeError d;
  store l (ODict (<[k := v]> m)).

(** [len(d)] *)
Definition dict_len (d : val) : M nat :=
  '(_, m) ← as_dict TypeError d;
  mret (size m).

(** [type(v) is dict] *)
Definition is_dict (v : val) : M bool :=
  match v with
  | VStr _ => mret false
  | VRef l =>
      o ← load l;
      mret (match o with ODict _ => true | OList _ => false end)
  end.

(** [d.iteritems()]: the iterator remembers the keys still to visit. *)
Definition dict_iteritems (d : val) : M (list string) :=
  '(_, m) ← as_dict AttributeError d;
  mret (items m).*1.

(** The iterator looks at the dictionary as it is now, and refuses to go on
    ("dictionary changed size during iteration") when its size is no longer
    the size [n] it started with.  It does so on every step, the last one,
    which finds no more item, included. *)
Definition dict_iter_check (d : val) (n : nat) : M (gmap string val) :=
  '(_, m) ← as_dict AttributeError d;
  if bool_decide (size m = n) then mret m else raise RuntimeError.

(** One step of the iterator, to the item at key [k]. *)
Definition dict_next (d : val) (n : nat) (k : string) : M val :=
  m ← dict_iter_check d n;
  match m !! k with
  | Some v => mret v
  | None => raise InternalError
  end.

(** [path.pop()] *)
Definition list_pop (path : val) : M val :=
  '(l, xs) ← as_list AttributeError path;
  match last xs with
  | Some x => store l (OList (removelast xs));; mret x
  | None => raise IndexError
  end.

(** [path + [x]]: the display [[x]] and the sum are both new lists. *)
Definition list_add (path : val) (x : val) : M val :=
  r ← alloc (OList [x]);
  '(_, xs) ← as_list TypeError path;
  l ← alloc (OList (xs ++ [x]));
  mret (VRef l).

(** [for element in path] *)
Definition list_iter (path : val) : M (list val) :=
  '(_, xs) ← as_list TypeError path;
  mret xs.

Definition _dict_with_path (path : val) (value : val) : M val :=
  root_d ← dict_new;
  last_element ← list_pop path;
  elements ← list_iter path;
  d ← for_each elements root_d (λ d element,
         element ← as_key element;
         new ← dict_new;
         dict_setitem d element new;;
         dict_getitem d element);
  last_element ← as_key last_element;
  dict_setitem d last_element value;;
  mret root_d.

(** Body of the loop of [_dict_update], at the key [k] of [dict2]; [rec] is
    [_dict_update] itself and [n] the size of [dict2] when the loop began. *)
Definition update_item (rec : val → val → M val)
    (dict1 dict2 : val) (n : nat) (k : string) : M unit :=
  v ← dict_next dict2 n k;
  b ← is_dict v;
  if b : bool then
    d ← dict_get dict1 k dict_new;
    r ← rec d v;
    dict_setitem dict1 k r
  else
    v ← dict_getitem dict2 k;
    dict_setitem dict1 k v.

(** [fuel] bounds the depth of the recursion. *)
Fixpoint _dict_update (fuel : nat) (dict1 dict2 : val) : M val :=
  match fuel with
  | 0 => raise RecursionLimit
  | S fuel =>
      ks ← dict_iteritems dict2;
      for_each ks tt (λ _ k, update_item (_dict_update fuel) dict1 dict2 (List.length ks) k);;
      dict_iter_check dict2 (List.length ks);;
      mret dict1
  end.

Definition copy_attributes (attrs : gmap string string) : M val :=
  attributes ← dict_new;
  for_each (items attrs) tt (λ _ '(k, v), dict_setitem attributes k (VStr v));;
  mret attributes.

Definition dom_attr (attrs : gmap string string) (k : string) : M val :=
  match attrs !! k with
  | Some v => mret (VStr v)
  | None => raise (KeyError k)
  end.

Definition rowset_step (fuel : nat) (path : val) (key : val) (result : val) (child : node) : M unit :=
  match child with
  | Element _ attrs _ =>
      attributes ← copy_attributes attrs;
      key ← as_key key;
      key_value ← dict_getitem attributes key;
      p ← list_add path key_value;
      d ← _dict_with_path p attributes;
      _dict_update fuel result d;;
      mret tt
  | _ => mret tt
  end.

Definition _process_eveapi_rowset (fuel : nat) (element : node) (path : val) (key : val) : M val :=
  result ← dict_new;
  for_each (childNodes element) tt (λ _ child, rowset_step fuel path key result child);;
  mret result.

Definition dom_step (rec : node → val → M val) (fuel : nat)
    (path : val) (result : val) (child : node) : M unit :=
  match child with
  | Text data =>
      let child_data := strip data in
      if bool_decide (0 < String.length child_data) then
        p ← list_add path (VStr "text");
        d ← _dict_with_path p (VStr child_data);
        _dict_update fuel result d;;
        mret tt
      else mret tt
  | Element tagName attrs _ =>
      attributes ← copy_attributes attrs;
      n ← dict_len attributes;
      (if bool_decide (0 < n) then
         p ← list_add path (VStr "attributes");
         d ← _dict_with_path p attributes;
         _dict_update fuel result d;;
         mret tt
       else mret tt);;
      if bool_decide (tagName = "rowset") then
        name ← dom_attr attrs "name";
        p ← list_add path name;
        key ← dict_getitem attributes "key";
        d ← _process_eveapi_rowset fuel child p key;
        _dict_update fuel result d;;
        mret tt
      else
        p ← list_add path (VStr tagName);
        d ← rec child p;
        _dict_update fuel result d;;
        mret tt
  | Document _ | Other => mret tt
  end.

Fixpoint dom_to_dict (fuel : nat) (element : node) (path : val) {struct element} : M val :=
  result ← dict_new;
  match element with
  | Element _ _ cs | Document cs =>
      for_each cs tt (λ _ child, dom_step (dom_to_dict fuel) fuel path result child)
  | Text _ | Other => mret tt
  end;;
  mret result.

(** Reading a value out of the store, to depth [n]. *)
Fixpoint readback (n : nat) (σ : heap) (v : val) : option Value :=
  match n with
  | 0 => None
  | S n =>
      match v with
      | VStr s => Some (Str s)
      | VRef l =>
          match σ !! l with
          | Some (ODict d) =>
              Dict <$> map_fold (λ k v acc, m ← acc; t ← readback n σ v; Some (<[k := t]> m))
                                (Some ∅) d
          | _ => None
          end
      end
  end.

End Py.

(** * Specification vocabulary

    The words in which the theorems on [Fun] are stated, and the example
    documents they are applied to. *)

(** What [_dict_update] does with one item of [dict2]. *)
Abbreviation merge_item := (Fun.update_item Fun._dict_update).

Section vocabulary.
Import Fun.

(** [s] is made of characters of [ws] only. *)
Definition blank_with (ws : list (list ascii)) (s : list ascii) : Prop :=
  ∃ parts, Forall (λ w, w ∈ ws) parts ∧ s = List.concat parts.

(** The white space characters of Unicode 5.2, which Python 2.7 follows:
    U+0009..U+000D, U+001C..U+0020, U+0085, U+00A0, U+1680, U+180E,
    U+2000..U+200A, U+2028, U+2029, U+202F, U+205F and U+3000. *)
Definition white_space (cp : N) : bool :=
  ((9 <=? cp) && (cp <=? 13) || (28 <=? cp) && (cp <=? 32) || (cp =? 133) || (cp =? 160)
   || (cp =? 5760) || (cp =? 6158) || (8192 <=? cp) && (cp <=? 8202)
   || (cp =? 8232) || (cp =? 8233) || (cp =? 8239) || (cp =? 8287) || (cp =? 12288))%N.

(** [s] holds white space only: it is the encoding of a text, the empty one
    included, whose characters are all white space. *)
Definition blank (s : list ascii) : Prop :=
  ∃ cps, Forall (λ cp, white_space cp = true) cps ∧ s = List.concat (utf8 <$> cps).

(** [t] is [s] without the white space at its two ends: [s] is [t] between
    two blank texts, and [t] neither begins nor ends with a white space
    character. *)
Definition trimmed (s t : string) : Prop :=
  ∃ l r, list_ascii_of_string s = l ++ list_ascii_of_string t ++ r ∧
    blank l ∧ blank r ∧
    ∀ cp, white_space cp = true →
      ¬ utf8 cp `prefix_of` list_ascii_of_string t ∧
      ¬ utf8 cp `suffix_of` list_ascii_of_string t.

(** [nest [k1; ..; kn] v] is [{k1: {.. {kn: v}}}]. *)
Definition nest (P : list string) (v : Value) : Value :=
  foldr (λ k d, Dict {[ k := d ]}) v P.

(** Following a key path through nested dictionaries. *)
Fixpoint lookup_path (P : list string) (v : Value) : option Value :=
  match P with
  | [] => Some v
  | k :: P =>
      match v with
      | Dict m => m !! k ≫= lookup_path P
      | Str _ => None
      end
  end.

(** The number of dictionaries nested in [v]: the depth to which
    [_dict_update] recurses on it. *)
Fixpoint height (v : Value) : nat :=
  match v with
  | Str _ => 0
  | Dict m => S (map_fold (λ _ v h, height v `max` h) 0 m)
  end.

(** The entry of the merged dictionary at key [k]. *)
Definition merged_entry (m1 m2 : gmap string Value) (k : string) : res (option Value) :=
  match m2 !! k with
  | None => Ok (m1 !! k)
  | Some (Str s) => Ok (Some (Str s))
  | Some (Dict b) => Some <$> _dict_update (default (Dict ∅) (m1 !! k)) (Dict b)
  end.

(** A row as the converter stores it: its attribute map, values as strings. *)
Definition row_value (attrs : gmap string string) : Value := Dict (Str <$> attrs).

(** What the rowset loop has accumulated: nothing yet, or the rows seen so
    far grouped by key value. *)
Definition rows_acc (P : list string) (o : option (gmap string (gmap string string))) : Value :=
  match o with
  | None => Dict ∅
  | Some G => nest P (Dict (row_value <$> G))
  end.

(** The grouping the rowset loop computes: a row is laid over the rows that
    came before it under the same key value. *)
Fixpoint group_rows (key : string) (o : option (gmap string (gmap string string)))
    (cs : list node) : res (option (gmap string (gmap string string))) :=
  match cs with
  | [] => Ok o
  | Element _ attrs _ :: cs =>
      match attrs !! key with
      | Some kv =>
          let G := default ∅ o in
          group_rows key (Some (<[kv := attrs ∪ default ∅ (G !! kv)]> G)) cs
      | None => Raise (KeyError key)
      end
  | _ :: cs => group_rows key o cs
  end.

(** The attribute maps of the element children, in document order. *)
Definition element_attrs (cs : list node) : list (gmap string string) :=
  omap (λ c, match c with Element _ attrs _ => Some attrs | _ => None end) cs.

(** Rows laid over one another: on a shared attribute name the later row wins. *)
Definition overlay (rows : list (gmap string string)) : gmap string string :=
  foldl (λ acc attrs, attrs ∪ acc) ∅ rows.

(** The rows whose key attribute has the value [kv]. *)
Definition rows_with (key kv : string) (rows : list (gmap string string)) :
    list (gmap string string) :=
  filter (λ attrs, attrs !! key = Some kv) rows.

(** An element child carries the attribute [key]. *)
Definition has_key (key : string) (c : node) : Prop :=
  match c with
  | Element _ attrs _ => is_Some (attrs !! key)
  | _ => True
  end.

(** What the loop of [dom_to_dict] has accumulated for the element at path
    [P]: nothing yet, or a dictionary nested under [P]. *)
Definition dom_acc (P : list string) (o : option (gmap string Value)) : Value :=
  match o with
  | None => Dict ∅
  | Some m => nest P (Dict m)
  end.

(** Directly below the path of an element, only its text is a string. *)
Definition acc_ok (o : option (gmap string Value)) : Prop :=
  ∀ m k s, o = Some m → m !! k = Some (Str s) → k = "text".

(** [r] is empty or lies wholly below the path [P]. *)
Definition shape (P : list string) (r : Value) : Prop :=
  ∃ o, r = dom_acc P o ∧ acc_ok o.

(** The first half of the element step: the child's attributes. *)
Definition attributes_step (P : list string) (result : Value) (attrs : gmap string string) : res Value :=
  if bool_decide (attrs = ∅) then Ok result
  else _dict_update result (nest P (Dict {[ "attributes" := row_value attrs ]})).

(** The second half: the rowset, or the child converted at its own path. *)
Definition content_step (rec : node → list Value → res Value) (P : list string)
    (result : Value) (child : node) : res Value :=
  match child with
  | Element tagName attrs _ =>
      if bool_decide (tagName = "rowset") then
        match attrs !! "name" with
        | None => Raise (KeyError "name")
        | Some name =>
            match attrs !! "key" with
            | None => Raise (KeyError "key")
            | Some key =>
                d ← rows_acc (P ++ [name]) <$> group_rows key None (childNodes child);
                _dict_update result d
            end
        end
      else
        d ← rec child (Str <$> (P ++ [tagName]));
        _dict_update result d
  | _ => Ok result
  end.

(** A rowset child the converter accepts: it names its target and its key
    attribute, and every element below it carries that key attribute.  The
    children of the rows are not looked at. *)
Definition has_keyb (key : string) (c : node) : bool :=
  match c with
  | Element _ attrs _ => bool_decide (is_Some (attrs !! key))
  | _ => true
  end.

Definition rowset_ok (attrs : gmap string string) (cs : list node) : bool :=
  match attrs !! "name", attrs !! "key" with
  | Some _, Some key => forallb (has_keyb key) cs
  | _, _ => false
  end.

(** Every rowset the conversion of [n] visits is accepted. *)
Fixpoint well_formed (n : node) : bool :=
  match n with
  | Element _ _ cs | Document cs =>
      forallb (λ c,
        match c with
        | Element tagName attrs cs' =>
            if bool_decide (tagName = "rowset") then rowset_ok attrs cs' else well_formed c
        | _ => true
        end) cs
  | Text _ | Other => true
  end.

(** The exceptions of a deep merge that meets a string where it needs a
    dictionary. *)
Definition merge_exn (e : exn) : Prop := e = TypeError ∨ e = AttributeError.

(** The nodes the loop of [dom_to_dict] runs over, in document order: the
    children of [n] and, below each element child that is not a rowset, the
    nodes visited in it.  The children of a rowset are left to
    [_process_eveapi_rowset], which looks no further down. *)
Fixpoint visited (n : node) : list node :=
  match n with
  | Element _ _ cs | Document cs =>
      flat_map (λ c, c :: match c with
                          | Element tagName _ _ =>
                              if bool_decide (tagName = "rowset") then [] else visited c
                          | _ => []
                          end) cs
  | Text _ | Other => []
  end.

(** The attribute that is looked up first and not found when a rowset is
    converted: [name], then [key], then the key attribute on the element
    children. *)
Definition rowset_failure (attrs : gmap string string) (cs : list node) : option string :=
  match attrs !! "name", attrs !! "key" with
  | None, _ => Some "name"
  | Some _, None => Some "key"
  | Some _, Some key => if forallb (has_keyb key) cs then None else Some key
  end.

(** The same for one child of a converted element; [rec] is [lookup_failure]
    itself. *)
Definition child_failure (rec : node → option string) (c : node) : option string :=
  match c with
  | Element tagName attrs cs =>
      if bool_decide (tagName = "rowset") then rowset_failure attrs cs else rec c
  | _ => None
  end.

(** The same for a whole conversion: the first failure among the visited
    nodes, in document order. *)
Fixpoint lookup_failure (n : node) : option string :=
  match n with
  | Element _ _ cs | Document cs =>
      foldr (λ c later,
               match child_failure lookup_failure c with
               | Some k => Some k
               | None => later
               end) None cs
  | Text _ | Other => None
  end.

(** The keys under which the conversion itself stores text and attributes. *)
Definition reserved (k : string) : bool :=
  bool_decide (k = "text") || bool_decide (k = "attributes").

(** The child [c] of the element converted at the path [P] is stored under a
    key of its own kind: its tag, or the name of the rowset, is not reserved,
    and [RP] holds of the path of a rowset and of no path of an element. *)
Definition child_keys_ok (RP : list string → bool) (rec : node → list string → bool)
    (P : list string) (c : node) : bool :=
  match c with
  | Element tagName attrs _ =>
      if bool_decide (tagName = "rowset") then
        match attrs !! "name" with
        | Some name => negb (reserved name) && RP (P ++ [name])
        | None => true
        end
      else negb (reserved tagName) && negb (RP (P ++ [tagName])) && rec c (P ++ [tagName])
  | _ => true
  end.

(** The same for all the visited nodes of [n], converted at the path [P]. *)
Fixpoint keys_ok (RP : list string → bool) (n : node) (P : list string) : bool :=
  match n with
  | Element _ _ cs | Document cs => forallb (child_keys_ok RP (keys_ok RP) P) cs
  | Text _ | Other => true
  end.

(** The dictionaries below the path [Q] of an element whose keys are of their
    own kind: text under "text", attributes under "attributes", rows where
    [RP] holds, and such a dictionary again elsewhere. *)
Inductive fits (RP : list string → bool) : list string → Value → Prop :=
| fits_Dict Q (m : gmap string Value) :
    (∀ k v, m !! k = Some v →
       (k = "text" ∧ ∃ s, v = Str s) ∨
       (k = "attributes" ∧ ∃ attrs, v = row_value attrs) ∨
       (reserved k = false ∧ RP (Q ++ [k]) = true ∧
          ∃ G : gmap string (gmap string string), v = Dict (row_value <$> G)) ∨
       (reserved k = false ∧ RP (Q ++ [k]) = false ∧ fits RP (Q ++ [k]) v)) →
    fits RP Q (Dict m).

(** What the loop of [dom_to_dict] has accumulated below [P] is such a
    dictionary. *)
Definition fits_acc (RP : list string → bool) (P : list string) (o : option (gmap string Value)) : Prop :=
  match o with
  | Some m => fits RP P (Dict m)
  | None => True
  end.

(** What the conversion of [n] at the path [P] comes to when the keys are of
    their own kind. *)
Definition converts (RP : list string → bool) (n : node) (P : list string) : Prop :=
  match lookup_failure n with
  | Some k => Fun.dom_to_dict n (Str <$> P) = Raise (KeyError k)
  | None => ∃ o, Fun.dom_to_dict n (Str <$> P) = Ok (dom_acc P o) ∧ fits_acc RP P o
  end.

(** The number of element levels of a document tree. *)
Fixpoint depth (n : node) : nat :=
  match n with
  | Element _ _ cs | Document cs => S (foldr (λ c h, depth c `max` h) 0 cs)
  | Text _ | Other => 0
  end.

(** The /server/ServerStatus response of the module documentation, parsed. *)
Definition server_status : node :=
  Document [Element "eveapi" {[ "version" := "2" ]} [
    Element "currentTime" ∅ [Text "2011-08-30 22:36:14"];
    Element "result" ∅ [
      Element "serverOpen" ∅ [Text "True"];
      Element "onlinePlayers" ∅ [Text "30356"]];
    Element "cachedUntil" ∅ [Text "2011-08-30 22:37:24"]]].

(** The entries of the timestamps and of the result of [server_status]. *)
Definition server_status_times : gmap string Value :=
  {[ "currentTime" := Dict {[ "text" := Str "2011-08-30 22:36:14" ]};
     "result" := Dict {[ "serverOpen" := Dict {[ "text" := Str "True" ]};
                         "onlinePlayers" := Dict {[ "text" := Str "30356" ]} ]};
     "cachedUntil" := Dict {[ "text" := Str "2011-08-30 22:37:24" ]} ]}.

(** The dictionary with the attributes of the root element inside the entry
    of the root element. *)
Definition server_status_nested : Value :=
  Dict {[ "eveapi" :=
    Dict (<[ "attributes" := Dict {[ "version" := Str "2" ]} ]> server_status_times) ]}.

(** The dictionary with the attributes of the root element beside the entry
    of the root element. *)
Definition server_status_flat : Value :=
  Dict {[ "attributes" := Dict {[ "version" := Str "2" ]};
          "eveapi" := Dict server_status_times ]}.

(** A rowset keyed by [id] whose first and third rows share the key value. *)
Definition rowset_dup : node :=
  Element "rowset" {[ "name" := "rows"; "key" := "id" ]} [
    Element "row" {[ "id" := "1"; "a" := "x" ]} [];
    Element "row" {[ "id" := "2" ]} [];
    Element "row" {[ "id" := "1"; "b" := "y" ]} []].

(** The attribute maps of the children called [row], in document order. *)
Definition row_attrs (cs : list node) : list (gmap string string) :=
  omap (λ c, match c with
             | Element tagName attrs _ =>
                 if bool_decide (tagName = "row") then Some attrs else None
             | _ => None
             end) cs.

(** A row beside an element that is no row and carries no key. *)
Definition row_and_note : list node :=
  [ Element "row" {[ "id" := "1" ]} []; Element "note" ∅ [Text "checked"] ].

(** A row beside an element that is no row and carries the key. *)
Definition row_and_item : list node :=
  [ Element "row" {[ "id" := "1" ]} []; Element "item" {[ "id" := "2" ]} [] ].

(** The rowset of the documentation of [dom_to_dict]. *)
Definition characters : node :=
  Element "rowset"
    {[ "name" := "characters"; "key" := "characterID";
       "columns" := "name,characterID,corporationName,corporationID" ]}
    [ Text "
";
      Element "row" {[ "name" := "fcydo"; "characterID" := "270095316";
                       "corporationName" := "Odylab Research"; "corporationID" := "1214825692" ]} [];
      Element "row" {[ "name" := "hcydo"; "characterID" := "499939401";
                       "corporationName" := "Odylab Research"; "corporationID" := "1214825692" ]} [];
      Element "row" {[ "name" := "pcydo"; "characterID" := "515300277";
                       "corporationName" := "Odylab Research"; "corporationID" := "1214825692" ]} [] ].

(** All the nodes of a tree. *)
Fixpoint descendants (n : node) : list node :=
  n :: match n with
       | Element _ _ cs | Document cs => flat_map descendants cs
       | Text _ | Other => []
       end.

(** A rowset without [name] and [key] below a row. *)
Definition rowset_in_row : node :=
  Document [Element "result" ∅ [
    Element "rowset" {[ "name" := "assets"; "key" := "itemID" ]} [
      Element "row" {[ "itemID" := "150354641" ]} [
        Element "rowset" ∅ [] ]]]].

(** An element called [text] beside text. *)
Definition text_beside_text : node :=
  Document [Element "a" ∅ [Text "hello"; Element "text" ∅ [Text "world"]]].

(** An answer of the API around the rowset of [characters]. *)
Definition characters_document (rowset : node) : node :=
  Document [
    Element "eveapi" {[ "version" := "2" ]} [
      Element "currentTime" ∅ [Text "2011-08-30 22:36:14"];
      Element "result" ∅ [rowset];
      Element "cachedUntil" ∅ [Text "2011-08-30 23:33:14"] ]].

(** The rowset of [characters] without its [key] attribute. *)
Definition characters_no_key : node :=
  Element "rowset" {[ "name" := "characters" ]} (childNodes characters).

(** The paths of the rowsets of these answers. *)
Definition characters_paths (Q : list string) : bool :=
  bool_decide (Q = ["eveapi"; "result"; "characters"]).

(** An element called [text] beside text, before a rowset without [key]. *)
Definition collision_then_no_key : node :=
  Element "result" ∅ [
    Element "a" ∅ [Element "text" ∅ [Text "world"]; Text "hello"];
    characters_no_key ].

(** Whether the merge of [dict2] into [dict1] returns: no string of [dict1]
    lies where [dict2] has a dictionary with an entry. *)
Fixpoint mergeable (dict1 dict2 : Value) {struct dict2} : bool :=
  match dict2 with
  | Str _ => false
  | Dict m2 =>
      match dict1 with
      | Str _ => bool_decide (m2 = ∅)
      | Dict m1 =>
          map_fold (λ k v rest,
            rest && match v with
                    | Str _ => true
                    | Dict _ => mergeable (default (Dict ∅) (m1 !! k)) v
                    end) true m2
      end
  end.

(** A child that the loop of [dom_to_dict] does something with: an element,
    or text that is not blank. *)
Definition significant (c : node) : bool :=
  match c with
  | Text data => bool_decide (0 < String.length (strip data))
  | Element _ _ _ => true
  | Document _ | Other => false
  end.

(** The document without its blank text, its comments and the like, at every
    depth. *)
Fixpoint prune (n : node) : node :=
  match n with
  | Element tagName attrs cs =>
      Element tagName attrs (omap (λ c, if significant c then Some (prune c) else None) cs)
  | Document cs => Document (omap (λ c, if significant c then Some (prune c) else None) cs)
  | Text _ | Other => n
  end.

(** No child of [cs] is stored under the key "attributes": no element is
    called so, and no rowset is named so. *)
Definition no_attributes_child (c : node) : Prop :=
  match c with
  | Element tagName attrs _ =>
      if bool_decide (tagName = "rowset") then attrs !! "name" ≠ Some "attributes"
      else tagName ≠ "attributes"
  | _ => True
  end.

(** The entry "attributes" below [P] is the overlay of the attribute maps
    [rows], when there is any attribute. *)
Definition attributes_are (rows : list (gmap string string)) (o : option (gmap string Value)) : Prop :=
  default ∅ o !! "attributes" =
  if bool_decide (overlay rows = ∅) then None else Some (row_value (overlay rows)).

End vocabulary.

(** * Reading the store

    What a reference stands for, what it reaches, and the invariant of a
    computation that leaves a region of the store alone. *)

Section store.
Import Py.

(** [v] stands for the value [t] in the store [σ]: a string for itself, a
    reference for the dictionary behind it, entry by entry. *)
Inductive represents (σ : heap) : val → Value → Prop :=
| represents_str s : represents σ (VStr s) (Str s)
| represents_dict l d m :
    σ !! l = Some (ODict d) →
    (∀ k, option_Forall2 (represents σ) (d !! k) (m !! k)) →
    represents σ (VRef l) (Dict m).

(** The values an object holds. *)
Definition obj_holds (o : obj) (v : val) : Prop :=
  match o with
  | ODict d => ∃ k, d !! k = Some v
  | OList xs => v ∈ xs
  end.

(** The object at [l] holds a reference to [l']. *)
Definition refers (σ : heap) (l l' : loc) : Prop :=
  ∃ o, σ !! l = Some o ∧ obj_holds o (VRef l').

(** The objects reachable from the object at [l], [l] included. *)
Definition reach (σ : heap) : loc → loc → Prop := rtc (refers σ).

(** No object is reachable from both [l1] and [l2]. *)
Definition separate (σ : heap) (l1 l2 : loc) : Prop :=
  ∀ l, reach σ l1 l → reach σ l2 l → False.

(** A value that is a string, or a reference into the region [X]. *)
Definition val_in (X : loc → Prop) (v : val) : Prop :=
  match v with
  | VRef l => X l
  | VStr _ => True
  end.

(** The region [X] of the store refers to nothing outside of [X]. *)
Definition closed (σ : heap) (X : loc → Prop) : Prop :=
  ∀ l o v, X l → σ !! l = Some o → obj_holds o v → val_in X v.

(** The invariant of the merge of a source that occupies the region [S] of
    the store [σ0]: the source region is as it was, and the region [D] the
    merge works in is apart from it and closed. *)
Record inv (σ0 : heap) (S D : loc → Prop) (σ : heap) : Prop := {
  inv_source : ∀ l, S l → σ !! l = σ0 !! l;
  inv_apart : ∀ l, D l → S l → False;
  inv_closed : closed σ D;
}.
Global Arguments inv_source {σ0 S}.
Global Arguments inv_apart {σ0 S}.
Global Arguments inv_closed {σ0 S}.

(** [m] keeps the invariant, in a region that may have grown, does not run
    out of recursion depth, and returns a result that satisfies [Q]. *)
Definition preserves (σ0 : heap) (S : loc → Prop) {A} (D : loc → Prop) (m : M A)
    (Q : A → (loc → Prop) → Prop) : Prop :=
  ∀ σ, inv σ0 S D σ →
    ∃ D', (∀ l, D l → D' l) ∧ inv σ0 S D' (m σ).2 ∧
      match (m σ).1 with
      | Ok a => Q a D'
      | Raise e => e ≠ RecursionLimit
      end.

(** Deciding the hypotheses on a given store: [val_in], for a finite region. *)
Definition val_inb (X : gset loc) (v : val) : bool :=
  match v with
  | VRef l => bool_decide (l ∈ X)
  | VStr _ => true
  end.

(** Every value that [o] holds is in [X]. *)
Definition obj_inb (X : gset loc) (o : obj) : bool :=
  match o with
  | ODict d => forallb (λ kv, val_inb X kv.2) (map_to_list d)
  | OList xs => forallb (val_inb X) xs
  end.

(** [closed], for a finite region. *)
Definition closedb (σ : heap) (X : gset loc) : bool :=
  forallb (λ lo, implb (bool_decide (lo.1 ∈ X)) (obj_inb X lo.2)) (map_to_list σ).

(** Following a key path from a value through the dictionaries of the
    store. *)
Fixpoint follow (σ : Py.heap) (v : Py.val) (P : list string) : option Py.val :=
  match P with
  | [] => Some v
  | k :: P =>
      match v with
      | Py.VRef l =>
          match σ !! l with
          | Some (Py.ODict d) => d !! k ≫= λ x, follow σ x P
          | _ => None
          end
      | Py.VStr _ => None
      end
  end.

End store.

(** * Example stores *)

Section example_stores.
Import Py.
Local Open Scope positive_scope.

(** A source {a: X, b: Y} and a destination {b: X} that holds the
    dictionary X of the source. *)
Definition shared_store : heap :=
  {[ 1 := ODict {[ "b" := VRef 3 ]};
     2 := ODict {[ "a" := VRef 3; "b" := VRef 4 ]};
     3 := ODict {[ "p" := VStr "1" ]};
     4 := ODict {[ "q" := VStr "2" ]} ]}.

(** A destination {a: {b: "1"}} at 1 and a source {a: {c: "2"}} at 2 that
    share nothing. *)
Definition apart_store : heap :=
  {[ 1 := ODict {[ "a" := VRef 3 ]};
     2 := ODict {[ "a" := VRef 4 ]};
     3 := ODict {[ "b" := VStr "1" ]};
     4 := ODict {[ "c" := VStr "2" ]} ]}.

(** A store with nothing but the empty list that is the default [path]. *)
Definition fresh_store : heap := {[ 1%positive := OList [] ]}.

(** The store left by a first conversion of the ServerStatus document. *)
Definition used_store : heap :=
  (dom_to_dict 8 server_status (VRef 1%positive) fresh_store).2.

End example_stores.

(** * A separation logic for the store

    Assertions are Iris propositions over the points-to connective of
    [gen_heap], instantiated with the objects of [Py]. *)

Notation "l ↦ dq o" := (pointsto l dq o)
  (at level 20, dq custom dfrac at level 1, format "l  ↦ dq  o") : bi_scope.

Section logic.
Import Py.
Context `{!gen_heapGS loc obj Σ}.

(** [wp m Φ]: from every store that the assertions at hand describe, [m]
    runs to a result, or an exception, that satisfies [Φ]. *)
Definition wp {A} (m : M A) (Φ : res A → iProp Σ) : iProp Σ :=
  ∀ σ, gen_heap_interp σ ==∗ ∃ r σ', ⌜m σ = (r, σ')⌝ ∗ gen_heap_interp σ' ∗ Φ r.

(** [repr dq v t]: [v] stands for [t], and the dictionaries of [t] are owned
    with the fraction [dq], each one once: [t] is laid out as a tree. *)
Fixpoint repr (dq : dfrac) (v : val) (t : Value) : iProp Σ :=
  match t with
  | Str s => ⌜v = VStr s⌝
  | Dict m =>
      ∃ l d, ⌜v = VRef l ∧ dom d = dom m⌝ ∗ l ↦{dq} ODict d ∗
        map_fold (λ k t P, (∃ x, ⌜d !! k = Some x⌝ ∗ repr dq x t) ∗ P) True m
  end%I.

(** [rec] converts [element] at the path [P] as [Fun.dom_to_dict] does. *)
Definition dom_to_dict_spec (rec : node → val → M val) (element : node)
    (P : list string) : Prop :=
  ∀ (lp : loc) dq (Φ : res val → iProp Σ),
    ⊢ lp ↦{dq} OList (VStr <$> P) -∗
    (lp ↦{dq} OList (VStr <$> P) -∗
     match Fun.dom_to_dict element (Str <$> P) with
     | Ok t => ∀ v, repr (DfracOwn 1) v t -∗ Φ (Ok v)
     | Raise e => Φ (Raise e)
     end) -∗
    wp (rec element (VRef lp)) Φ.

(** [chain x P v]: a chain of one-entry dictionaries leads along [P] from [x]
    to the value [v] itself. *)
Fixpoint chain (x : val) (P : list string) (v : val) : iProp Σ :=
  match P with
  | [] => ⌜x = v⌝
  | k :: P => ∃ l y, ⌜x = VRef l⌝ ∗ l ↦ ODict {[ k := y ]} ∗ chain y P v
  end%I.

End logic.

(** * White space at the ends of a text *)

Section strip_facts.
Local Open Scope nat_scope.

Lemma after_prefix_Some w s rest : after_prefix w s = Some rest ↔ s = w ++ rest.
Proof.
  revert s. induction w as [|a w IH]; intros s; simpl.
  { split; [by intros [= ->]|by intros ->]. }
  destruct s as [|b s]; first done.
  case_bool_decide as Hab.
  - subst b. rewrite IH. split; [by intros ->|by intros [= ->]].
  - split; first done. intros [= ? _]. by destruct Hab.
Qed.

Lemma after_space_Some ws s rest :
  after_space ws s = Some rest → ∃ w, w ∈ ws ∧ s = w ++ rest.
Proof.
  induction ws as [|w ws IH]; first done. simpl.
  destruct (after_prefix w s) as [rest'|] eqn:Hw.
  - intros [= <-]. exists w. split; first by left. by apply after_prefix_Some.
  - intros (w' & ? & ?)%IH. exists w'. split; [by right|done].
Qed.

Lemma after_space_None ws s :
  after_space ws s = None ↔ ∀ w, w ∈ ws → ¬ w `prefix_of` s.
Proof.
  induction ws as [|w ws IH]; simpl.
  { split; [by intros _ w ?%elem_of_nil|done]. }
  destruct (after_prefix w s) as [rest|] eqn:Hw.
  - split; first done. intros H. destruct (H w); first by left.
    exists rest. by apply after_prefix_Some.
  - rewrite IH. split.
    + intros H w' [->|?]%elem_of_cons; last by apply H.
      intros [rest Hrest]. apply after_prefix_Some in Hrest. congruence.
    + intros H w' ?. apply H. by right.
Qed.

Lemma blank_with_app ws s1 s2 : blank_with ws s1 → blank_with ws s2 → blank_with ws (s1 ++ s2).
Proof.
  intros (p1 & H1 & ->) (p2 & H2 & ->). exists (p1 ++ p2).
  split; [by apply Forall_app|by rewrite concat_app].
Qed.

(** The table of [strip] lists the white space characters. *)
Lemma white_space_spaces cp : white_space cp = true ↔ cp ∈ spaces.
Proof.
  split.
  - rewrite /white_space. rewrite !orb_true_iff !andb_true_iff.
    rewrite !N.leb_le !N.eqb_eq. intros H.
    assert (cp ∈ [9; 10; 11; 12; 13; 28; 29; 30; 31; 32; 133; 160; 5760; 6158;
                  8192; 8193; 8194; 8195; 8196; 8197; 8198; 8199; 8200; 8201; 8202;
                  8232; 8233; 8239; 8287; 12288]%N) as Hcp; last exact Hcp.
    rewrite !elem_of_cons. lia.
  - rewrite /spaces !elem_of_cons elem_of_nil.
    intros H. repeat (destruct H as [->|H]; first done). done.
Qed.

Lemma space_bytes_white w : w ∈ space_bytes ↔ ∃ cp, white_space cp = true ∧ w = utf8 cp.
Proof.
  rewrite /space_bytes list_elem_of_fmap. split.
  - intros (cp & -> & Hcp). exists cp. by rewrite white_space_spaces.
  - intros (cp & Hcp & ->). exists cp. by rewrite -white_space_spaces.
Qed.

Lemma blank_table s : blank s ↔ blank_with space_bytes s.
Proof.
  split.
  - intros (cps & Hcps & ->). exists (utf8 <$> cps). split; last done.
    apply Forall_fmap. eapply Forall_impl; first exact Hcps.
    intros cp Hcp. apply space_bytes_white. by exists cp.
  - intros (parts & Hparts & ->).
    induction Hparts as [|w parts Hw Hparts IH]; first by exists [].
    destruct IH as (cps & Hcps & Heq). apply space_bytes_white in Hw as (cp & Hcp & ->).
    exists (cp :: cps). split; [by constructor|by rewrite /= Heq].
Qed.

Lemma drop_spaces_spec ws n s :
  Forall (λ w, w ≠ []) ws → List.length s ≤ n →
  ∃ l, s = l ++ drop_spaces ws n s ∧ blank_with ws l ∧
       after_space ws (drop_spaces ws n s) = None.
Proof.
  intros Hws. revert s. induction n as [|n IH]; intros s Hn.
  { destruct s; last (simpl in Hn; lia). exists []. split; first done.
    split; first by exists []. apply after_space_None. intros w Hw [rest Hrest].
    rewrite Forall_forall in Hws. apply (Hws w Hw). by destruct w. }
  simpl. destruct (after_space ws s) as [rest|] eqn:Hs.
  - apply after_space_Some in Hs as (w & Hw & ->).
    destruct (IH rest) as (l & Hl & Hblank & Hnone).
    { rewrite Forall_forall in Hws. specialize (Hws w Hw).
      rewrite length_app in Hn. destruct w; [done|simpl in Hn; lia]. }
    exists (w ++ l). split; first by rewrite -assoc -Hl.
    split; last done. apply blank_with_app; last done.
    exists [w]. split; [by repeat constructor|by rewrite /= app_nil_r].
  - exists []. split; first done. split; [by exists []|done].
Qed.

Lemma app_eq_prefix (l1 l2 k1 k2 : list ascii) :
  l1 ++ k1 = l2 ++ k2 → l1 `prefix_of` l2 ∨ l2 `prefix_of` l1.
Proof.
  revert l2. induction l1 as [|a l1 IH]; intros l2 H.
  { left. apply prefix_nil. }
  destruct l2 as [|b l2]; first (right; apply prefix_nil).
  injection H as -> H. destruct (IH _ H); [left|right]; by apply prefix_cons.
Qed.

Lemma after_space_nil ws : Forall (λ w, w ≠ []) ws → after_space ws [] = None.
Proof.
  intros Hws. apply after_space_None. intros w Hw [rest Hrest].
  rewrite Forall_forall in Hws. apply (Hws w Hw). by destruct w.
Qed.

Lemma drop_spaces_exact ws n l t :
  Forall (λ w, w ≠ []) ws →
  (∀ w1 w2, w1 ∈ ws → w2 ∈ ws → w1 `prefix_of` w2 → w1 = w2) →
  blank_with ws l → after_space ws t = None → List.length l ≤ n →
  drop_spaces ws n (l ++ t) = t.
Proof.
  intros Hws Hfree (parts & Hparts & ->) Ht. revert n.
  induction Hparts as [|w parts Hw Hparts IH]; intros n Hn.
  { destruct n; first done. by rewrite /= Ht. }
  simpl in Hn. rewrite length_app in Hn.
  assert (w ≠ []) as Hne by (rewrite Forall_forall in Hws; by apply Hws).
  destruct n as [|n]; first (destruct w; [done|simpl in Hn; lia]).
  rewrite /= -assoc.
  destruct (after_space ws (w ++ List.concat parts ++ t)) as [rest|] eqn:Hs.
  - apply after_space_Some in Hs as (w' & Hw' & Heq).
    assert (w = w') as <-.
    { destruct (app_eq_prefix _ _ _ _ Heq) as [?|?]; [|symmetry]; by apply Hfree. }
    apply app_inv_head in Heq as <-. apply IH.
    destruct w; [done|simpl in Hn; lia].
  - rewrite after_space_None in Hs. destruct (Hs w Hw). by eexists.
Qed.

Lemma prefix_free_check (ws : list (list ascii)) :
  forallb (λ w1, forallb (λ w2,
    match after_prefix w1 w2 with None => true | Some _ => bool_decide (w1 = w2) end) ws) ws
    = true →
  ∀ w1 w2, w1 ∈ ws → w2 ∈ ws → w1 `prefix_of` w2 → w1 = w2.
Proof.
  intros Hall w1 w2 H1%list_elem_of_In H2%list_elem_of_In [rest Hrest].
  apply after_prefix_Some in Hrest.
  rewrite forallb_forall in Hall. specialize (Hall w1 H1).
  rewrite forallb_forall in Hall. specialize (Hall w2 H2).
  rewrite Hrest in Hall. by apply bool_decide_eq_true in Hall.
Qed.

Lemma space_bytes_nonempty : Forall (λ w, w ≠ []) space_bytes.
Proof. rewrite /space_bytes. by repeat constructor. Qed.

Lemma space_bytes_rev_nonempty : Forall (λ w, w ≠ []) (reverse <$> space_bytes).
Proof. rewrite /space_bytes. by repeat constructor. Qed.

(** No white space character is encoded by the beginning, or by the end, of
    the encoding of another. *)
Lemma space_bytes_prefix_free w1 w2 :
  w1 ∈ space_bytes → w2 ∈ space_bytes → w1 `prefix_of` w2 → w1 = w2.
Proof. apply prefix_free_check. vm_compute. reflexivity. Qed.

Lemma space_bytes_rev_prefix_free w1 w2 :
  w1 ∈ reverse <$> space_bytes → w2 ∈ reverse <$> space_bytes → w1 `prefix_of` w2 → w1 = w2.
Proof. apply prefix_free_check. vm_compute. reflexivity. Qed.

(** The first byte of the encoding of a white space character is found in no
    encoding of one after its first byte. *)
Lemma space_bytes_heads w1 w2 a b c :
  w1 ∈ space_bytes → w2 ∈ space_bytes → a ≠ [] → w1 = a ++ c :: b → head w2 ≠ Some c.
Proof.
  intros H1%list_elem_of_In H2%list_elem_of_In Ha Hw1.
  assert (forallb (λ w1, forallb (λ w2, forallb (λ c,
            negb (bool_decide (head w2 = Some c))) (tail w1)) space_bytes) space_bytes = true)
    as Hall by (vm_compute; reflexivity).
  rewrite forallb_forall in Hall. specialize (Hall w1 H1).
  rewrite forallb_forall in Hall. specialize (Hall w2 H2).
  rewrite forallb_forall in Hall. specialize (Hall c).
  intros Hc. rewrite bool_decide_eq_true_2 in Hall; last done.
  discriminate Hall. subst w1. destruct a as [|x a]; first done.
  apply in_or_app. right. by left.
Qed.

Lemma blank_app s1 s2 : blank s1 → blank s2 → blank (s1 ++ s2).
Proof. rewrite !blank_table. apply blank_with_app. Qed.

Lemma blank_with_reverse s : blank_with (reverse <$> space_bytes) s → blank (reverse s).
Proof.
  rewrite blank_table.
  intros (parts & Hparts & ->). exists (reverse (reverse <$> parts)). split.
  - apply Forall_reverse, Forall_fmap. eapply Forall_impl; first exact Hparts.
    intros w (w' & -> & Hw')%list_elem_of_fmap. by rewrite /= reverse_involutive.
  - clear Hparts. induction parts as [|w parts IH]; first done.
    by rewrite /= reverse_app IH reverse_cons concat_app /= app_nil_r.
Qed.

Lemma lstrip_spec s :
  ∃ l, list_ascii_of_string s = l ++ list_ascii_of_string (lstrip s) ∧ blank l ∧
       ∀ w, w ∈ space_bytes → ¬ w `prefix_of` list_ascii_of_string (lstrip s).
Proof.
  rewrite /lstrip /= list_ascii_of_string_of_list_ascii.
  destruct (drop_spaces_spec space_bytes (List.length (list_ascii_of_string s))
              (list_ascii_of_string s) space_bytes_nonempty) as (l & Hl & Hblank & Hnone);
    first done.
  exists l. split; first done. split; first by apply blank_table.
  by apply after_space_None.
Qed.

Lemma rstrip_spec s :
  ∃ r, list_ascii_of_string s = list_ascii_of_string (rstrip s) ++ r ∧ blank r ∧
       ∀ w, w ∈ space_bytes → ¬ w `suffix_of` list_ascii_of_string (rstrip s).
Proof.
  rewrite /rstrip /= list_ascii_of_string_of_list_ascii.
  destruct (drop_spaces_spec (reverse <$> space_bytes)
              (List.length (reverse (list_ascii_of_string s)))
              (reverse (list_ascii_of_string s)) space_bytes_rev_nonempty)
    as (l & Hl & Hblank & Hnone); first done.
  exists (reverse l). split.
  { by rewrite -reverse_app -Hl reverse_involutive. }
  split; first by apply blank_with_reverse.
  intros w Hw [k Hk]. rewrite after_space_None in Hnone.
  apply (Hnone (reverse w)); first by apply list_elem_of_fmap_2.
  exists (reverse k). by rewrite -reverse_app -Hk reverse_involutive.
Qed.

(** [strip] removes white space, and all of it, from the two ends. *)
Lemma strip_trimmed s : trimmed s (strip s).
Proof.
  rewrite /strip. destruct (lstrip_spec s) as (l & Hl & Hbl & Hpre).
  destruct (rstrip_spec (lstrip s)) as (r & Hr & Hbr & Hsuf).
  exists l, r. split; first by rewrite Hl {1}Hr.
  split; first done. split; first done.
  intros cp Hcp. assert (utf8 cp ∈ space_bytes) as Hw by (apply space_bytes_white; eauto).
  split; last by apply Hsuf.
  intros Hp. apply (Hpre _ Hw). rewrite Hr. by apply prefix_app_r.
Qed.

(** [strip] leaves nothing of a text exactly when the text is white space only. *)
Lemma strip_blank s : strip s = "" ↔ blank (list_ascii_of_string s).
Proof.
  split.
  - intros Hs. destruct (strip_trimmed s) as (l & r & -> & Hl & Hr & _).
    rewrite Hs /=. by apply blank_app.
  - intros Hs. rewrite /strip /lstrip.
    rewrite -(app_nil_r (list_ascii_of_string s)).
    rewrite (drop_spaces_exact space_bytes); first done.
    + apply space_bytes_nonempty.
    + apply space_bytes_prefix_free.
    + by apply blank_table.
    + apply after_space_nil, space_bytes_nonempty.
    + by rewrite app_nil_r.
Qed.

Lemma blank_reverse s : blank s → blank_with (reverse <$> space_bytes) (reverse s).
Proof.
  rewrite blank_table.
  intros (parts & Hparts & ->). exists (reverse (reverse <$> parts)). split.
  - apply Forall_reverse, Forall_fmap. eapply Forall_impl; first exact Hparts.
    intros w Hw. by apply list_elem_of_fmap_2.
  - clear Hparts. induction parts as [|w parts IH]; first done.
    by rewrite /= reverse_app IH reverse_cons concat_app /= app_nil_r.
Qed.

(** White space behind a text that does not begin with white space does not
    make it begin with white space. *)
Lemma no_space_before_blank t r :
  t ≠ [] → (∀ w, w ∈ space_bytes → ¬ w `prefix_of` t) → blank r →
  after_space space_bytes (t ++ r) = None.
Proof.
  rewrite blank_table.
  intros Ht Hpre (parts & Hparts & ->). apply after_space_None. intros w Hw [k Hk].
  symmetry in Hk. destruct (app_eq_prefix _ _ _ _ Hk) as [?|[b ->]]; first by eapply Hpre.
  rewrite -assoc in Hk. apply app_inv_head in Hk.
  destruct b as [|c b].
  { apply (Hpre (t ++ []) Hw). by rewrite app_nil_r. }
  destruct Hparts as [|w' parts Hw' Hparts]; first done.
  apply (space_bytes_heads (t ++ c :: b) w' t b c Hw Hw' Ht eq_refl).
  assert (w' ≠ []) as Hne.
  { pose proof space_bytes_nonempty as Hws. rewrite Forall_forall in Hws. by apply Hws. }
  destruct w' as [|c' w']; first done. simpl in Hk. by injection Hk as -> _.
Qed.

(** The trimmed text is unique: it is what [strip] computes. *)
Lemma trimmed_strip s t : trimmed s t ↔ t = strip s.
Proof.
  split; last (intros ->; apply strip_trimmed).
  intros (l & r & Hs & Hl & Hr & Hcps).
  assert (∀ w, w ∈ space_bytes →
            ¬ w `prefix_of` list_ascii_of_string t ∧ ¬ w `suffix_of` list_ascii_of_string t)
    as Hends.
  { intros w (cp & Hcp & ->)%space_bytes_white. by apply Hcps. }
  destruct (decide (list_ascii_of_string t = [])) as [Ht|Ht].
  { assert (strip s = "") as ->.
    { apply strip_blank. rewrite Hs Ht /=. by apply blank_app. }
    by rewrite -(string_of_list_ascii_of_string t) Ht. }
  assert (lstrip s = string_of_list_ascii (list_ascii_of_string t ++ r)) as Hlstrip.
  { rewrite /lstrip Hs. cbv zeta. f_equal. apply drop_spaces_exact.
    - apply space_bytes_nonempty.
    - apply space_bytes_prefix_free.
    - by apply blank_table.
    - apply no_space_before_blank; [done| |done]. intros w Hw. by apply Hends.
    - rewrite length_app. lia. }
  rewrite /strip Hlstrip /rstrip. cbv zeta.
  rewrite list_ascii_of_string_of_list_ascii reverse_app.
  rewrite drop_spaces_exact.
  - by rewrite reverse_involutive string_of_list_ascii_of_string.
  - apply space_bytes_rev_nonempty.
  - apply space_bytes_rev_prefix_free.
  - by apply blank_reverse.
  - apply after_space_None. intros w (w' & -> & Hw')%list_elem_of_fmap [k Hk].
    destruct (Hends w' Hw') as [_ Hsuf]. apply Hsuf. exists (reverse k).
    by rewrite -{1}(reverse_involutive w') -reverse_app -Hk reverse_involutive.
  - rewrite length_app. lia.
Qed.

End strip_facts.

(** * Basic facts *)

Arguments Fun.for_each : simpl never.

Section basics.

Lemma height_lookup (m : gmap string Value) k v :
  m !! k = Some v → height v < height (Dict m).
Proof.
  intros Hk. simpl. apply Nat.lt_succ_r.
  rewrite map_fold_foldr. apply elem_of_map_to_list in Hk.
  induction (map_to_list m) as [|[k' v'] l IH]; first by apply elem_of_nil in Hk.
  apply elem_of_cons in Hk as [[= <- <-]|Hk]; simpl; [lia|].
  specialize (IH Hk). lia.
Qed.

Lemma Value_ind' (P : Value → Prop) :
  (∀ s, P (Str s)) →
  (∀ m, (∀ k v, m !! k = Some v → P v) → P (Dict m)) →
  ∀ v, P v.
Proof.
  intros Hs Hd v. remember (height v) as n eqn:Hn.
  revert v Hn. induction n as [n IH] using lt_wf_ind. intros [s|m] ->; first done.
  apply Hd. intros k v Hk. eapply IH; last done. by eapply height_lookup.
Qed.

Lemma for_each_nil {A S} (s : S) (body : S → A → res S) :
  Fun.for_each [] s body = Ok s.
Proof. done. Qed.

Lemma for_each_cons {A S} (x : A) (xs : list A) (s : S) body :
  Fun.for_each (x :: xs) s body = s' ← body s x; Fun.for_each xs s' body.
Proof. done. Qed.

Lemma for_each_app {A S} (xs ys : list A) (s : S) body :
  Fun.for_each (xs ++ ys) s body = s' ← Fun.for_each xs s body; Fun.for_each ys s' body.
Proof.
  revert s. induction xs as [|x xs IH]; intros s; first done.
  rewrite /= !for_each_cons. destruct (body s x) as [s'|e]; simpl; [apply IH|done].
Qed.

Lemma foldr_for_each {A S} (l : list A) (s : S) (body : S → A → res S) :
  foldr (λ x rest, s ← rest; body s x) (Ok s) l = Fun.for_each (reverse l) s body.
Proof.
  induction l as [|x l IH]; first done.
  rewrite reverse_cons for_each_app /= IH.
  destruct (Fun.for_each (reverse l) s body) as [s'|e]; last done.
  rewrite /= for_each_cons. by destruct (body s' x).
Qed.

End basics.

(** * Deep merge, value semantics *)

Section dict_update.
Import Fun.

Lemma dict_update_fold dict1 m2 :
  _dict_update dict1 (Dict m2) =
  map_fold (λ k v rest, dict1 ← rest; merge_item k v dict1) (Ok dict1) m2.
Proof. done. Qed.

#[local] Arguments _dict_update : simpl never.

Lemma dict_update_empty dict1 : _dict_update dict1 (Dict ∅) = Ok dict1.
Proof. by rewrite dict_update_fold map_fold_empty. Qed.

Lemma dict_update_insert dict1 m2 k v :
  m2 !! k = None → map_first_key (<[k := v]> m2) k →
  _dict_update dict1 (Dict (<[k := v]> m2)) =
  dict1 ← _dict_update dict1 (Dict m2); merge_item k v dict1.
Proof. intros. by rewrite !dict_update_fold map_fold_insert_first_key. Qed.

Lemma dict_update_for_each dict1 m2 :
  _dict_update dict1 (Dict m2) =
  for_each (items m2) dict1 (λ dict1 '(k, v), merge_item k v dict1).
Proof.
  rewrite dict_update_fold map_fold_foldr /items -foldr_for_each.
  induction (map_to_list m2) as [|[k v] l IH]; first done.
  simpl. by rewrite IH.
Qed.

Lemma dict_update_singleton dict1 k v :
  _dict_update dict1 (Dict {[ k := v ]}) = merge_item k v dict1.
Proof. by rewrite dict_update_fold map_fold_singleton. Qed.

(** A string in the place of [dict1] survives an empty [dict2] and makes every
    other merge fail. *)
Lemma dict_update_Str s m2 :
  _dict_update (Str s) (Dict m2) =
  match items m2 with
  | [] => Ok (Str s)
  | (_, Str _) :: _ => Raise TypeError
  | (_, Dict _) :: _ => Raise AttributeError
  end.
Proof.
  rewrite dict_update_for_each.
  by destruct (items m2) as [|[k [s'|m]] l].
Qed.

Lemma dict_update_Str_ok s m2 :
  is_ok (_dict_update (Str s) (Dict m2)) = bool_decide (m2 = ∅).
Proof.
  rewrite dict_update_Str /items.
  destruct (map_to_list m2) as [|kv l] eqn:Hl.
  - apply map_to_list_empty_iff in Hl as ->. by rewrite bool_decide_eq_true_2.
  - rewrite bool_decide_eq_false_2.
    + rewrite reverse_cons. by destruct (reverse l) as [|[k [?|?]] ?]; destruct kv as [? [?|?]].
    + intros ->. by rewrite map_to_list_empty in Hl.
Qed.

Lemma dict_update_Dict m1 m2 :
  match _dict_update (Dict m1) (Dict m2) with
  | Ok r => ∃ m, r = Dict m ∧ ∀ k, merged_entry m1 m2 k = Ok (m !! k)
  | Raise e => ∃ k, merged_entry m1 m2 k = Raise e
  end.
Proof.
  induction m2 as [|k v m2 Hk Hfirst IH] using map_first_key_ind.
  { rewrite dict_update_empty. exists m1. split; first done.
    intros k. by rewrite /merged_entry lookup_empty. }
  rewrite dict_update_insert //.
  destruct (_dict_update (Dict m1) (Dict m2)) as [r|e]; last first.
  { destruct IH as [k' Hk']. exists k'. revert Hk'. rewrite /merged_entry.
    destruct (decide (k = k')) as [<-|?]; first by rewrite Hk.
    by rewrite lookup_insert_ne. }
  destruct IH as (m & -> & Hm). simpl.
  assert (m !! k = m1 !! k) as Hmk.
  { specialize (Hm k). rewrite /merged_entry Hk in Hm. by injection Hm. }
  assert (∀ x k', k' ≠ k → merged_entry m1 (<[k:=x]> m2) k' = Ok (m !! k')) as Hother.
  { intros x k' ?. rewrite -Hm /merged_entry lookup_insert_ne //. }
  destruct v as [s|b]; simpl.
  - eexists; split; first done. intros k'.
    destruct (decide (k' = k)) as [->|?].
    + by rewrite /merged_entry !lookup_insert_eq.
    + by rewrite lookup_insert_ne // Hother.
  - rewrite Hmk.
    destruct (_dict_update (default (Dict ∅) (m1 !! k)) (Dict b)) as [r|e] eqn:Hr; simpl.
    + eexists; split; first done. intros k'.
      destruct (decide (k' = k)) as [->|?].
      * by rewrite /merged_entry !lookup_insert_eq Hr.
      * by rewrite lookup_insert_ne // Hother.
    + exists k. by rewrite /merged_entry lookup_insert_eq Hr.
Qed.

End dict_update.

Arguments Fun._dict_update : simpl never.

Section merge_facts.
Import Fun.

Lemma res_fmap_id {A} (r : res A) : id <$> r = r.
Proof. by destruct r. Qed.

Lemma res_fmap_compose {A B C} (f : A → B) (g : B → C) (r : res A) :
  g <$> (f <$> r) = (g ∘ f) <$> r.
Proof. by destruct r. Qed.

(** Merging into the empty dictionary copies [dict2]. *)
Lemma dict_update_copy v m : v = Dict m → _dict_update (Dict ∅) v = Ok v.
Proof.
  revert m. induction v as [s|m' IH] using Value_ind'; intros m [= ->].
  pose proof (dict_update_Dict ∅ m) as H.
  assert (∀ k, merged_entry ∅ m k = Ok (m !! k)) as Hentry.
  { intros k. rewrite /merged_entry lookup_empty /=.
    destruct (m !! k) as [[s|b]|] eqn:Hk; [done| |done].
    by rewrite (IH k _ Hk b). }
  destruct (_dict_update (Dict ∅) (Dict m)) as [r|e].
  - destruct H as (m' & -> & Hm'). do 2 f_equal. apply map_eq. intros k.
    specialize (Hm' k). rewrite Hentry in Hm'. by injection Hm'.
  - destruct H as [k Hk]. by rewrite Hentry in Hk.
Qed.

Lemma dict_update_disjoint m1 m2 :
  m1 ##ₘ m2 → _dict_update (Dict m1) (Dict m2) = Ok (Dict (m1 ∪ m2)).
Proof.
  intros Hdisj. pose proof (dict_update_Dict m1 m2) as H.
  assert (∀ k, merged_entry m1 m2 k = Ok ((m1 ∪ m2) !! k)) as Hentry.
  { intros k. rewrite /merged_entry.
    destruct (m2 !! k) as [x|] eqn:Hk.
    - rewrite (lookup_union_r m1 m2 k); last by eapply map_disjoint_Some_r.
      rewrite Hk. destruct x as [s|b]; first done.
      rewrite (map_disjoint_Some_r m1 m2 k (Dict b)) //=.
      by rewrite (dict_update_copy _ b).
    - by rewrite lookup_union_l. }
  destruct (_dict_update (Dict m1) (Dict m2)) as [r|e].
  - destruct H as (m' & -> & Hm'). do 2 f_equal. apply map_eq. intros k.
    specialize (Hm' k). rewrite Hentry in Hm'. by injection Hm'.
  - destruct H as [k Hk]. by rewrite Hentry in Hk.
Qed.

Lemma nest_app P Q v : nest (P ++ Q) v = nest P (nest Q v).
Proof. by rewrite /nest foldr_app. Qed.

Lemma nest_Dict P m : ∃ m', nest P (Dict m) = Dict m'.
Proof. destruct P; simpl; eauto. Qed.

Lemma lookup_path_nest P v : lookup_path P (nest P v) = Some v.
Proof. induction P as [|k P IH]; first done. by rewrite /= lookup_singleton_eq. Qed.

Lemma lookup_path_app P Q v :
  lookup_path (P ++ Q) v = lookup_path P v ≫= lookup_path Q.
Proof.
  revert v. induction P as [|k P IH]; intros v; first done.
  destruct v as [s|m]; first done. simpl.
  destruct (m !! k) as [x|]; simpl; [apply IH|done].
Qed.

(** Two dictionaries nested under the same path merge below that path. *)
Lemma dict_update_nest P a b :
  _dict_update (nest P (Dict a)) (nest P (Dict b)) = nest P <$> _dict_update (Dict a) (Dict b).
Proof.
  induction P as [|k P IH]; first by rewrite res_fmap_id.
  simpl. rewrite dict_update_singleton.
  destruct (nest_Dict P b) as [b' Hb]. rewrite /update_item Hb -Hb.
  rewrite /= lookup_singleton_eq /= IH.
  destruct (_dict_update (Dict a) (Dict b)) as [r|e]; last done.
  by rewrite /dict_setitem /= insert_singleton_eq.
Qed.

Lemma dict_update_nest_new P b :
  _dict_update (Dict ∅) (nest P (Dict b)) = Ok (nest P (Dict b)).
Proof. destruct (nest_Dict P b) as [b' Hb]. by eapply dict_update_copy. Qed.

Lemma mapM_as_key P : mapM as_key (Str <$> P) = Ok P.
Proof. induction P as [|k P IH]; first done. by rewrite /= IH. Qed.

Lemma dict_with_path_snoc P k v :
  _dict_with_path ((Str <$> P) ++ [Str k]) v = Ok (nest (P ++ [k]) v).
Proof.
  rewrite /_dict_with_path /list_pop last_snoc removelast_last /= mapM_as_key /=.
  by rewrite nest_app.
Qed.

Lemma copy_attributes_eq attrs : copy_attributes attrs = Ok (Dict (Str <$> attrs)).
Proof.
  rewrite /copy_attributes /items.
  rewrite -(list_to_map_to_list (Str <$> attrs)) map_to_list_fmap.
  rewrite -foldr_for_each.
  induction (map_to_list attrs) as [|[k v] l IH]; first done.
  by rewrite /= IH.
Qed.

End merge_facts.

(** * Rowset conversion, value semantics *)

Section rowset.
Import Fun.

(** A dictionary of strings laid over any dictionary: strings replace. *)
Lemma dict_update_strings (m : gmap string Value) (attrs : gmap string string) :
  _dict_update (Dict m) (row_value attrs) = Ok (Dict ((Str <$> attrs) ∪ m)).
Proof.
  pose proof (dict_update_Dict m (Str <$> attrs)) as H. rewrite /row_value.
  assert (∀ k, merged_entry m (Str <$> attrs) k = Ok (((Str <$> attrs) ∪ m) !! k)) as Hentry.
  { intros k. rewrite /merged_entry lookup_union lookup_fmap.
    destruct (attrs !! k) as [s|]; simpl; first by rewrite union_Some_l.
    by rewrite left_id_L. }
  destruct (_dict_update (Dict m) (Dict (Str <$> attrs))) as [r|e].
  - destruct H as (m' & -> & Hm'). do 2 f_equal. apply map_eq. intros k.
    specialize (Hm' k). rewrite Hentry in Hm'. by injection Hm'.
  - destruct H as [k Hk]. by rewrite Hentry in Hk.
Qed.

Lemma dict_update_rows X attrs :
  _dict_update (row_value X) (row_value attrs) = Ok (row_value (attrs ∪ X)).
Proof. by rewrite dict_update_strings /row_value map_fmap_union. Qed.

Lemma rowset_step_element P key o t attrs cs :
  rowset_step (Str <$> P) (Str key) (rows_acc P o) (Element t attrs cs) =
  match attrs !! key with
  | Some kv =>
      let G := default ∅ o in
      Ok (rows_acc P (Some (<[kv := attrs ∪ default ∅ (G !! kv)]> G)))
  | None => Raise (KeyError key)
  end.
Proof.
  rewrite /rowset_step copy_attributes_eq /= /dict_getitem /= lookup_fmap.
  destruct (attrs !! key) as [kv|]; last done.
  rewrite /= dict_with_path_snoc /= nest_app /=.
  destruct o as [G|]; simpl.
  - rewrite dict_update_nest dict_update_singleton /update_item /=.
    rewrite lookup_fmap.
    replace (default (Dict ∅) (row_value <$> G !! kv))
      with (row_value (default ∅ (G !! kv))).
    2:{ destruct (G !! kv); first done. by rewrite /row_value fmap_empty. }
    fold (row_value attrs). rewrite dict_update_rows /=.
    by rewrite fmap_insert.
  - rewrite dict_update_nest_new lookup_empty /= right_id_L.
    by rewrite fmap_insert fmap_empty.
Qed.

Lemma rowset_loop P key o cs :
  for_each cs (rows_acc P o) (rowset_step (Str <$> P) (Str key)) =
  rows_acc P <$> group_rows key o cs.
Proof.
  revert o. induction cs as [|c cs IH]; intros o; first done.
  rewrite for_each_cons.
  destruct c as [d|t attrs cs'|cs'|]; try apply IH.
  rewrite rowset_step_element /=.
  destruct (attrs !! key) as [kv|]; last done. exact (IH (Some _)).
Qed.

Lemma process_eveapi_rowset_eq element P key :
  _process_eveapi_rowset element (Str <$> P) (Str key) =
  rows_acc P <$> group_rows key None (childNodes element).
Proof. apply (rowset_loop P key None). Qed.

End rowset.

Section group_rows.

Lemma overlay_snoc rows attrs : overlay (rows ++ [attrs]) = attrs ∪ overlay rows.
Proof. by rewrite /overlay foldl_app. Qed.

Lemma overlay_lookup rows name :
  overlay rows !! name = last (omap (λ attrs : gmap string string, attrs !! name) rows).
Proof.
  induction rows as [|attrs rows IH] using rev_ind; first done.
  rewrite overlay_snoc lookup_union omap_app IH /=.
  destruct (attrs !! name) as [s|]; simpl.
  - by rewrite last_snoc union_Some_l.
  - by rewrite app_nil_r left_id_L.
Qed.

Lemma element_attrs_cons c cs :
  element_attrs (c :: cs) =
  match c with
  | Element _ attrs _ => attrs :: element_attrs cs
  | _ => element_attrs cs
  end.
Proof. by destruct c. Qed.

Lemma foldl_overlay acc rows :
  foldl (λ acc attrs : gmap string string, attrs ∪ acc) acc rows = overlay rows ∪ acc.
Proof.
  revert acc. induction rows as [|attrs rows IH] using rev_ind; intros acc.
  { by rewrite left_id_L. }
  by rewrite overlay_snoc foldl_app /= IH assoc_L.
Qed.

Lemma overlay_cons attrs rows : overlay (attrs :: rows) = overlay rows ∪ attrs.
Proof. by rewrite {1}/overlay /= foldl_overlay right_id_L. Qed.

(** With the key attribute on every row the grouping succeeds, and the group
    of [kv] is the overlay of the rows carrying [kv], in document order. *)
Lemma group_rows_ok key cs o :
  Forall (has_key key) cs →
  ∃ o', group_rows key o cs = Ok o' ∧
    (o' = None ↔ o = None ∧ element_attrs cs = []) ∧
    ∀ kv, default ∅ o' !! kv =
      match rows_with key kv (element_attrs cs) with
      | [] => default ∅ o !! kv
      | rows => Some (overlay rows ∪ default ∅ (default ∅ o !! kv))
      end.
Proof.
  intros Hcs. revert o. induction Hcs as [|c cs Hc Hcs IH]; intros o.
  { exists o. split; first done. split; last done. by split; [intros ->|intros [-> _]]. }
  rewrite element_attrs_cons.
  destruct c as [d|t attrs cs'|cs'|]; try apply IH.
  destruct Hc as [kv Hkv]. rewrite /= Hkv.
  destruct (IH (Some (<[kv:=attrs ∪ default ∅ (default ∅ o !! kv)]> (default ∅ o))))
    as (o' & -> & Hnone & Hlookup).
  exists o'. split; first done. split.
  { split; [intros H; by apply Hnone in H as [? _]|by intros [_ ?]]. }
  intros kv'. rewrite Hlookup /rows_with filter_cons /=.
  destruct (decide (kv = kv')) as [<-|Hne].
  - rewrite decide_True // lookup_insert_eq /=.
    rewrite overlay_cons.
    destruct (filter _ (element_attrs cs)) as [|r rs] eqn:Hf.
    + by rewrite /overlay /= left_id_L.
    + by rewrite assoc_L.
  - rewrite decide_False; last congruence.
    by rewrite lookup_insert_ne.
Qed.

End group_rows.

(** * Document conversion, value semantics *)

Section dom.
Import Fun.

Lemma node_ind' (Q : node → Prop) :
  (∀ d, Q (Text d)) →
  (∀ t attrs cs, Forall Q cs → Q (Element t attrs cs)) →
  (∀ cs, Forall Q cs → Q (Document cs)) →
  Q Other →
  ∀ n, Q n.
Proof.
  intros Ht He Hd Ho. fix IH 1. intros [d|t attrs cs|cs|]; [done| | |done].
  - apply He. induction cs as [|c cs IHcs]; constructor; [apply IH|done].
  - apply Hd. induction cs as [|c cs IHcs]; constructor; [apply IH|done].
Qed.

Lemma dict_update_Dict_Dict a b r :
  _dict_update (Dict a) (Dict b) = Ok r → ∃ m, r = Dict m.
Proof.
  intros H. pose proof (dict_update_Dict a b) as H'. rewrite H in H'.
  destruct H' as (m & -> & _). eauto.
Qed.

(** Merging one entry [k ↦ v] nested under [P] into the accumulator. *)
Lemma update_item_Dict k v m :
  merge_item k v (Dict m) =
  (λ r, Dict (<[k := r]> m)) <$>
    match v with
    | Dict _ => _dict_update (default (Dict ∅) (m !! k)) v
    | Str _ => Ok v
    end.
Proof.
  rewrite /update_item. destruct v as [s|b]; first done.
  simpl. by destruct (_dict_update _ _).
Qed.

Lemma dict_update_acc P o k v :
  _dict_update (dom_acc P o) (nest P (Dict {[ k := v ]})) =
  match o with
  | None => Ok (dom_acc P (Some {[ k := v ]}))
  | Some m =>
      (λ r, dom_acc P (Some (<[k := r]> m))) <$>
        match v with
        | Dict _ => _dict_update (default (Dict ∅) (m !! k)) v
        | Str _ => Ok v
        end
  end.
Proof.
  destruct o as [m|]; simpl.
  - rewrite dict_update_nest dict_update_singleton update_item_Dict.
    rewrite res_fmap_compose. reflexivity.
  - by rewrite dict_update_nest_new.
Qed.

Lemma dict_update_acc_ok P o k v r :
  acc_ok o → (k = "text" ∨ ∃ b, v = Dict b) →
  _dict_update (dom_acc P o) (nest P (Dict {[ k := v ]})) = Ok r →
  ∃ o', r = dom_acc P o' ∧ acc_ok o' ∧ ∃ m' x, o' = Some m' ∧ m' !! k = Some x ∧
    (∀ s, v = Str s → x = v).
Proof.
  intros Ho Hkv. rewrite dict_update_acc. destruct o as [m|].
  - destruct (match v with Dict _ => _ | Str _ => _ end) as [x|e] eqn:Hx; last done.
    intros [= <-]. exists (Some (<[k:=x]> m)). split; first done. split.
    + intros ? k' s [= <-]. destruct (decide (k' = k)) as [->|?].
      * rewrite lookup_insert_eq. intros [= ->].
        destruct Hkv as [->|[b ->]]; first done.
        destruct (m !! k) as [[s'|a]|] eqn:Hk; simpl in Hx.
        -- by eapply Ho.
        -- by apply dict_update_Dict_Dict in Hx as [??].
        -- by apply dict_update_Dict_Dict in Hx as [??].
      * rewrite lookup_insert_ne //. by eapply Ho.
    + exists (<[k:=x]> m), x. split; first done. rewrite lookup_insert_eq. split; first done.
      intros s ->. by injection Hx.
  - intros [= <-]. exists (Some {[k := v]}). split; first done. split.
    + intros ? k' s [= <-]. destruct (decide (k' = k)) as [->|?].
      * rewrite lookup_singleton_eq. intros [= ->]. by destruct Hkv as [->|[b ?]].
      * by rewrite lookup_singleton_ne.
    + exists {[k := v]}, v. by rewrite lookup_singleton_eq.
Qed.

End dom.

Section dom_steps.
Import Fun.

Lemma acc_ok_None : acc_ok None.
Proof. by intros m k s. Qed.

Lemma shape_empty P : shape P (Dict ∅).
Proof. exists None. split; [done|apply acc_ok_None]. Qed.

Lemma dom_acc_snoc P k o :
  dom_acc (P ++ [k]) o = Dict ∅ ∨ ∃ b, dom_acc (P ++ [k]) o = nest P (Dict {[ k := Dict b ]}).
Proof. destruct o as [m|]; [right|by left]. exists m. by rewrite /= nest_app. Qed.

(** Merging what a child produced: nothing, or one dictionary under [k]. *)
Lemma merge_shape P o k src r :
  acc_ok o →
  src = Dict ∅ ∨ (∃ b, src = nest P (Dict {[ k := Dict b ]})) →
  _dict_update (dom_acc P o) src = Ok r →
  shape P r.
Proof.
  intros Ho [->|[b ->]] Hr.
  - rewrite dict_update_empty in Hr. injection Hr as <-. by exists o.
  - apply dict_update_acc_ok in Hr as (o' & -> & Ho' & _); [by exists o'|done|eauto].
Qed.

(** The text step never fails. *)
Lemma text_merge P o s :
  acc_ok o →
  ∃ o', _dict_update (dom_acc P o) (nest P (Dict {[ "text" := Str s ]})) = Ok (dom_acc P o') ∧
        acc_ok o' ∧ lookup_path (P ++ ["text"]) (dom_acc P o') = Some (Str s).
Proof.
  intros Ho.
  destruct (_dict_update (dom_acc P o) (nest P (Dict {[ "text" := Str s ]}))) as [r|e] eqn:Hr.
  - apply dict_update_acc_ok in Hr as (o' & -> & Ho' & m' & x & -> & Hx & Hs); [|done|by left].
    exists (Some m'). split; first done. split; first done.
    by rewrite lookup_path_app /= lookup_path_nest /= Hx /= (Hs s).
  - rewrite dict_update_acc in Hr. by destruct o.
Qed.

(** Neither does the attributes step. *)
Lemma attributes_merge P o attrs :
  acc_ok o →
  ∃ o', _dict_update (dom_acc P o) (nest P (Dict {[ "attributes" := row_value attrs ]}))
          = Ok (dom_acc P o') ∧ acc_ok o'.
Proof.
  intros Ho.
  destruct (_dict_update (dom_acc P o) (nest P (Dict {[ "attributes" := row_value attrs ]})))
    as [r|e] eqn:Hr.
  - apply dict_update_acc_ok in Hr as (o' & -> & Ho' & _); [by exists o'|done|].
    right. by eexists.
  - rewrite dict_update_acc in Hr. destruct o as [m|]; last done.
    destruct (m !! "attributes") as [[s|a]|] eqn:Hm; simpl in Hr.
    + by specialize (Ho m _ _ eq_refl Hm).
    + by rewrite dict_update_strings in Hr.
    + by rewrite dict_update_strings in Hr.
Qed.

Lemma dom_step_text rec P result data :
  dom_step rec (Str <$> P) result (Text data) =
  if bool_decide (0 < String.length (strip data)) then
    _dict_update result (nest P (Dict {[ "text" := Str (strip data) ]}))
  else Ok result.
Proof.
  rewrite /dom_step. case_bool_decide; last done.
  by rewrite (dict_with_path_snoc P "text") /= nest_app.
Qed.

Lemma dom_step_element rec P result tagName attrs cs :
  dom_step rec (Str <$> P) result (Element tagName attrs cs) =
  result ← attributes_step P result attrs;
  content_step rec P result (Element tagName attrs cs).
Proof.
  rewrite /dom_step copy_attributes_eq /= /attributes_step.
  rewrite map_size_fmap (dict_with_path_snoc P "attributes") /= nest_app /=.
  assert (∀ result0,
    (if bool_decide (tagName = "rowset")
     then name ← dom_attr attrs "name";
          key ← dict_getitem (Dict (Str <$> attrs)) "key";
          d ← _process_eveapi_rowset (Element tagName attrs cs) ((Str <$> P) ++ [name]) key;
          _dict_update result0 d
     else d ← rec (Element tagName attrs cs) ((Str <$> P) ++ [Str tagName]);
          _dict_update result0 d) =
    content_step rec P result0 (Element tagName attrs cs)) as Hcontent.
  { intros result0. rewrite /content_step /dom_attr /dict_getitem /= lookup_fmap.
    case_bool_decide; last by rewrite fmap_app.
    destruct (attrs !! "name") as [name|]; last done.
    destruct (attrs !! "key") as [key|]; last done.
    simpl. change ((Str <$> P) ++ [Str name]) with ((Str <$> P) ++ (Str <$> [name])).
    by rewrite -fmap_app process_eveapi_rowset_eq. }
  assert (bool_decide (0 < size attrs) = negb (bool_decide (attrs = ∅))) as ->.
  { destruct (decide (attrs = ∅)) as [->|Hne]; first by rewrite map_size_empty.
    rewrite (bool_decide_eq_false_2 _ Hne) bool_decide_eq_true_2 //.
    apply map_size_non_empty_iff in Hne. lia. }
  destruct (bool_decide (attrs = ∅)); simpl; first apply Hcontent.
  destruct (_dict_update result _) as [r|e]; simpl; [apply Hcontent|done].
Qed.

End dom_steps.

Arguments Fun.dom_to_dict : simpl never.

Section dom_shape.
Import Fun.

Lemma dom_to_dict_children element path :
  dom_to_dict element path = for_each (childNodes element) (Dict ∅) (dom_step dom_to_dict path).
Proof. by destruct element. Qed.

Lemma dom_step_shape rec P o child r :
  acc_ok o →
  (∀ Q r, rec child (Str <$> Q) = Ok r → shape Q r) →
  dom_step rec (Str <$> P) (dom_acc P o) child = Ok r →
  shape P r.
Proof.
  intros Ho Hrec. destruct child as [data|tagName attrs cs|cs|].
  - rewrite dom_step_text. case_bool_decide.
    + destruct (text_merge P o (strip data) Ho) as (o' & -> & Ho' & _).
      intros [= <-]. by exists o'.
    + intros [= <-]. by exists o.
  - rewrite dom_step_element /attributes_step.
    assert (∃ o1, (if bool_decide (attrs = ∅) then Ok (dom_acc P o) else
        _dict_update (dom_acc P o) (nest P (Dict {["attributes" := row_value attrs]})))
        = Ok (dom_acc P o1) ∧ acc_ok o1) as (o1 & -> & Ho1).
    { case_bool_decide; first by exists o. by apply attributes_merge. }
    rewrite /= /content_step. case_bool_decide.
    + destruct (attrs !! "name") as [name|]; last done.
      destruct (attrs !! "key") as [key|]; last done.
      destruct (group_rows key None _) as [og|e]; last done. simpl.
      apply merge_shape with (k := name); first done.
      destruct og as [G|]; [right|by left]. eexists. by rewrite /= nest_app.
    + destruct (rec _ _) as [rc|e] eqn:Hrc; last done. simpl.
      apply Hrec in Hrc as (oc & -> & _).
      apply merge_shape with (k := tagName); [done|apply dom_acc_snoc].
  - intros [= <-]. by exists o.
  - intros [= <-]. by exists o.
Qed.

Lemma dom_loop_shape rec P o cs r :
  acc_ok o →
  Forall (λ c, ∀ Q r, rec c (Str <$> Q) = Ok r → shape Q r) cs →
  for_each cs (dom_acc P o) (dom_step rec (Str <$> P)) = Ok r →
  shape P r.
Proof.
  intros Ho Hcs. revert o Ho. induction Hcs as [|c cs Hc Hcs IH]; intros o Ho.
  { intros [= <-]. by exists o. }
  rewrite for_each_cons.
  destruct (dom_step _ _ _ c) as [r'|e] eqn:Hstep; last done.
  apply dom_step_shape in Hstep as (o' & -> & Ho'); [|done..].
  by apply IH.
Qed.

(** Everything [dom_to_dict] returns for the element at path [P] lies below
    [P]. *)
Lemma dom_to_dict_shape element P r :
  dom_to_dict element (Str <$> P) = Ok r → shape P r.
Proof.
  revert P r. induction element as [d|t attrs cs IH|cs IH|] using node_ind'; intros P r.
  all: rewrite dom_to_dict_children /=.
  1,4: intros [= <-]; apply shape_empty.
  all: by apply (dom_loop_shape _ P None); [apply acc_ok_None|].
Qed.

Lemma dom_loop_reachable P cs r :
  for_each cs (Dict ∅) (dom_step dom_to_dict (Str <$> P)) = Ok r → shape P r.
Proof.
  apply (dom_loop_shape _ P None); first apply acc_ok_None.
  apply Forall_forall. intros c _ Q r'. apply dom_to_dict_shape.
Qed.

(** A deep merge raises nothing but [TypeError] and [AttributeError]. *)
Lemma dict_update_raises dict2 dict1 e :
  _dict_update dict1 dict2 = Raise e → merge_exn e.
Proof.
  revert dict1 e. induction dict2 as [s|m2 IH] using Value_ind'; intros dict1 e.
  { intros [= <-]. by right. }
  destruct dict1 as [s|m1].
  - rewrite dict_update_Str. destruct (items m2) as [|[k [s'|b]] l]; intros [= <-]; by [left|right].
  - intros H. pose proof (dict_update_Dict m1 m2) as H'. rewrite H in H'.
    destruct H' as [k Hk]. rewrite /merged_entry in Hk.
    destruct (m2 !! k) as [[s|b]|] eqn:Hm2; [done| |done].
    destruct (_dict_update _ (Dict b)) as [r|e'] eqn:Hr; first done.
    injection Hk as <-. by eapply IH.
Qed.

Lemma forallb_has_key key cs : forallb (has_keyb key) cs → Forall (has_key key) cs.
Proof.
  intros H%Is_true_eq_true. rewrite forallb_forall in H. apply Forall_forall.
  intros c Hc%list_elem_of_In%H. destruct c; try done.
  by apply bool_decide_eq_true in Hc.
Qed.

Lemma dom_step_raises rec P result child e :
  match child with
  | Element tagName attrs cs =>
      if bool_decide (tagName = "rowset") then rowset_ok attrs cs
      else ∀ Q e, rec child (Str <$> Q) = Raise e → merge_exn e
  | _ => True
  end →
  dom_step rec (Str <$> P) result child = Raise e → merge_exn e.
Proof.
  intros Hchild. destruct child as [data|tagName attrs cs|cs|]; [| |done..].
  - rewrite dom_step_text. case_bool_decide; [apply dict_update_raises|done].
  - rewrite dom_step_element /attributes_step.
    destruct (if bool_decide (attrs = ∅) then _ else _) as [result1|e1] eqn:H1; last first.
    { intros [= <-]. destruct (bool_decide (attrs = ∅)); [done|by eapply dict_update_raises]. }
    rewrite /= /content_step. revert Hchild.
    destruct (bool_decide (tagName = "rowset")); intros Hchild.
    + rewrite /rowset_ok in Hchild.
      destruct (attrs !! "name") as [name|]; simpl in Hchild; last done.
      destruct (attrs !! "key") as [key|]; simpl in Hchild; last done.
      apply forallb_has_key in Hchild.
      destruct (group_rows_ok key cs None Hchild) as (og & -> & _).
      apply dict_update_raises.
    + destruct (rec _ _) as [rc|e'] eqn:Hrc; simpl.
      * apply dict_update_raises.
      * intros [= <-]. by eapply Hchild.
Qed.

Lemma dom_to_dict_raises element P e :
  well_formed element →
  dom_to_dict element (Str <$> P) = Raise e → merge_exn e.
Proof.
  revert P e. induction element as [d|t attrs cs IH|cs IH|] using node_ind'; intros P e Hwf.
  all: rewrite dom_to_dict_children /=; try done.
  all: simpl in Hwf; apply Is_true_eq_true in Hwf; rewrite forallb_forall in Hwf.
  all: generalize (Dict ∅); induction IH as [|c cs Hc _ IHcs]; intros result; first done.
  all: rewrite for_each_cons.
  all: destruct (dom_step _ _ _ c) as [r'|e'] eqn:Hstep; simpl.
  all: try (apply IHcs; intros c' Hc'; apply Hwf; by right).
  all: intros [= <-]; eapply dom_step_raises; last done.
  all: specialize (Hwf c (or_introl eq_refl)); destruct c as [|tagName attrs' cs'| |]; try done.
  all: case_bool_decide; first (by apply Is_true_eq_left).
  all: intros Q e; apply Hc; by apply Is_true_eq_left.
Qed.

End dom_shape.

(** * Lookup failures *)

Section lookup_failures.
Import Fun.
Context (RP : list string → bool).

Lemma for_each_fails {A S} (body : S → A → res S) xs x s :
  x ∈ xs → (∀ s, is_ok (body s x) = false) → is_ok (for_each xs s body) = false.
Proof.
  intros Hx Hbody. revert s.
  induction xs as [|y xs IH]; intros s; first by apply elem_of_nil in Hx.
  rewrite for_each_cons. apply elem_of_cons in Hx as [<-|Hx].
  - specialize (Hbody s). by destruct (body s x).
  - destruct (body s y); [by apply IH|done].
Qed.

Lemma dom_step_rowset_fails rec path result attrs cs :
  attrs !! "name" = None ∨ attrs !! "key" = None →
  is_ok (dom_step rec path result (Element "rowset" attrs cs)) = false.
Proof.
  intros Hattrs. rewrite /dom_step copy_attributes_eq /=.
  destruct (if bool_decide (0 < size (Str <$> attrs)) then _ else _) as [r|e]; last done.
  rewrite /= /dom_attr /dict_getitem /= lookup_fmap.
  destruct (attrs !! "name") as [name|]; last done.
  by destruct Hattrs as [?| ->].
Qed.

Lemma dom_step_child_fails rec path result tagName attrs cs :
  tagName ≠ "rowset" →
  (∀ path, is_ok (rec (Element tagName attrs cs) path) = false) →
  is_ok (dom_step rec path result (Element tagName attrs cs)) = false.
Proof.
  intros Ht Hrec. rewrite /dom_step copy_attributes_eq /=.
  destruct (if bool_decide (0 < size (Str <$> attrs)) then _ else _) as [r|e]; last done.
  rewrite /= (bool_decide_eq_false_2 (tagName = "rowset")) //.
  specialize (Hrec (path ++ [Str tagName])). by destruct (rec _ _).
Qed.

(** A visited rowset without [name] or [key] makes the conversion fail,
    however deep it lies. *)
Lemma visited_rowset_fails element path attrs cs :
  Element "rowset" attrs cs ∈ visited element →
  attrs !! "name" = None ∨ attrs !! "key" = None →
  is_ok (dom_to_dict element path) = false.
Proof.
  intros Hin Hattrs. revert path Hin.
  induction element as [d|t a cs' IH|cs' IH|] using node_ind'; intros path Hin.
  1,4: by apply elem_of_nil in Hin.
  all: rewrite dom_to_dict_children /=.
  all: simpl in Hin; apply list_elem_of_In, in_flat_map in Hin as (c & Hc & Hin).
  all: apply list_elem_of_In in Hc; apply list_elem_of_In in Hin.
  all: apply (for_each_fails _ _ c); first done; intros s.
  all: apply elem_of_cons in Hin as [<-|Hin]; first by apply dom_step_rowset_fails.
  all: destruct c as [d|t' a' cs''|cs''|]; try by apply elem_of_nil in Hin.
  all: case_bool_decide as Ht; first by apply elem_of_nil in Hin.
  all: apply dom_step_child_fails; first done; intros path'.
  all: rewrite Forall_forall in IH; by apply IH.
Qed.

Lemma lookup_failure_children n :
  lookup_failure n =
  foldr (λ c later,
           match child_failure lookup_failure c with
           | Some k => Some k
           | None => later
           end) None (childNodes n).
Proof. by destruct n. Qed.

Lemma keys_ok_children n P :
  keys_ok RP n P = forallb (child_keys_ok RP (keys_ok RP) P) (childNodes n).
Proof. by destruct n. Qed.

#[local] Arguments lookup_failure : simpl never.

#[local] Arguments keys_ok : simpl never.

Lemma first_failure_Some (f : node → option string) (cs : list node) c :
  c ∈ cs → is_Some (f c) →
  is_Some (foldr (λ c later, match f c with Some k => Some k | None => later end) None cs).
Proof.
  intros Hc Hf. induction cs as [|c' cs IH]; first by apply elem_of_nil in Hc.
  simpl. apply elem_of_cons in Hc as [<-|Hc].
  - destruct Hf as [k ->]. by eexists.
  - destruct (f c'); [by eexists|by apply IH].
Qed.

(** A visited rowset without [name] or [key] is a lookup failure, or comes
    after one. *)
Lemma visited_rowset_failure element attrs cs :
  Element "rowset" attrs cs ∈ visited element →
  attrs !! "name" = None ∨ attrs !! "key" = None →
  is_Some (lookup_failure element).
Proof.
  intros Hin Hattrs. revert Hin.
  induction element as [d|t a cs' IH|cs' IH|] using node_ind'; intros Hin.
  1,4: by apply elem_of_nil in Hin.
  all: rewrite lookup_failure_children /=.
  all: simpl in Hin; apply list_elem_of_In, in_flat_map in Hin as (c & Hc & Hin).
  all: apply list_elem_of_In in Hc; apply list_elem_of_In in Hin.
  all: apply (first_failure_Some _ _ c); first done.
  all: apply elem_of_cons in Hin as [<-|Hin].
  1,3: rewrite /= /rowset_failure; destruct (attrs !! "name"); last (by eexists);
       destruct Hattrs as [?| ->]; [done|by eexists].
  all: destruct c as [d|t' a' cs''|cs''|]; try by apply elem_of_nil in Hin.
  all: rewrite /child_failure; case_bool_decide as Ht; first by apply elem_of_nil in Hin.
  all: rewrite Forall_forall in IH; by apply IH.
Qed.

Lemma rowset_ok_failure attrs cs : rowset_ok attrs cs = true ↔ rowset_failure attrs cs = None.
Proof.
  rewrite /rowset_ok /rowset_failure.
  destruct (attrs !! "name"); last done. destruct (attrs !! "key"); last done.
  by destruct (forallb _ _).
Qed.

Lemma well_formed_failure n : well_formed n = true ↔ lookup_failure n = None.
Proof.
  induction n as [d|t a cs IH|cs IH|] using node_ind'; [done| | |done].
  all: rewrite lookup_failure_children /=; induction IH as [|c cs Hc _ IHcs]; first done.
  all: simpl; rewrite andb_true_iff IHcs.
  all: assert ((match c with
                | Element tagName attrs cs' =>
                    if bool_decide (tagName = "rowset") then rowset_ok attrs cs'
                    else well_formed c
                | _ => true
                end) = true ↔ child_failure lookup_failure c = None) as ->.
  1,3: destruct c as [d|t' a' cs'|cs'|]; try done; simpl;
       case_bool_decide; [apply rowset_ok_failure|apply Hc].
  all: destruct (child_failure lookup_failure c); [by split; [intros []|]|by split; [intros []|]].
Qed.

(** The rows of two rowsets stored at the same path merge into rows. *)
Lemma rows_merge (G1 G2 : gmap string (gmap string string)) :
  ∃ G : gmap string (gmap string string),
    _dict_update (Dict (row_value <$> G1)) (Dict (row_value <$> G2)) = Ok (Dict (row_value <$> G)).
Proof.
  exists (union_with (λ a2 a1, Some (a2 ∪ a1)) G2 G1).
  pose proof (dict_update_Dict (row_value <$> G1) (row_value <$> G2)) as H.
  assert (∀ k, merged_entry (row_value <$> G1) (row_value <$> G2) k =
               Ok ((row_value <$> union_with (λ a2 a1, Some (a2 ∪ a1)) G2 G1) !! k)) as Hentry.
  { intros k. rewrite /merged_entry !lookup_fmap lookup_union_with.
    destruct (G2 !! k) as [a2|]; simpl; last by destruct (G1 !! k).
    fold (row_value a2). destruct (G1 !! k) as [a1|]; simpl.
    - by rewrite dict_update_rows.
    - by rewrite dict_update_strings right_id_L. }
  destruct (_dict_update _ _) as [r|e].
  - destruct H as (m' & -> & Hm'). do 2 f_equal. apply map_eq. intros k.
    specialize (Hm' k). rewrite Hentry in Hm'. by injection Hm'.
  - destruct H as [k Hk]. by rewrite Hentry in Hk.
Qed.

Lemma fits_empty Q : fits RP Q (Dict ∅).
Proof. constructor. intros k v. by rewrite lookup_empty. Qed.

(** Two dictionaries whose keys are of their own kind merge, and the merged
    dictionary is one of them again. *)
Lemma fits_merge Q a b : fits RP Q a → fits RP Q b → ∃ r, _dict_update a b = Ok r ∧ fits RP Q r.
Proof.
  revert Q a. induction b as [s|m2 IH] using Value_ind'; intros Q a Ha Hb; first by inversion Hb.
  inversion Ha as [Q1 m1 H1]; subst. inversion Hb as [Q2 m2' H2]; subst.
  assert (∀ k, ∃ x, merged_entry m1 m2 k = Ok x ∧
            ∀ v, x = Some v → fits RP Q (Dict {[ k := v ]})) as Hentry.
  { intros k.
    assert (∀ v, (k = "text" ∧ (∃ s, v = Str s)) ∨
                 (k = "attributes" ∧ (∃ attrs, v = row_value attrs)) ∨
                 (reserved k = false ∧ RP (Q ++ [k]) = true ∧
                    ∃ G : gmap string (gmap string string), v = Dict (row_value <$> G)) ∨
                 (reserved k = false ∧ RP (Q ++ [k]) = false ∧ fits RP (Q ++ [k]) v) →
               fits RP Q (Dict {[ k := v ]})) as Hone.
    { intros v Hv. constructor. intros k' v' [<- <-]%lookup_singleton_Some. exact Hv. }
    rewrite /merged_entry. destruct (m2 !! k) as [[s|b]|] eqn:H2k.
    - eexists. split; first done. intros v [= <-]. apply Hone. by apply H2.
    - destruct (H2 k _ H2k) as [[_ [s [=]]]|[[-> [a2 Hb2]]|[(Hres & Hrp & G2 & Hb2)|(Hres & Hrp & Hfit)]]].
      + rewrite Hb2. destruct (m1 !! "attributes") as [v1|] eqn:H1k; simpl.
        * destruct (H1 _ _ H1k) as [[[=] _]|[[_ [a1 ->]]|[([=] & _)|([=] & _)]]].
          rewrite dict_update_rows. eexists. split; first done.
          intros v [= <-]. apply Hone. right. left. eauto.
        * rewrite dict_update_strings right_id_L. eexists. split; first done.
          intros v [= <-]. apply Hone. right. left. split; first done. by exists a2.
      + injection Hb2 as ->. destruct (m1 !! k) as [v1|] eqn:H1k; simpl.
        * destruct (H1 _ _ H1k) as [[-> _]|[[-> _]|[(_ & _ & G1 & ->)|(_ & Hrp' & _)]]];
            [done|done| |congruence].
          destruct (rows_merge G1 G2) as [G ->]. eexists. split; first done.
          intros v [= <-]. apply Hone. right. right. left. eauto.
        * destruct (rows_merge ∅ G2) as [G HG]. rewrite fmap_empty in HG. rewrite HG.
          eexists. split; first done.
          intros v [= <-]. apply Hone. right. right. left. eauto.
      + destruct (m1 !! k) as [v1|] eqn:H1k; simpl.
        * destruct (H1 _ _ H1k) as [[-> _]|[[-> _]|[(_ & Hrp' & _)|(_ & _ & Hfit1)]]];
            [done|done|congruence|].
          destruct (IH k _ H2k (Q ++ [k]) v1 Hfit1 Hfit) as (r & -> & Hr).
          eexists. split; first done.
          intros v [= <-]. apply Hone. do 3 right. eauto.
        * destruct (IH k _ H2k (Q ++ [k]) (Dict ∅) (fits_empty _) Hfit) as (r & -> & Hr).
          eexists. split; first done.
          intros v [= <-]. apply Hone. do 3 right. eauto.
    - eexists. split; first done. intros v Hv. apply Hone. by eapply H1. }
  pose proof (dict_update_Dict m1 m2) as H.
  destruct (_dict_update (Dict m1) (Dict m2)) as [r|e].
  - destruct H as (m & -> & Hm). eexists. split; first done. constructor.
    intros k v Hk. destruct (Hentry k) as (x & Hx & Hfit). rewrite Hm in Hx.
    injection Hx as <-. specialize (Hfit v Hk). inversion Hfit as [? ? Hfit']; subst.
    apply Hfit'. by rewrite lookup_singleton_eq.
  - destruct H as [k Hk]. destruct (Hentry k) as (x & Hx & _). by rewrite Hx in Hk.
Qed.

(** Merging a fragment built below the path [P] into what the loop has
    accumulated below [P]. *)
Lemma merge_fragment P o b :
  fits_acc RP P o → fits RP P (Dict b) →
  ∃ m, _dict_update (dom_acc P o) (nest P (Dict b)) = Ok (dom_acc P (Some m)) ∧
       fits RP P (Dict m).
Proof.
  intros Ho Hb. destruct o as [m|]; simpl.
  - rewrite dict_update_nest.
    destruct (fits_merge P (Dict m) (Dict b) Ho Hb) as (r & -> & Hr).
    inversion Hr; subst. by eexists.
  - rewrite dict_update_nest_new. by exists b.
Qed.

Lemma fits_singleton P k v :
  (k = "text" ∧ (∃ s, v = Str s)) ∨
  (k = "attributes" ∧ (∃ attrs, v = row_value attrs)) ∨
  (reserved k = false ∧ RP (P ++ [k]) = true ∧
     ∃ G : gmap string (gmap string string), v = Dict (row_value <$> G)) ∨
  (reserved k = false ∧ RP (P ++ [k]) = false ∧ fits RP (P ++ [k]) v) →
  fits RP P (Dict {[ k := v ]}).
Proof. intros Hv. constructor. intros k' v' [<- <-]%lookup_singleton_Some. exact Hv. Qed.

(** Merging what the conversion of a child, or of a rowset, returned at the
    path [P ++ [k]]. *)
Lemma merge_child P o k o' :
  fits_acc RP P o →
  (∀ m, o' = Some m → fits RP P (Dict {[ k := Dict m ]})) →
  ∃ o'', _dict_update (dom_acc P o) (dom_acc (P ++ [k]) o') = Ok (dom_acc P o'') ∧
         fits_acc RP P o''.
Proof.
  intros Ho Ho'. destruct o' as [m|]; simpl.
  - rewrite nest_app /=. destruct (merge_fragment P o _ Ho (Ho' m eq_refl)) as (m' & -> & Hm').
    by exists (Some m').
  - rewrite dict_update_empty. by exists o.
Qed.

Lemma group_rows_failure key o cs :
  match group_rows key o cs with
  | Ok _ => forallb (has_keyb key) cs = true
  | Raise e => e = KeyError key ∧ forallb (has_keyb key) cs = false
  end.
Proof.
  revert o. induction cs as [|c cs IH]; intros o; first done.
  destruct c as [d|t attrs cs'|cs'|]; simpl; try apply IH.
  destruct (attrs !! key) as [kv|] eqn:Hkv.
  - rewrite bool_decide_eq_true_2 //=. apply IH.
  - rewrite bool_decide_eq_false_2; first done. by intros [? [=]].
Qed.

(** One round of the loop of [dom_to_dict], the keys being of their own kind. *)
Lemma dom_step_converts P o c :
  fits_acc RP P o →
  child_keys_ok RP (keys_ok RP) P c = true →
  (∀ Q, keys_ok RP c Q = true → converts RP c Q) →
  match child_failure lookup_failure c with
  | Some k => dom_step dom_to_dict (Str <$> P) (dom_acc P o) c = Raise (KeyError k)
  | None => ∃ o', dom_step dom_to_dict (Str <$> P) (dom_acc P o) c = Ok (dom_acc P o') ∧
                  fits_acc RP P o'
  end.
Proof.
  intros Ho Hkeys Hrec. destruct c as [data|tagName attrs cs|cs|]; rewrite /child_failure.
  - rewrite dom_step_text. case_bool_decide; last by exists o.
    destruct (merge_fragment P o {[ "text" := Str (strip data) ]} Ho) as (m & -> & Hm).
    { apply fits_singleton. left. eauto. }
    by exists (Some m).
  - rewrite dom_step_element /attributes_step.
    assert (∃ o1, (if bool_decide (attrs = ∅) then Ok (dom_acc P o) else
        _dict_update (dom_acc P o) (nest P (Dict {["attributes" := row_value attrs]})))
        = Ok (dom_acc P o1) ∧ fits_acc RP P o1) as (o1 & -> & Ho1).
    { case_bool_decide; first by exists o.
      destruct (merge_fragment P o {[ "attributes" := row_value attrs ]} Ho) as (m & -> & Hm).
      { apply fits_singleton. right. left. eauto. }
      by exists (Some m). }
    rewrite /= /content_step /rowset_failure. rewrite /child_keys_ok in Hkeys. revert Hkeys.
    case_bool_decide as Htag; intros Hkeys.
    + destruct (attrs !! "name") as [name|]; last done.
      destruct (attrs !! "key") as [key|]; last done.
      apply andb_true_iff in Hkeys as [Hres%negb_true_iff Hrp]. simpl.
      pose proof (group_rows_failure key None cs) as Hrows.
      destruct (group_rows key None cs) as [og|e]; simpl.
      * rewrite Hrows.
        replace (rows_acc (P ++ [name]) og)
          with (dom_acc (P ++ [name]) (fmap (M:=gmap string) row_value <$> og))
          by (by destruct og).
        apply merge_child; first done.
        intros m Hm. apply fits_singleton. right. right. left.
        destruct og as [G|]; last done. injection Hm as <-. eauto.
      * destruct Hrows as [-> ->]. done.
    + apply andb_true_iff in Hkeys as [[Hres%negb_true_iff Hrp%negb_true_iff]%andb_true_iff Hsub].
      specialize (Hrec _ Hsub). rewrite /converts in Hrec.
      destruct (lookup_failure (Element tagName attrs cs)) as [k|].
      * by rewrite Hrec.
      * destruct Hrec as (o' & -> & Ho'). simpl. apply merge_child; first done.
        intros m ->. apply fits_singleton. do 3 right. eauto.
  - by exists o.
  - by exists o.
Qed.

Lemma dom_loop_converts P o cs :
  fits_acc RP P o →
  forallb (child_keys_ok RP (keys_ok RP) P) cs = true →
  Forall (λ c, ∀ Q, keys_ok RP c Q = true → converts RP c Q) cs →
  match foldr (λ c later,
                 match child_failure lookup_failure c with
                 | Some k => Some k
                 | None => later
                 end) None cs with
  | Some k => for_each cs (dom_acc P o) (dom_step dom_to_dict (Str <$> P)) = Raise (KeyError k)
  | None => ∃ o', for_each cs (dom_acc P o) (dom_step dom_to_dict (Str <$> P)) = Ok (dom_acc P o') ∧
                  fits_acc RP P o'
  end.
Proof.
  intros Ho Hkeys Hcs. revert o Ho. induction Hcs as [|c cs Hc Hcs IH]; intros o Ho.
  { by exists o. }
  simpl in Hkeys. apply andb_true_iff in Hkeys as [Hkc Hkcs].
  rewrite for_each_cons /=.
  pose proof (dom_step_converts P o c Ho Hkc Hc) as Hstep.
  destruct (child_failure lookup_failure c) as [k|].
  - by rewrite Hstep.
  - destruct Hstep as (o' & -> & Ho'). simpl. by apply IH.
Qed.

(** With keys of their own kind, the conversion raises the first lookup
    failure, and returns when there is none. *)
Lemma dom_to_dict_converts element P : keys_ok RP element P = true → converts RP element P.
Proof.
  revert P. induction element as [d|t a cs IH|cs IH|] using node_ind'; intros P Hkeys.
  1,4: by exists None.
  all: rewrite keys_ok_children in Hkeys.
  all: rewrite /converts lookup_failure_children dom_to_dict_children /=.
  all: by apply (dom_loop_converts P None).
Qed.

End lookup_failures.

(** * Depth of the merged dictionaries *)

Section heights.
Import Fun.
Local Open Scope nat_scope.

Lemma height_Dict_pos m : 0 < height (Dict m).
Proof. simpl. lia. Qed.

Lemma height_Dict_le (m : gmap string Value) n :
  0 < n → (∀ k v, m !! k = Some v → height v < n) → height (Dict m) ≤ n.
Proof.
  intros Hn Hm. simpl. apply Nat.le_succ_l.
  induction m as [|k v m Hk Hfirst IH] using map_first_key_ind.
  { by rewrite map_fold_empty. }
  rewrite map_fold_insert_first_key //.
  apply Nat.max_lub_lt.
  - apply (Hm k). by rewrite lookup_insert_eq.
  - apply IH. intros k' v' Hk'. apply (Hm k'). rewrite lookup_insert_ne //. by intros <-; rewrite Hk in Hk'.
Qed.

Lemma height_empty : height (Dict ∅) = 1.
Proof. by rewrite /= map_fold_empty. Qed.

Lemma height_singleton k v : height (Dict {[ k := v ]}) = S (height v).
Proof. rewrite /= map_fold_singleton. lia. Qed.

Lemma height_nest P v : height (nest P v) = List.length P + height v.
Proof.
  induction P as [|k P IH]; first done.
  rewrite /= map_fold_singleton -/(nest P v) IH. lia.
Qed.

Lemma height_row_value attrs : height (row_value attrs) ≤ 1.
Proof.
  apply height_Dict_le; first lia.
  intros k v. rewrite lookup_fmap. intros (s & _ & ->)%fmap_Some. simpl. lia.
Qed.

#[local] Arguments height : simpl never.

(** Merging does not deepen a dictionary beyond its two arguments. *)
Lemma dict_update_height t2 t1 t :
  _dict_update t1 t2 = Ok t → height t ≤ height t1 `max` height t2.
Proof.
  revert t1 t. induction t2 as [s|m2 IH] using Value_ind'; intros t1 t; first done.
  destruct t1 as [s|m1].
  { rewrite dict_update_Str. destruct (items m2) as [|[k [s'|b]] l]; [|done..].
    intros [= <-]. lia. }
  pose proof (dict_update_Dict m1 m2) as H. intros Ht. rewrite Ht in H.
  destruct H as (m & -> & Hm).
  pose proof (height_Dict_pos m1). pose proof (height_Dict_pos m2).
  apply height_Dict_le; first lia.
  intros k v Hk. specialize (Hm k). rewrite Hk /merged_entry in Hm.
  destruct (m2 !! k) as [[s|b]|] eqn:H2.
  - injection Hm as <-. change (height (Str s)) with 0. lia.
  - destruct (_dict_update _ (Dict b)) as [r|e] eqn:Hr; last done.
    injection Hm as ->. apply (IH k _ H2) in Hr.
    apply height_lookup in H2. pose proof (height_Dict_pos b).
    destruct (m1 !! k) as [x|] eqn:Hx.
    + apply height_lookup in Hx. change (default _ (Some x)) with x in Hr. lia.
    + change (default _ None) with (Dict ∅) in Hr. rewrite height_empty in Hr. lia.
  - injection Hm as Hm. apply height_lookup in Hm. lia.
Qed.

Lemma for_each_height {A} (xs : list A) (body : Value → A → res Value) n t0 t :
  (∀ t x t', body t x = Ok t' → height t ≤ n → height t' ≤ n) →
  for_each xs t0 body = Ok t → height t0 ≤ n → height t ≤ n.
Proof.
  intros Hbody. revert t0. induction xs as [|x xs IH]; intros t0.
  { by intros [= <-]. }
  rewrite for_each_cons. destruct (body t0 x) as [t'|e] eqn:Hx; last done.
  simpl. intros Ht Ht0. eapply IH; first done. by eapply Hbody.
Qed.

Lemma rowset_step_height P key result child r :
  rowset_step (Str <$> P) key result child = Ok r →
  height result ≤ List.length P + 2 → height r ≤ List.length P + 2.
Proof.
  destruct child as [d|tag attrs cs|cs|]; try by intros [= <-].
  rewrite /rowset_step copy_attributes_eq /=.
  destruct key as [key|?]; last done.
  rewrite /= /dict_getitem /= lookup_fmap.
  destruct (attrs !! key) as [kv|]; last done.
  rewrite /= dict_with_path_snoc /=.
  intros Hr%dict_update_height Hresult.
  rewrite height_nest length_app /= in Hr.
  pose proof (height_row_value attrs). rewrite /row_value in H. lia.
Qed.

Lemma process_eveapi_rowset_height element P key r :
  _process_eveapi_rowset element (Str <$> P) key = Ok r → height r ≤ List.length P + 2.
Proof.
  intros Hr. eapply for_each_height; [|exact Hr|rewrite height_empty; lia].
  intros t x t' Hx. by eapply rowset_step_height.
Qed.

Lemma dom_step_height rec P result child r n :
  (∀ Q t, rec child (Str <$> Q) = Ok t → height t ≤ List.length Q + depth child + 3) →
  depth child < n →
  dom_step rec (Str <$> P) result child = Ok r →
  height result ≤ List.length P + n + 3 → height r ≤ List.length P + n + 3.
Proof.
  intros Hrec Hn. destruct child as [data|tag attrs cs|cs|]; try by intros [= <-].
  - rewrite dom_step_text. case_bool_decide; last by intros [= <-].
    intros Hr%dict_update_height. rewrite height_nest height_singleton in Hr.
    change (height (Str _)) with 0 in Hr. lia.
  - rewrite dom_step_element /attributes_step.
    destruct (match bool_decide (attrs = ∅) with true => _ | false => _ end) as [r1|e] eqn:H1;
      last done.
    assert (height result ≤ List.length P + n + 3 → height r1 ≤ List.length P + n + 3) as Hr1.
    { revert H1. case_bool_decide; first by intros [= <-].
      intros Hr%dict_update_height.
      pose proof (height_row_value attrs).
      rewrite height_nest height_singleton in Hr. lia. }
    rewrite /= /content_step. destruct (bool_decide (tag = "rowset")).
    + destruct (attrs !! "name") as [name|]; last done.
      destruct (attrs !! "key") as [key|]; last done.
      rewrite -(process_eveapi_rowset_eq (Element tag attrs cs)).
      destruct (_process_eveapi_rowset _ _ _) as [d|e] eqn:Hd; last done.
      apply process_eveapi_rowset_height in Hd. rewrite length_app /= in Hd.
      simpl. intros Hr%dict_update_height. lia.
    + destruct (rec _ _) as [d|e] eqn:Hd; last done.
      apply Hrec in Hd. rewrite length_app /= in Hd.
      simpl. intros Hr%dict_update_height. simpl in Hn. lia.
Qed.

Lemma depth_children element c :
  c ∈ childNodes element → depth c < depth element.
Proof.
  destruct element as [d|tag attrs cs|cs|]; simpl; try by intros ?%elem_of_nil.
  all: intros Hc; apply Nat.lt_succ_r.
  all: induction cs as [|c' cs IH]; first (by apply elem_of_nil in Hc).
  all: apply elem_of_cons in Hc as [->|Hc]; simpl; [lia|]; specialize (IH Hc); lia.
Qed.

Lemma dom_loop_height rec P cs n t0 t :
  Forall (λ c, ∀ Q t, rec c (Str <$> Q) = Ok t → height t ≤ List.length Q + depth c + 3) cs →
  Forall (λ c, depth c < n) cs →
  for_each cs t0 (dom_step rec (Str <$> P)) = Ok t →
  height t0 ≤ List.length P + n + 3 → height t ≤ List.length P + n + 3.
Proof.
  intros Hrec Hn. revert t0. induction Hrec as [|c cs Hc Hcs IH]; intros t0.
  { by intros [= <-]. }
  apply Forall_cons in Hn as [Hn Hns].
  rewrite for_each_cons. destruct (dom_step _ _ _ c) as [t'|e] eqn:Hstep; last done.
  simpl. intros Ht Ht0. eapply IH; [done..|]. by eapply dom_step_height.
Qed.

Lemma dom_to_dict_height element P t :
  dom_to_dict element (Str <$> P) = Ok t → height t ≤ List.length P + depth element + 3.
Proof.
  revert P t. induction element as [d|tag attrs cs IH|cs IH|] using node_ind'; intros P t.
  all: rewrite dom_to_dict_children.
  1,4: intros [= <-]; rewrite height_empty; lia.
  all: intros Ht; eapply dom_loop_height; [exact IH| |exact Ht|rewrite height_empty; lia].
  all: apply Forall_forall; intros c Hc; by apply depth_children.
Qed.

End heights.

(** * Properties of the computed dictionaries *)

Section claims.
Import Fun.

(** C1, as stated, fails: converting the ServerStatus document from the
    document node with the empty path does not give the dictionary that holds
    the root element's attributes inside the "eveapi" entry. *)
Lemma C1_counterexample : dom_to_dict server_status [] ≠ Ok server_status_nested.
Proof.
  intros H.
  apply (f_equal (λ r, match r with Ok v => lookup_path ["attributes"] v | Raise _ => None end)) in H.
  vm_compute in H. discriminate H.
Qed.

(** C1, amended: the conversion gives
    {attributes: {version: "2"}, eveapi: {currentTime: .., result: .., cachedUntil: ..}};
    the attributes of an element are stored under "attributes" at the path of
    its parent, so those of the root element lie beside "eveapi". *)
Theorem C1_server_status : dom_to_dict server_status [] = Ok server_status_flat.
Proof. vm_compute. reflexivity. Qed.

(** C2: when [dict1] holds a string at [k] and [dict2] a non-empty dictionary
    at [k], the merge does not replace the string: it raises [TypeError] or
    [AttributeError] and returns nothing. *)
Theorem C2_string_meets_dict (m1 m2 : gmap string Value) k s b :
  m1 !! k = Some (Str s) → m2 !! k = Some (Dict b) → b ≠ ∅ →
  ∃ e, _dict_update (Dict m1) (Dict m2) = Raise e ∧ merge_exn e.
Proof.
  intros H1 H2 Hb. pose proof (dict_update_Dict m1 m2) as H.
  destruct (_dict_update (Dict m1) (Dict m2)) as [r|e] eqn:Hr.
  - destruct H as (m & _ & Hm). specialize (Hm k).
    rewrite /merged_entry H1 H2 /= in Hm.
    pose proof (dict_update_Str_ok s b) as Hok.
    rewrite bool_decide_eq_false_2 // in Hok.
    by destruct (_dict_update (Str s) (Dict b)).
  - exists e. split; first done. by eapply dict_update_raises.
Qed.

Lemma C2_string_meets_dict_witness :
  _dict_update (Dict {[ "a" := Str "x" ]}) (Dict {[ "a" := Dict {[ "b" := Str "1" ]} ]})
    = Raise TypeError ∧
  ∃ e, _dict_update (Dict {[ "a" := Str "x" ]}) (Dict {[ "a" := Dict {[ "b" := Str "1" ]} ]})
    = Raise e ∧ merge_exn e.
Proof.
  split; first by vm_compute.
  apply (C2_string_meets_dict _ _ "a" "x" {[ "b" := Str "1" ]}); [by vm_compute..|].
  intros H. by apply (f_equal (λ m, m !! "b")) in H.
Defined.

(** C3, as stated, fails: the third row does not replace the first at the key
    "1"; the attribute [a], carried by the first row only, is still there. *)
Lemma C3_counterexample :
  ∃ r, _process_eveapi_rowset rowset_dup [] (Str "id") = Ok r ∧
    lookup_path ["1"] r = Some (row_value {[ "id" := "1"; "a" := "x"; "b" := "y" ]}) ∧
    lookup_path ["1"] r ≠ Some (row_value {[ "id" := "1"; "b" := "y" ]}) ∧
    lookup_path ["1"; "a"] r = Some (Str "x").
Proof.
  eexists. split; first by vm_compute.
  split; first by vm_compute. split; last by vm_compute.
  intros H. apply (f_equal (λ o, o ≫= lookup_path ["a"])) in H.
  vm_compute in H. discriminate H.
Qed.

(** C3, amended: when every element child of the rowset carries the key
    attribute, the entry at a key value is the field-by-field overlay of all
    the rows with that key value, in document order: an attribute holds the
    value of the last such row that carries it, and an attribute carried only
    by an earlier row is kept. *)
Theorem C3_rows_overlay tagName attrs cs (P : list string) key kv :
  Forall (has_key key) cs →
  rows_with key kv (element_attrs cs) ≠ [] →
  ∃ r, _process_eveapi_rowset (Element tagName attrs cs) (Str <$> P) (Str key) = Ok r ∧
    lookup_path (P ++ [kv]) r = Some (row_value (overlay (rows_with key kv (element_attrs cs)))) ∧
    ∀ name, overlay (rows_with key kv (element_attrs cs)) !! name =
            last (omap (λ row : gmap string string, row !! name)
                       (rows_with key kv (element_attrs cs))).
Proof.
  intros Hcs Hrows. rewrite process_eveapi_rowset_eq /=.
  destruct (group_rows_ok key cs None Hcs) as (o & -> & Hnone & Hlookup).
  eexists. split; first done. split; last by intros; apply overlay_lookup.
  specialize (Hlookup kv).
  destruct (rows_with key kv (element_attrs cs)) as [|row rows] eqn:Hrs; first done.
  destruct o as [G|]; last first.
  { destruct Hnone as [Hnone _]. destruct (Hnone eq_refl) as [_ Hnil].
    by rewrite /rows_with Hnil in Hrs. }
  rewrite /= lookup_path_app lookup_path_nest /= lookup_fmap.
  simpl in Hlookup. by rewrite Hlookup /= lookup_empty /= right_id_L.
Qed.

Lemma C3_rows_overlay_witness :
  ∃ r, _process_eveapi_rowset rowset_dup (Str <$> ["result"; "rows"]) (Str "id") = Ok r ∧
    lookup_path (["result"; "rows"] ++ ["1"]) r =
      Some (row_value (overlay (rows_with "id" "1" (element_attrs (childNodes rowset_dup))))) ∧
    ∀ name, overlay (rows_with "id" "1" (element_attrs (childNodes rowset_dup))) !! name =
            last (omap (λ row : gmap string string, row !! name)
                       (rows_with "id" "1" (element_attrs (childNodes rowset_dup)))).
Proof.
  apply (C3_rows_overlay "rowset" _ (childNodes rowset_dup) ["result"; "rows"] "id" "1").
  - repeat constructor; by eexists.
  - by vm_compute.
Defined.



(** C5: for a non-empty path of keys [P], [_dict_with_path] returns the chain
    {k1: {k2: {.. {kn: v}}}}: following [P] through it gives [v], and its only
    key is the first key of [P]; on the empty path [path.pop()] raises
    [IndexError]. *)
Theorem C5_dict_with_path :
  (∀ (P : list string) (v : Value), P ≠ [] →
     ∃ m, _dict_with_path (Str <$> P) v = Ok (Dict m) ∧
       Dict m = nest P v ∧
       lookup_path P (Dict m) = Some v ∧
       dom m = {[ default "" (head P) ]}) ∧
  (∀ v, _dict_with_path [] v = Raise IndexError).
Proof.
  split; last done. intros P v HP.
  destruct P as [|k P] using rev_ind; first done. clear IHP HP.
  rewrite fmap_app dict_with_path_snoc.
  destruct P as [|k' P]; simpl.
  - exists {[ k := v ]}. by rewrite lookup_singleton_eq dom_singleton_L.
  - eexists. split; first done. split; first done.
    by rewrite lookup_singleton_eq /= lookup_path_nest dom_singleton_L.
Qed.

Lemma C5_dict_with_path_witness :
  ∃ m, _dict_with_path (Str <$> ["one"; "two"; "three"; "four"]) (Str "five") = Ok (Dict m) ∧
    Dict m = nest ["one"; "two"; "three"; "four"] (Str "five") ∧
    lookup_path ["one"; "two"; "three"; "four"] (Dict m) = Some (Str "five") ∧
    dom m = {[ "one" ]}.
Proof.
  destruct C5_dict_with_path as [H _].
  apply (H ["one"; "two"; "three"; "four"] (Str "five")). discriminate.
Defined.

Lemma filter_none {A} (Q : A → Prop) `{∀ x, Decision (Q x)} (l : list A) :
  (∀ x, x ∈ l → ¬ Q x) → filter Q l = [].
Proof.
  induction l as [|x l IH]; intros Hl; first done.
  rewrite filter_cons decide_False; last (apply Hl; by left).
  apply IH. intros y Hy. apply Hl. by right.
Qed.

Lemma length_omap_all {A B} (f : A → option B) (l : list A) :
  Forall (λ x, is_Some (f x)) l → List.length (omap f l) = List.length l.
Proof.
  induction 1 as [|x l [y Hy] _ IH]; first done.
  by rewrite /= Hy /= IH.
Qed.

Lemma element_attrs_has_key key cs :
  Forall (has_key key) cs →
  Forall (λ row : gmap string string, is_Some (row !! key)) (element_attrs cs).
Proof.
  induction 1 as [|c cs Hc _ IH]; first by constructor.
  rewrite element_attrs_cons. destruct c; try done. by constructor.
Qed.

Lemma rows_with_unique key kv (rows : list (gmap string string)) row :
  NoDup (omap (λ attrs : gmap string string, attrs !! key) rows) →
  row ∈ rows → row !! key = Some kv →
  rows_with key kv rows = [row].
Proof.
  intros Hnd Hrow Hkv. induction rows as [|a rows IH]; first by apply elem_of_nil in Hrow.
  assert (∀ r, r ∈ rows → r !! key = Some kv → kv ∈ omap (λ attrs : gmap string string, attrs !! key) rows)
    as Hin.
  { intros r ??. apply list_elem_of_omap. by exists r. }
  rewrite /rows_with filter_cons. simpl in Hnd.
  apply elem_of_cons in Hrow as [<-|Hrow].
  - rewrite decide_True // Hkv in Hnd |- *. apply NoDup_cons in Hnd as [Hnotin _].
    f_equal. apply filter_none. intros r Hr Hr'.
    apply Hnotin. by eapply Hin.
  - destruct (a !! key) as [ka|] eqn:Hka.
    + apply NoDup_cons in Hnd as [Hnotin Hnd].
      rewrite decide_False; first by apply IH.
      intros [= ->]. apply Hnotin. by eapply Hin.
    + simpl in Hnd. case_decide; first done. by apply IH.
Qed.

(** C6, as stated, fails: the rowset converter does not look at the tag of a
    child.  With the key on every [row] child, with different values, an
    element child that is no row and has no key makes it raise [KeyError];
    and one that has the key gets an entry, so there are two entries for one
    [row] child. *)
Lemma C6_counterexample :
  (Forall (λ row : gmap string string, is_Some (row !! "id")) (row_attrs row_and_note) ∧
   NoDup (omap (λ row : gmap string string, row !! "id") (row_attrs row_and_note)) ∧
   _process_eveapi_rowset (Element "rowset" {[ "name" := "items"; "key" := "id" ]} row_and_note)
     (Str <$> ["items"]) (Str "id") = Raise (KeyError "id")) ∧
  (Forall (λ row : gmap string string, is_Some (row !! "id")) (row_attrs row_and_item) ∧
   NoDup (omap (λ row : gmap string string, row !! "id") (row_attrs row_and_item)) ∧
   List.length (row_attrs row_and_item) = 1 ∧
   _process_eveapi_rowset (Element "rowset" {[ "name" := "items"; "key" := "id" ]} row_and_item)
     (Str <$> ["items"]) (Str "id") =
     Ok (Dict {[ "items" := Dict {[ "1" := Dict {[ "id" := Str "1" ]};
                                    "2" := Dict {[ "id" := Str "2" ]} ]} ]})).
Proof.
  split; [split; [|split]|split; [|split; [|split]]].
  - repeat constructor. by eexists.
  - vm_compute. repeat constructor. set_solver.
  - vm_compute. reflexivity.
  - repeat constructor. by eexists.
  - vm_compute. repeat constructor. set_solver.
  - reflexivity.
  - vm_compute. reflexivity.
Qed.

(** C6, amended: the condition and the count are over the element children
    of the rowset, whatever their tag.  When they all carry the key
    attribute, with pairwise different values, the rowset converter returns,
    under its path, one entry for each of them: the entry at the child's key
    value is the child's attribute map, names as they are and values as
    strings. *)
Theorem C6_one_entry_per_row tagName attrs cs (P : list string) key :
  Forall (has_key key) cs →
  NoDup (omap (λ row : gmap string string, row !! key) (element_attrs cs)) →
  ∃ G : gmap string Value,
    _process_eveapi_rowset (Element tagName attrs cs) (Str <$> P) (Str key)
      = Ok (if element_attrs cs is [] then Dict ∅ else nest P (Dict G)) ∧
    size G = List.length (element_attrs cs) ∧
    ∀ row kv, row ∈ element_attrs cs → row !! key = Some kv →
      G !! kv = Some (Dict (Str <$> row)).
Proof.
  intros Hcs Hnd. rewrite process_eveapi_rowset_eq /=.
  destruct (group_rows_ok key cs None Hcs) as (o & -> & Hnone & Hlookup).
  exists (row_value <$> default ∅ o). split; [|split].
  - destruct o as [G|]; simpl.
    + destruct (element_attrs cs); last done. destruct Hnone as [_ Hnone].
      by specialize (Hnone (conj eq_refl eq_refl)).
    + destruct Hnone as [Hnone _]. by destruct (Hnone eq_refl) as [_ ->].
  - rewrite map_size_fmap -size_dom.
    assert (dom (default ∅ o) =
            list_to_set (omap (λ row : gmap string string, row !! key) (element_attrs cs)))
      as ->.
    { apply set_eq. intros kv. rewrite elem_of_dom elem_of_list_to_set list_elem_of_omap Hlookup.
      rewrite /= lookup_empty /=. split.
      - destruct (rows_with key kv (element_attrs cs)) as [|row rows] eqn:Hrs; first by intros [].
        intros _. exists row.
        assert (row ∈ rows_with key kv (element_attrs cs)) as Hin by (rewrite Hrs; left).
        by apply list_elem_of_filter in Hin as [??].
      - intros (row & Hrow & Hkv).
        assert (row ∈ rows_with key kv (element_attrs cs)) as Hin by by apply list_elem_of_filter.
        by destruct (rows_with key kv (element_attrs cs)) as [|??]; first by apply elem_of_nil in Hin. }
    rewrite size_list_to_set // length_omap_all //.
    by apply element_attrs_has_key.
  - intros row kv Hrow Hkv. rewrite lookup_fmap Hlookup.
    by rewrite (rows_with_unique key kv _ row) //= lookup_empty /overlay /= !right_id_L.
Qed.

Lemma C6_one_entry_per_row_witness :
  ∃ G : gmap string Value,
    _process_eveapi_rowset characters (Str <$> ["eveapi"; "result"; "characters"]) (Str "characterID")
      = Ok (nest ["eveapi"; "result"; "characters"] (Dict G)) ∧
    size G = 3 ∧
    ∀ row kv, row ∈ element_attrs (childNodes characters) → row !! "characterID" = Some kv →
      G !! kv = Some (Dict (Str <$> row)).
Proof.
  apply (C6_one_entry_per_row "rowset" _ (childNodes characters)
           ["eveapi"; "result"; "characters"] "characterID").
  - repeat constructor; by eexists.
  - vm_compute. repeat constructor; set_solver.
Defined.

(** C7, as stated, fails in both halves: a rowset element without [name] and
    [key] below a row is never looked at, and the conversion succeeds; and a
    document without any rowset can make the conversion raise [TypeError]. *)
Lemma C7_counterexample :
  (Element "rowset" ∅ [] ∈ descendants rowset_in_row ∧
   is_ok (dom_to_dict rowset_in_row []) = true) ∧
  ((∀ tagName attrs cs, Element tagName attrs cs ∈ descendants text_beside_text →
      tagName ≠ "rowset") ∧
   dom_to_dict text_beside_text [] = Raise TypeError).
Proof.
  split; split; [|by vm_compute| |by vm_compute].
  - rewrite /rowset_in_row /=. set_solver.
  - intros tagName attrs cs. rewrite /text_beside_text /=. set_solver.
Qed.

(** C7, amended: the rowsets meant are those the conversion visits, at any
    depth, and the input is one whose keys do not collide: no element is
    called, and no rowset is named, "text" or "attributes", and no rowset is
    stored at the path of an element.  A visited rowset that lacks [name] or
    [key] makes the conversion fail, and there is then a first lookup
    failure; when the rowset is a child of the converted element and the
    children before it are converted, the exception is [KeyError] on the
    attribute it lacks, [name] first.  On input whose keys do not collide the
    conversion raises [KeyError] on the first attribute that is looked up
    and not found, and it returns a dictionary when the input is well
    formed. *)
Theorem C7_malformed_rowset :
  (∀ element path attrs cs,
     Element "rowset" attrs cs ∈ visited element →
     attrs !! "name" = None ∨ attrs !! "key" = None →
     is_ok (dom_to_dict element path) = false ∧ is_Some (lookup_failure element)) ∧
  (∀ element (P : list string) cs attrs cs' rest result,
     childNodes element = cs ++ Element "rowset" attrs cs' :: rest →
     attrs !! "name" = None ∨ attrs !! "key" = None →
     for_each cs (Dict ∅) (dom_step dom_to_dict (Str <$> P)) = Ok result →
     dom_to_dict element (Str <$> P) =
       Raise (KeyError (match attrs !! "name" with None => "name" | Some _ => "key" end))) ∧
  (∀ RP element (P : list string) k,
     keys_ok RP element P = true →
     lookup_failure element = Some k →
     dom_to_dict element (Str <$> P) = Raise (KeyError k)) ∧
  (∀ RP element (P : list string),
     keys_ok RP element P = true →
     well_formed element →
     is_ok (dom_to_dict element (Str <$> P)) = true).
Proof.
  split; [|split; [|split]].
  - intros element path attrs cs Hin Hattrs. split.
    + by eapply visited_rowset_fails.
    + by eapply visited_rowset_failure.
  - intros element P cs attrs cs' rest result Hcs Hattrs Hresult.
    rewrite dom_to_dict_children Hcs for_each_app Hresult /= for_each_cons.
    apply dom_loop_reachable in Hresult as (o & -> & Ho).
    rewrite dom_step_element /attributes_step.
    assert (∃ o1, (if bool_decide (attrs = ∅) then Ok (dom_acc P o) else
        _dict_update (dom_acc P o) (nest P (Dict {["attributes" := row_value attrs]})))
        = Ok (dom_acc P o1)) as (o1 & ->).
    { case_bool_decide; first by exists o.
      destruct (attributes_merge P o attrs Ho) as (o1 & ? & _). by exists o1. }
    rewrite /= /content_step /=.
    destruct (attrs !! "name") as [name|]; last done.
    by destruct Hattrs as [?| ->].
  - intros RP element P k Hkeys Hk.
    pose proof (dom_to_dict_converts RP element P Hkeys) as H.
    by rewrite /converts Hk in H.
  - intros RP element P Hkeys Hwf%Is_true_eq_true%well_formed_failure.
    pose proof (dom_to_dict_converts RP element P Hkeys) as H.
    rewrite /converts Hwf in H. by destruct H as (o & -> & _).
Qed.

Lemma C7_malformed_rowset_witness :
  (is_ok (dom_to_dict (characters_document characters_no_key) []) = false ∧
   is_Some (lookup_failure (characters_document characters_no_key))) ∧
  dom_to_dict collision_then_no_key (Str <$> ["eveapi"; "result"]) = Raise (KeyError "key") ∧
  dom_to_dict (characters_document characters_no_key) (Str <$> []) = Raise (KeyError "key") ∧
  is_ok (dom_to_dict (characters_document characters) (Str <$> [])) = true.
Proof.
  destruct C7_malformed_rowset as (Hbad & Hchild & Hexn & Hgood). split; [|split; [|split]].
  - apply (Hbad (characters_document characters_no_key) []
             {[ "name" := "characters" ]} (childNodes characters)).
    + rewrite /characters_document /characters_no_key /=. set_solver.
    + right. by vm_compute.
  - erewrite (Hchild collision_then_no_key ["eveapi"; "result"]
                [Element "a" ∅ [Element "text" ∅ [Text "world"]; Text "hello"]]
                {[ "name" := "characters" ]} (childNodes characters) []).
    + by vm_compute.
    + reflexivity.
    + right. by vm_compute.
    + vm_compute. reflexivity.
  - apply (Hexn characters_paths (characters_document characters_no_key) [] "key").
    + vm_compute. reflexivity.
    + vm_compute. reflexivity.
  - apply (Hgood characters_paths (characters_document characters) []).
    + vm_compute. reflexivity.
    + by vm_compute.
Defined.



End claims.

(** * Further properties of the deep merge *)

Section merge_laws.
Import Fun.

Lemma map_fold_andb {A} (f : string → A → bool) (m : gmap string A) :
  map_fold (λ k v rest, rest && f k v) true m = true ↔
  ∀ k v, m !! k = Some v → f k v = true.
Proof.
  induction m as [|k v m Hk Hfirst IH] using map_first_key_ind.
  { rewrite map_fold_empty. split; [by intros _ k v|done]. }
  rewrite map_fold_insert_first_key // andb_true_iff IH. split.
  - intros [Hm Hv] k' v'. destruct (decide (k' = k)) as [->|?].
    + rewrite lookup_insert_eq. by intros [= <-].
    + rewrite lookup_insert_ne //. apply Hm.
  - intros H. split.
    + intros k' v' Hk'. apply H. rewrite lookup_insert_ne //. by intros <-; rewrite Hk in Hk'.
    + apply H. by rewrite lookup_insert_eq.
Qed.

(** A merge of two dictionaries returns the dictionary [m] when, and only
    when, [m] holds the merged entry at every key. *)
Lemma dict_update_entries m1 m2 m :
  _dict_update (Dict m1) (Dict m2) = Ok (Dict m) →
  ∀ k, merged_entry m1 m2 k = Ok (m !! k).
Proof.
  pose proof (dict_update_Dict m1 m2) as H.
  intros Hm. rewrite Hm in H. by destruct H as (m' & [= <-] & H).
Qed.

Lemma dict_update_from_entries m1 m2 m :
  (∀ k, merged_entry m1 m2 k = Ok (m !! k)) →
  _dict_update (Dict m1) (Dict m2) = Ok (Dict m).
Proof.
  pose proof (dict_update_Dict m1 m2) as H.
  intros Hm. destruct (_dict_update (Dict m1) (Dict m2)) as [r|e].
  - destruct H as (m' & -> & Hm'). do 2 f_equal. apply map_eq. intros k.
    specialize (Hm k). rewrite Hm' in Hm. by injection Hm.
  - destruct H as [k Hk]. by rewrite Hm in Hk.
Qed.

(** X1: the empty dictionary is neutral for the merge on both sides: merging
    [{}] into a dictionary leaves it as it is, and merging a dictionary into
    [{}] gives that dictionary. *)
Theorem X1_merge_empty (m : gmap string Value) :
  _dict_update (Dict m) (Dict ∅) = Ok (Dict m) ∧
  _dict_update (Dict ∅) (Dict m) = Ok (Dict m).
Proof. split; [apply dict_update_empty|by apply (dict_update_copy _ m)]. Qed.







Lemma mergeable_Dict m1 m2 :
  mergeable (Dict m1) (Dict m2) =
  map_fold (λ k v rest,
    rest && match v with
            | Str _ => true
            | Dict _ => mergeable (default (Dict ∅) (m1 !! k)) v
            end) true m2.
Proof. done. Qed.

#[local] Arguments mergeable : simpl never.


End merge_laws.

(** * Further properties of the conversion *)

Section conversion_laws.
Import Fun.

Lemma group_rows_result key o cs :
  match group_rows key o cs with
  | Ok _ => Forall (has_key key) cs
  | Raise e => e = KeyError key ∧ Exists (λ c, ¬ has_key key c) cs
  end.
Proof.
  revert o. induction cs as [|c cs IH]; intros o; first by constructor.
  destruct c as [d|t attrs cs'|cs'|]; simpl.
  2:{ destruct (attrs !! key) as [kv|] eqn:Hkv.
      - specialize (IH (Some (<[kv:=attrs ∪ default ∅ (default ∅ o !! kv)]> (default ∅ o)))).
        destruct (group_rows _ _ cs) as [o'|e].
        + constructor; [by exists kv|done].
        + destruct IH as [-> IH]. split; first done. by right.
      - split; first done. left. rewrite /= Hkv. by intros [? [=]]. }
  all: specialize (IH o); destruct (group_rows key o cs) as [o'|e].
  all: try (by constructor).
  all: destruct IH as [-> IH]; split; first done; by right.
Qed.

(** X6: the rowset converter returns exactly when every element child of the
    rowset carries the key attribute; when one does not, it raises [KeyError]
    on the key attribute and returns no part of the rows. *)
Theorem X6_rowset_returns element (P : list string) key :
  match _process_eveapi_rowset element (Str <$> P) (Str key) with
  | Ok _ => Forall (has_key key) (childNodes element)
  | Raise e => e = KeyError key ∧ Exists (λ c, ¬ has_key key c) (childNodes element)
  end.
Proof.
  rewrite process_eveapi_rowset_eq.
  pose proof (group_rows_result key None (childNodes element)) as H.
  by destruct (group_rows key None (childNodes element)).
Qed.

Lemma rowset_loop_attrs path key cs result :
  for_each cs result (rowset_step path key) =
  for_each (element_attrs cs) result (λ result attrs,
    rowset_step path key result (Element "row" attrs [])).
Proof.
  revert result. induction cs as [|c cs IH]; intros result; first done.
  rewrite element_attrs_cons for_each_cons.
  destruct c as [d|t attrs cs'|cs'|]; try apply IH.
  rewrite for_each_cons.
  change (rowset_step path key result (Element t attrs cs'))
    with (rowset_step path key result (Element "row" attrs [])).
  destruct (rowset_step _ _ _ _) as [r|e]; [apply IH|done].
Qed.

Lemma rowset_attrs element1 element2 path key :
  element_attrs (childNodes element1) = element_attrs (childNodes element2) →
  _process_eveapi_rowset element1 path key = _process_eveapi_rowset element2 path key.
Proof.
  intros Hattrs. by rewrite /_process_eveapi_rowset !rowset_loop_attrs Hattrs.
Qed.

(** X7: the rowset converter looks at nothing but the attribute maps of the
    element children of the rowset, in their order: two rowsets whose element
    children carry the same attribute maps convert alike, whatever the tag
    names of the children, the text and comments between them and the nodes
    below them. *)
Theorem X7_rowset_reads_attributes element1 element2 path key :
  element_attrs (childNodes element1) = element_attrs (childNodes element2) →
  _process_eveapi_rowset element1 path key = _process_eveapi_rowset element2 path key.
Proof. apply rowset_attrs. Qed.

Lemma X7_rowset_reads_attributes_witness :
  _process_eveapi_rowset
    (Element "rowset" ∅ [Element "row" {[ "id" := "1" ]} []; Element "row" {[ "id" := "2" ]} []])
    [Str "items"] (Str "id") =
  _process_eveapi_rowset
    (Element "rowset" {[ "name" := "items" ]}
       [Text "a"; Element "r" {[ "id" := "1" ]} [Text "x"]; Other;
        Element "item" {[ "id" := "2" ]} [Element "rowset" ∅ []]])
    [Str "items"] (Str "id").
Proof. apply X7_rowset_reads_attributes. reflexivity. Defined.

Lemma for_each_omap {A S} (f : A → option A) (cs : list A) (s : S) (body : S → A → res S) :
  Forall (λ c, ∀ s, match f c with
                    | Some c' => body s c' = body s c
                    | None => body s c = Ok s
                    end) cs →
  for_each (omap f cs) s body = for_each cs s body.
Proof.
  intros Hcs. revert s. induction Hcs as [|c cs Hc _ IH]; intros s; first done.
  rewrite for_each_cons /=. specialize (Hc s).
  destruct (f c) as [c'|].
  - rewrite for_each_cons Hc. destruct (body s c) as [s'|e]; [apply IH|done].
  - rewrite Hc /=. apply IH.
Qed.

Lemma element_attrs_prune cs :
  element_attrs (omap (λ c, if significant c then Some (prune c) else None) cs) =
  element_attrs cs.
Proof.
  rewrite /element_attrs. induction cs as [|c cs IH]; first done.
  destruct c as [d|t attrs cs'|cs'|]; simpl; try case_bool_decide; simpl.
  all: first [exact IH|f_equal; exact IH].
Qed.

(** X8: blank text, comments and other nodes that are neither text nor
    element have no part in the result, at any depth: the document converts
    as the document without them does. *)
Theorem X8_prune element path :
  dom_to_dict (prune element) path = dom_to_dict element path.
Proof.
  revert path. induction element as [d|t attrs cs IH|cs IH|] using node_ind'; intros path.
  1,4: done.
  all: rewrite !dom_to_dict_children /=; apply for_each_omap.
  all: eapply Forall_impl; first exact IH.
  all: intros c Hc result; destruct c as [d|t' attrs' cs'|cs'|]; simpl; try done.
  1,3: destruct (bool_decide _) eqn:Hd; simpl; by rewrite ?Hd.
  all: destruct (copy_attributes attrs') as [attributes|e]; simpl; last done.
  all: destruct (as_dict TypeError attributes) as [m|e]; simpl; last done.
  all: destruct (if bool_decide (0 < size m) then _ else _) as [result'|e]; simpl; last done.
  all: destruct (bool_decide (t' = "rowset")).
  1,3: destruct (dom_attr attrs' "name") as [name|e]; simpl; last done.
  1,2: destruct (dict_getitem attributes "key") as [key|e]; simpl; last done.
  1,2: rewrite (rowset_attrs (Element t' attrs' (omap _ cs')) (Element t' attrs' cs')) //.
  1,2: by rewrite /= element_attrs_prune.
  all: by rewrite (Hc (path ++ [Str t'])).
Qed.

End conversion_laws.

(** * The shape of the converted document *)

Section result_shape.
Import Fun.

(** X9: what [dom_to_dict] returns for an element at the path [P] lies wholly
    below [P]: it is the empty dictionary, or the chain of one-entry
    dictionaries along [P] down to a dictionary in which no entry but "text"
    is a string. *)
Theorem X9_result_below_path element (P : list string) r :
  dom_to_dict element (Str <$> P) = Ok r →
  r = Dict ∅ ∨ ∃ m, r = nest P (Dict m) ∧ ∀ k s, m !! k = Some (Str s) → k = "text".
Proof.
  intros (o & -> & Ho)%dom_to_dict_shape. destruct o as [m|]; [right|by left].
  exists m. split; first done. intros k s. by apply (Ho m k s).
Qed.

Lemma X9_result_below_path_witness :
  Dict {[ "eveapi" := Dict {[ "result" := Dict {[ "text" := Str "30356" ]} ]} ]} = Dict ∅ ∨
  ∃ m, Dict {[ "eveapi" := Dict {[ "result" := Dict {[ "text" := Str "30356" ]} ]} ]}
         = nest ["eveapi"; "result"] (Dict m) ∧
       ∀ k s, m !! k = Some (Str s) → k = "text".
Proof.
  apply (X9_result_below_path (Element "onlinePlayers" ∅ [Text "30356"]) ["eveapi"; "result"]).
  vm_compute. reflexivity.
Defined.

Lemma lookup_dom_acc P o k :
  lookup_path (P ++ [k]) (dom_acc P o) = o ≫= (λ m : gmap string Value, m !! k).
Proof.
  destruct o as [m|]; simpl.
  - rewrite lookup_path_app lookup_path_nest /=. by destruct (m !! k).
  - destruct P; by rewrite /= lookup_empty.
Qed.

(** Merging one entry below [P] replaces the entry at its key and leaves the
    others. *)
Lemma dict_update_acc_entry P o k v r :
  _dict_update (dom_acc P o) (nest P (Dict {[ k := v ]})) = Ok r →
  ∃ x, r = dom_acc P (Some (<[k := x]> (default ∅ o))) ∧
    match v with
    | Dict _ => _dict_update (default (Dict ∅) (default ∅ o !! k)) v = Ok x
    | Str _ => x = v
    end.
Proof.
  rewrite dict_update_acc. destruct o as [m|]; simpl.
  - destruct v as [s|b]; simpl.
    + intros [= <-]. by exists (Str s).
    + destruct (_dict_update _ (Dict b)) as [x|e]; last done. intros [= <-]. by exists x.
  - intros [= <-]. exists v. rewrite insert_empty. split; first done.
    destruct v as [s|b]; first done. rewrite lookup_empty /=. by apply (dict_update_copy _ b).
Qed.

Lemma acc_ok_insert o k v x :
  acc_ok o → (k = "text" ∨ ∃ b, v = Dict b) →
  match v with
  | Dict _ => _dict_update (default (Dict ∅) (default ∅ o !! k)) v = Ok x
  | Str _ => x = v
  end →
  acc_ok (Some (<[k := x]> (default ∅ o))).
Proof.
  intros Ho Hkv Hx m k' s [= <-]. destruct (decide (k' = k)) as [->|Hne].
  - rewrite lookup_insert_eq. intros [= ->].
    destruct Hkv as [->|[b ->]]; first done.
    destruct o as [m|]; simpl in Hx.
    + destruct (m !! k) as [[s'|a]|] eqn:Hk; simpl in Hx.
      * by apply (Ho m k s').
      * by apply dict_update_Dict_Dict in Hx as [??].
      * by apply dict_update_Dict_Dict in Hx as [??].
    + rewrite lookup_empty /= in Hx. by apply dict_update_Dict_Dict in Hx as [??].
  - rewrite lookup_insert_ne //. destruct o as [m|]; simpl; last by rewrite lookup_empty.
    by apply (Ho m).
Qed.

Lemma merge_beside_attributes P o k v r rows :
  acc_ok o → attributes_are rows o →
  k ≠ "attributes" → (k = "text" ∨ ∃ b, v = Dict b) →
  _dict_update (dom_acc P o) (nest P (Dict {[ k := v ]})) = Ok r →
  ∃ o', r = dom_acc P o' ∧ acc_ok o' ∧ attributes_are rows o'.
Proof.
  intros Ho Hrows Hk Hkv (x & -> & Hx)%dict_update_acc_entry.
  eexists. split; first done. split; first by apply (acc_ok_insert _ _ v).
  by rewrite /attributes_are /= lookup_insert_ne.
Qed.

Lemma merge_attributes P o attrs r rows :
  acc_ok o → attributes_are rows o →
  attributes_step P (dom_acc P o) attrs = Ok r →
  ∃ o', r = dom_acc P o' ∧ acc_ok o' ∧ attributes_are (rows ++ [attrs]) o'.
Proof.
  intros Ho Hrows. rewrite /attributes_step /attributes_are overlay_snoc.
  case_bool_decide as Hattrs.
  { intros [= <-]. exists o. by rewrite Hattrs left_id_L. }
  intros (x & -> & Hx)%dict_update_acc_entry.
  eexists. split; first done. split.
  { apply (acc_ok_insert _ _ (row_value attrs)); [done| |exact Hx]. right. by eexists. }
  rewrite /= lookup_insert_eq bool_decide_eq_false_2.
  2:{ intros Hempty. apply Hattrs. apply map_eq. intros name.
      apply (f_equal (λ m : gmap string string, m !! name)) in Hempty.
      rewrite lookup_union lookup_empty in Hempty. rewrite lookup_empty.
      by destruct (attrs !! name), (overlay rows !! name). }
  rewrite /attributes_are in Hrows. rewrite /row_value in Hx. rewrite Hrows in Hx.
  revert Hx. case_bool_decide as Hov.
  - rewrite Hov /= right_id_L. rewrite (dict_update_copy _ (Str <$> attrs)) //. by intros [= <-].
  - rewrite /= -/(row_value attrs) dict_update_rows. by intros [= <-].
Qed.

Lemma sibling_attributes_step P o rows c r :
  acc_ok o → attributes_are rows o → no_attributes_child c →
  dom_step dom_to_dict (Str <$> P) (dom_acc P o) c = Ok r →
  ∃ o', r = dom_acc P o' ∧ acc_ok o' ∧ attributes_are (rows ++ element_attrs [c]) o'.
Proof.
  intros Ho Hrows Hc. destruct c as [data|tagName attrs cs|cs|].
  - rewrite dom_step_text app_nil_r. case_bool_decide.
    + apply merge_beside_attributes; [done..|by left].
    + intros [= <-]. by exists o.
  - rewrite dom_step_element.
    destruct (attributes_step P (dom_acc P o) attrs) as [r1|e] eqn:H1; last done.
    apply (merge_attributes _ _ _ _ rows) in H1 as (o1 & -> & Ho1 & Hrows1); [|done..].
    rewrite /= /content_step. simpl in Hc. revert Hc.
    destruct (bool_decide (tagName = "rowset")); intros Hc.
    + destruct (attrs !! "name") as [name|]; last done.
      destruct (attrs !! "key") as [key|]; last done.
      destruct (group_rows key None cs) as [[G|]|e]; simpl; [| |done].
      * rewrite nest_app /=. apply merge_beside_attributes; [done..|congruence|].
        right. by eexists.
      * rewrite dict_update_empty. intros [= <-]. by exists o1.
    + destruct (dom_to_dict _ _) as [rc|e] eqn:Hrc; last done.
      apply dom_to_dict_shape in Hrc as (oc & -> & _). simpl.
      destruct oc as [b|]; simpl.
      * rewrite nest_app /=. apply merge_beside_attributes; [done..|].
        right. by eexists.
      * rewrite dict_update_empty. intros [= <-]. by exists o1.
  - rewrite app_nil_r. intros [= <-]. by exists o.
  - rewrite app_nil_r. intros [= <-]. by exists o.
Qed.

Lemma sibling_attributes_loop P o rows cs r :
  acc_ok o → attributes_are rows o → Forall no_attributes_child cs →
  for_each cs (dom_acc P o) (dom_step dom_to_dict (Str <$> P)) = Ok r →
  ∃ o', r = dom_acc P o' ∧ attributes_are (rows ++ element_attrs cs) o'.
Proof.
  intros Ho Hrows Hcs. revert o rows Ho Hrows.
  induction Hcs as [|c cs Hc _ IH]; intros o rows Ho Hrows.
  { intros [= <-]. exists o. by rewrite app_nil_r. }
  rewrite for_each_cons.
  destruct (dom_step _ _ _ c) as [r1|e] eqn:Hstep; last done.
  apply (sibling_attributes_step _ _ rows) in Hstep as (o1 & -> & Ho1 & Hrows1); [|done..].
  intros Hr. simpl in Hr. destruct (IH _ _ Ho1 Hrows1 Hr) as (o' & -> & Hrows').
  exists o'. split; first done.
  replace (element_attrs (c :: cs)) with (element_attrs [c] ++ element_attrs cs)
    by (by destruct c).
  by rewrite (assoc_L (++)).
Qed.

(** X10: the attributes of all the element children of an element are put
    into one dictionary, under "attributes" at the path of the element
    itself: when no child is stored under that key as well, the conversion of
    the element, if it returns, holds there the overlay of the attribute maps
    of the children in document order, where a later sibling wins over an
    earlier one on a shared attribute name; and it holds nothing there when
    no child has an attribute. *)
Theorem X10_sibling_attributes element (P : list string) r :
  Forall no_attributes_child (childNodes element) →
  dom_to_dict element (Str <$> P) = Ok r →
  lookup_path (P ++ ["attributes"]) r =
    if bool_decide (overlay (element_attrs (childNodes element)) = ∅) then None
    else Some (row_value (overlay (element_attrs (childNodes element)))).
Proof.
  intros Hcs. rewrite dom_to_dict_children.
  intros (o' & -> & Hrows)%(sibling_attributes_loop P None []); [|apply acc_ok_None|done..].
  rewrite lookup_dom_acc. rewrite /attributes_are /= in Hrows.
  destruct o' as [m|]; first done. by rewrite /= lookup_empty in Hrows.
Qed.

Lemma X10_sibling_attributes_witness :
  lookup_path (["result"] ++ ["attributes"])
    (Dict {[ "result" := Dict {[ "attributes" := Dict {[ "x" := Str "2"; "y" := Str "0" ]};
                                 "b" := Dict {[ "text" := Str "t" ]} ]} ]}) =
    if bool_decide (overlay [ {[ "x" := "1"; "y" := "0" ]} ; {[ "x" := "2" ]} ] = ∅) then None
    else Some (row_value (overlay [ {[ "x" := "1"; "y" := "0" ]} ; {[ "x" := "2" ]} ])).
Proof.
  apply (X10_sibling_attributes
           (Element "result" ∅ [ Element "a" {[ "x" := "1"; "y" := "0" ]} [];
                                 Element "b" {[ "x" := "2" ]} [Text "t"] ])
           ["result"]).
  - repeat constructor; by vm_compute.
  - vm_compute. reflexivity.
Defined.

(** X11: on well-formed input, where every visited rowset carries [name] and
    [key] and each of its element children the key attribute, the conversion
    looks up nothing that is missing: when it raises, the exception is the
    [TypeError] or the [AttributeError] of a deep merge that met a string
    where it needed a dictionary, never [KeyError] or [IndexError]. *)
Theorem X11_no_lookup_failure element (P : list string) e :
  well_formed element →
  dom_to_dict element (Str <$> P) = Raise e →
  e = TypeError ∨ e = AttributeError.
Proof. apply dom_to_dict_raises. Qed.

Lemma X11_no_lookup_failure_witness :
  dom_to_dict text_beside_text (Str <$> []) = Raise TypeError ∧
  (TypeError = TypeError ∨ TypeError = AttributeError).
Proof.
  split; first by vm_compute.
  apply (X11_no_lookup_failure text_beside_text [] TypeError); by vm_compute.
Defined.

End result_shape.

(** * Deep merge in the store: what it leaves alone *)

Section frame.
Import Py.

(** [σ0] is the store before the merge and [S] the region of the source
    [dict2]: dictionaries only, referring to nothing outside. *)
Context (σ0 : heap) (S : loc → Prop).
Hypothesis S_closed : closed σ0 S.
Hypothesis S_dicts : ∀ l, S l → ∃ d, σ0 !! l = Some (ODict d).

Local Abbreviation inv := (inv σ0 S).
Local Abbreviation preserves := (preserves σ0 S).

Lemma preserves_ret {A} D (a : A) (Q : A → (loc → Prop) → Prop) :
  Q a D → preserves D (mret a) Q.
Proof. intros HQ σ Hσ. by exists D. Qed.

Lemma preserves_raise {A} D e (Q : A → (loc → Prop) → Prop) :
  e ≠ RecursionLimit → preserves D (raise e) Q.
Proof. intros He σ Hσ. by exists D. Qed.

Lemma preserves_bind {A B} D (m : M A) (f : A → M B) Q R :
  preserves D m Q →
  (∀ a D', (∀ l, D l → D' l) → Q a D' → preserves D' (f a) R) →
  preserves D (m ≫= f) R.
Proof.
  intros Hm Hf σ Hσ. destruct (Hm σ Hσ) as (D' & HD & Hσ' & HQ).
  rewrite /mbind /M_bind. destruct (m σ) as [[a|e] σ']; simpl in *.
  - destruct (Hf a D' HD HQ σ' Hσ') as (D'' & HD' & Hσ'' & HR).
    exists D''. split; [naive_solver|done].
  - by exists D'.
Qed.

Lemma preserves_mono {A} D (m : M A) (Q Q' : A → (loc → Prop) → Prop) :
  preserves D m Q → (∀ a D', (∀ l, D l → D' l) → Q a D' → Q' a D') → preserves D m Q'.
Proof.
  intros Hm HQ σ Hσ. destruct (Hm σ Hσ) as (D' & HD & Hσ' & Hres).
  exists D'. split; first done. split; first done.
  destruct (m σ).1; [by apply HQ|done].
Qed.

Lemma val_in_mono (X Y : loc → Prop) v : (∀ l, X l → Y l) → val_in X v → val_in Y v.
Proof. destruct v; naive_solver. Qed.

Lemma preserves_load D l :
  preserves D (load l) (λ o D',
    (D l → ∀ v, obj_holds o v → val_in D' v) ∧ (S l → σ0 !! l = Some o)).
Proof.
  intros σ Hσ. exists D. split; first done. rewrite /load.
  destruct (σ !! l) as [o|] eqn:Hl; simpl; last done.
  split; first done. split.
  - intros Hl' v Hv. by eapply (inv_closed _ _ Hσ).
  - intros Hl'. by rewrite -(inv_source _ _ Hσ).
Qed.

Lemma preserves_alloc D o :
  (∀ v, obj_holds o v → val_in D v) →
  preserves D (alloc o) (λ l D', D' l).
Proof.
  intros Ho σ Hσ. exists (λ l, D l ∨ l = fresh (dom σ)). split; first by left.
  simpl. split; last by right.
  assert (σ !! fresh (dom σ) = None) as Hfresh by apply not_elem_of_dom, is_fresh.
  assert (¬ S (fresh (dom σ))) as HS.
  { intros HS. destruct (S_dicts _ HS) as [d Hd].
    by rewrite -(inv_source _ _ Hσ) // Hfresh in Hd. }
  split.
  - intros l Hl. rewrite lookup_insert_ne; last by intros <-.
    by apply (inv_source _ _ Hσ).
  - intros l [Hl| ->] HS'; [by eapply (inv_apart _ _ Hσ)|done].
  - intros l o' v Hl. destruct (decide (l = fresh (dom σ))) as [->|Hne].
    + rewrite lookup_insert_eq. intros [= <-] Hv.
      eapply val_in_mono; last by apply Ho. by left.
    + rewrite lookup_insert_ne //. intros Hl' Hv. destruct Hl as [Hl|]; last done.
      eapply val_in_mono; last by eapply (inv_closed _ _ Hσ). by left.
Qed.

Lemma preserves_store D l o :
  D l → (∀ v, obj_holds o v → val_in D v) →
  preserves D (store l o) (λ _ _, True).
Proof.
  intros Hl Ho σ Hσ. exists D. split; first done. rewrite /store.
  destruct (σ !! l) as [o'|] eqn:Hlo; simpl; last done.
  split; last done. split.
  - intros l' Hl'. rewrite lookup_insert_ne; last by intros <-; eapply (inv_apart _ _ Hσ).
    by apply (inv_source _ _ Hσ).
  - apply (inv_apart _ _ Hσ).
  - intros l' o'' v Hl'. destruct (decide (l' = l)) as [->|Hne].
    + rewrite lookup_insert_eq. intros [= <-]. apply Ho.
    + rewrite lookup_insert_ne //. by apply (inv_closed _ _ Hσ).
Qed.

Lemma preserves_for_each {A B} D (xs : list A) (s : B) body (I : B → (loc → Prop) → Prop) :
  (∀ s D D', (∀ l, D l → D' l) → I s D → I s D') →
  I s D →
  (∀ x s D', x ∈ xs → (∀ l, D l → D' l) → I s D' → preserves D' (body s x) I) →
  preserves D (for_each xs s body) I.
Proof.
  intros Hmono. revert s D. induction xs as [|x xs IH]; intros s D Hs Hbody.
  { by apply preserves_ret. }
  eapply preserves_bind.
  { apply Hbody; [by left|done..]. }
  intros s' D' HD Hs'. apply IH; first done.
  intros y s'' D'' Hy HD' Hs''. apply Hbody; [by right|naive_solver|done].
Qed.

Lemma preserves_as_dict D e v :
  e ≠ RecursionLimit →
  preserves D (as_dict e v) (λ '(l, d) D',
    v = VRef l ∧
    (val_in D v → ∀ k x, d !! k = Some x → val_in D' x) ∧
    (val_in S v → σ0 !! l = Some (ODict d))).
Proof.
  intros He. destruct v as [s|l]; first by apply preserves_raise.
  eapply preserves_bind; first apply preserves_load.
  intros [d|xs] D' HD [HDl HSl]; last by apply preserves_raise.
  apply preserves_ret. split; first done. split; last done.
  intros Hl k x Hx. apply HDl; first done. by exists k.
Qed.

Lemma preserves_dict_new D : preserves D dict_new (λ v D', val_in D' v).
Proof.
  eapply preserves_bind.
  { apply preserves_alloc. by intros v [k Hk]. }
  intros l D' HD Hl. by apply preserves_ret.
Qed.

Lemma preserves_dict_setitem D d k v :
  val_in D d → val_in D v →
  preserves D (dict_setitem d k v) (λ _ _, True).
Proof.
  intros Hd Hv. eapply preserves_bind; first by apply preserves_as_dict.
  intros [l m] D' HD (-> & Hm & _).
  apply preserves_store; first by apply HD.
  intros x [k' Hx]. destruct (decide (k' = k)) as [->|Hne].
  - rewrite lookup_insert_eq in Hx. injection Hx as <-. by eapply val_in_mono.
  - rewrite lookup_insert_ne // in Hx. by eapply Hm.
Qed.

Lemma preserves_dict_get D d k :
  val_in D d →
  preserves D (dict_get d k dict_new) (λ v D', val_in D' v).
Proof.
  intros Hd. eapply preserves_bind; first by apply preserves_as_dict.
  intros [l m] D' HD (-> & Hm & _).
  eapply preserves_bind; first apply preserves_dict_new.
  intros dflt D'' HD' Hdflt. apply preserves_ret.
  destruct (m !! k) as [x|] eqn:Hx; last done.
  eapply val_in_mono; first done. by eapply Hm.
Qed.

(** Reading the source: the dictionary found is the one of [σ0]. *)
Lemma preserves_source_dict D e l d :
  e ≠ RecursionLimit → S l → σ0 !! l = Some (ODict d) →
  preserves D (as_dict e (VRef l)) (λ ld _, ld = (l, d)).
Proof.
  intros He Hl Hd. eapply preserves_mono; first by apply preserves_as_dict.
  intros [l' d'] D' _ ([= <-] & _ & Hd'). specialize (Hd' Hl).
  rewrite Hd in Hd'. by injection Hd' as <-.
Qed.

Lemma preserves_is_dict D v :
  val_in S v →
  preserves D (is_dict v) (λ b _, if b then ∃ l, v = VRef l else ∃ s, v = VStr s).
Proof.
  intros Hv. destruct v as [s|l].
  { apply preserves_ret. by exists s. }
  eapply preserves_bind; first apply preserves_load.
  intros o D' _ [_ Ho]. apply preserves_ret.
  destruct (S_dicts l Hv) as [d Hd]. rewrite (Ho Hv) in Hd. injection Hd as ->. by exists l.
Qed.

(** The merge stays in its region, returns [dict1], and needs no more
    recursion depth than the source is high. *)
Lemma dict_update_preserves fuel D dict1 dict2 t2 :
  represents σ0 dict2 t2 → val_in S dict2 → val_in D dict1 → height t2 < fuel →
  preserves D (_dict_update fuel dict1 dict2) (λ r _, r = dict1).
Proof.
  revert D dict1 dict2 t2. induction fuel as [|fuel IH]; intros D dict1 dict2 t2 Ht2 HS HD Hfuel.
  { lia. }
  simpl. destruct Ht2 as [s|l2 d2 m2 Hl2 Hd2].
  { eapply (preserves_bind _ _ _ (λ _ _, False)); last done.
    eapply (preserves_bind _ _ _ (λ _ _, False)); last done.
    by apply preserves_raise. }
  eapply (preserves_bind _ _ _ (λ ks _, ks = (items d2).*1)).
  { eapply preserves_bind; first by apply (preserves_source_dict D AttributeError l2 d2).
    intros ld D' _ ->. by apply preserves_ret. }
  intros ks D1 HD1 ->.
  eapply (preserves_bind _ _ _ (λ _ D', val_in D' dict1)); last first.
  { intros _ D' _ _. eapply (preserves_bind _ _ _ (λ _ _, True)).
    - eapply preserves_bind; first by apply (preserves_source_dict D' AttributeError l2 d2).
      intros ld D'' _ ->. simpl.
      case_bool_decide; [by apply preserves_ret|by apply preserves_raise].
    - intros _ D'' _ _. by apply preserves_ret. }
  apply (preserves_for_each D1 _ tt _ (λ _ D', val_in D' dict1)).
  { intros _ X Y HXY. by apply val_in_mono. }
  { by eapply val_in_mono. }
  intros k [] D2 Hk HD2 Hdict1.
  eapply (preserves_bind _ _ _ (λ v _, d2 !! k = Some v)).
  { eapply (preserves_bind _ _ _ (λ m _, m = d2)).
    - eapply preserves_bind; first by apply (preserves_source_dict D2 AttributeError l2 d2).
      intros ld D' _ ->. simpl.
      case_bool_decide; [by apply preserves_ret|by apply preserves_raise].
    - intros m D' _ ->.
      destruct (d2 !! k) as [v|] eqn:Hv; [by apply preserves_ret|by apply preserves_raise]. }
  intros v D3 HD3 Hv.
  assert (val_in S v) as HSv.
  { eapply S_closed; [exact HS|exact Hl2|]. by exists k. }
  eapply preserves_bind; first by apply preserves_is_dict.
  intros b D4 HD4 Hb. destruct b.
  - eapply preserves_bind.
    { apply preserves_dict_get. eapply val_in_mono; last done. naive_solver. }
    intros d D5 HD5 Hd.
    pose proof (Hd2 k) as Hrep. rewrite Hv in Hrep. inversion Hrep as [? t' Ht' | ]; subst.
    eapply preserves_bind.
    { eapply (IH D5 d v t'); [done..|].
      assert (height t' < height (Dict m2)); last lia.
      by eapply height_lookup. }
    intros r D6 HD6 ->.
    eapply preserves_mono.
    { apply preserves_dict_setitem; last by eapply val_in_mono.
      eapply val_in_mono; last exact Hdict1. naive_solver. }
    intros _ D7 HD7 _. eapply val_in_mono; last exact Hdict1. naive_solver.
  - destruct Hb as [s ->].
    eapply (preserves_bind _ _ _ (λ v _, v = VStr s)).
    { eapply preserves_bind; first by apply (preserves_source_dict D4 TypeError l2 d2).
      intros ld D' _ ->. simpl. rewrite Hv. by apply preserves_ret. }
    intros v' D5 HD5 ->.
    eapply preserves_mono.
    { apply preserves_dict_setitem; last done.
      eapply val_in_mono; last exact Hdict1. naive_solver. }
    intros _ D6 HD6 _. eapply val_in_mono; last exact Hdict1. naive_solver.
Qed.

End frame.

Section frame_theorem.
Import Py.

Lemma reach_closed σ (X : loc → Prop) l l' :
  closed σ X → X l → reach σ l l' → X l'.
Proof.
  intros HX Hl Hreach. induction Hreach as [|l l' l'' (o & Ho & Hv) _ IH]; first done.
  apply IH. by apply (HX l o (VRef l')).
Qed.

Lemma closed_reach σ l : closed σ (reach σ l).
Proof.
  intros l' o [s|l''] Hl' Ho Hv; first done.
  eapply rtc_r; first done. by exists o.
Qed.

Lemma represents_reach σ l t l' :
  represents σ (VRef l) t → reach σ l l' → ∃ t', represents σ (VRef l') t'.
Proof.
  intros Ht Hreach. revert t Ht.
  induction Hreach as [|l l' l'' (o & Ho & Hv) _ IH]; intros t Ht; first by exists t.
  inversion Ht as [|? d m Hd Hdm]; subst. rewrite Ho in Hd. injection Hd as ->.
  destruct Hv as [k Hk]. specialize (Hdm k). rewrite Hk in Hdm.
  inversion Hdm as [? t' Ht' |]; subst. by eapply IH.
Qed.

(** A value stands for the same thing in every store that agrees on what it
    reaches. *)
Lemma represents_agree σ σ' (X : loc → Prop) v t :
  closed σ X → (∀ l, X l → σ' !! l = σ !! l) →
  val_in X v → represents σ v t → represents σ' v t.
Proof.
  intros HX Hagree. revert v. induction t as [s|m IH] using Value_ind'; intros v Hv Ht.
  { inversion Ht. constructor. }
  inversion Ht as [|l d ? Hd Hdm]; subst. apply represents_dict with (d := d).
  { by rewrite Hagree. }
  intros k. specialize (Hdm k).
  destruct (d !! k) as [x|] eqn:Hx, (m !! k) as [t|] eqn:Hm; inversion Hdm; subst; constructor.
  eapply IH; [done| |done]. apply (HX l (ODict d) x); [done..|]. by exists k.
Qed.

(** C10, amended: when the source [dict2] is a dictionary of strings and
    dictionaries, and no object is reachable from both [dict1] and [dict2]
    before the call, then the merge, given the recursion depth the source
    needs, leaves every object reachable from the source as it was, so that
    the source stands for the same value; when it returns, it returns the
    reference [dict1] it was given; and afterwards still no object is reachable
    from both [dict1] and [dict2]: the dictionaries of the source have been
    copied, not stored. *)
Theorem C10_dict_update_frame σ l1 l2 t2 fuel :
  represents σ (VRef l2) t2 →
  separate σ l1 l2 →
  height t2 < fuel →
  ∃ r σ', _dict_update fuel (VRef l1) (VRef l2) σ = (r, σ') ∧
    r ≠ Raise RecursionLimit ∧
    (∀ v, r = Ok v → v = VRef l1) ∧
    (∀ l, reach σ l2 l → σ' !! l = σ !! l) ∧
    represents σ' (VRef l2) t2 ∧
    separate σ' l1 l2.
Proof.
  intros Ht2 Hsep Hfuel.
  assert (∀ l, reach σ l2 l → ∃ d, σ !! l = Some (ODict d)) as Hdicts.
  { intros l Hl. destruct (represents_reach σ l2 t2 l Ht2 Hl) as [t' Ht'].
    inversion Ht'; subst. by eexists. }
  destruct (dict_update_preserves σ (reach σ l2) (closed_reach σ l2) Hdicts
              fuel (reach σ l1) (VRef l1) (VRef l2) t2) with (σ := σ)
    as (D' & HD & [Hsource Hapart Hclosed] & Hres); [done|apply rtc_refl..|done| |].
  { split; [done|by intros l ??; eapply Hsep|apply closed_reach]. }
  destruct (_dict_update fuel (VRef l1) (VRef l2) σ) as [r σ'] eqn:Hrun. simpl in *.
  exists r, σ'. split; first done.
  assert (closed σ' (reach σ l2)) as Hclosed2.
  { intros l o v Hl Ho. rewrite Hsource // in Ho. by apply (closed_reach σ l2 l o v). }
  split; [|split; [|split; [|split]]].
  - by intros ->.
  - by intros v ->.
  - done.
  - eapply (represents_agree σ σ' (reach σ l2)); [apply closed_reach|done|apply rtc_refl|done].
  - intros l H1 H2. apply (Hapart l).
    + apply (reach_closed σ' D' l1 l Hclosed); [apply HD, rtc_refl|done].
    + apply (reach_closed σ' (reach σ l2) l2 l Hclosed2); [apply rtc_refl|done].
Qed.

Lemma closedb_closed σ X : closedb σ X = true → closed σ (λ l, l ∈ X).
Proof.
  rewrite /closedb forallb_forall. intros H l o v Hl Ho Hv.
  specialize (H (l, o)). rewrite -list_elem_of_In elem_of_map_to_list in H.
  specialize (H Ho). rewrite /= bool_decide_eq_true_2 //= in H.
  assert (∀ v', val_inb X v' = true → val_in (λ l, l ∈ X) v') as Hval.
  { intros [s|l']; first done. by intros ?%bool_decide_eq_true. }
  apply Hval. destruct o as [d|xs]; simpl in *.
  - destruct Hv as [k Hk]. rewrite forallb_forall in H.
    apply (H (k, v)). by rewrite -list_elem_of_In elem_of_map_to_list.
  - rewrite forallb_forall in H. by apply H, list_elem_of_In.
Qed.

Lemma separate_sets σ (X1 X2 : gset loc) l1 l2 :
  closedb σ X1 = true → closedb σ X2 = true → l1 ∈ X1 → l2 ∈ X2 → X1 ## X2 →
  separate σ l1 l2.
Proof.
  intros H1%closedb_closed H2%closedb_closed Hl1 Hl2 Hdisj l Hr1 Hr2.
  apply (Hdisj l).
  - by apply (reach_closed σ (λ l, l ∈ X1) l1).
  - by apply (reach_closed σ (λ l, l ∈ X2) l2).
Qed.

Lemma readback_represents n σ v t : readback n σ v = Some t → represents σ v t.
Proof.
  revert v t. induction n as [|n IH]; intros v t; first done.
  destruct v as [s|l]; simpl.
  { intros [= <-]. constructor. }
  destruct (σ !! l) as [[d|xs]|] eqn:Hl; [|done..].
  intros (m & Hm & ->)%fmap_Some. apply represents_dict with (d := d); first done.
  clear Hl. revert m Hm.
  induction d as [|k x d Hk Hfirst IHd] using map_first_key_ind; intros m.
  { rewrite map_fold_empty. intros [= <-] k. rewrite !lookup_empty. constructor. }
  rewrite map_fold_insert_first_key //.
  destruct (map_fold _ _ d) as [m'|]; last done. simpl.
  destruct (readback n σ x) as [t|] eqn:Hx; last done. intros [= <-] k'.
  destruct (decide (k' = k)) as [->|Hne].
  - rewrite !lookup_insert_eq. constructor. by apply IH.
  - rewrite !lookup_insert_ne //. by apply IHd.
Qed.

End frame_theorem.

Section frame_claim.
Import Py.
Local Open Scope positive_scope.

(** C10, as stated, fails: merging the source at 2 into the destination at 1
    returns normally and has changed the source, whose dictionary X has
    received the entries of Y. *)
Lemma C10_counterexample :
  ∃ σ',
    _dict_update 3 (VRef 1) (VRef 2) shared_store = (Ok (VRef 1), σ') ∧
    readback 3 shared_store (VRef 2)
      = Some (Dict {[ "a" := Dict {[ "p" := Str "1" ]}; "b" := Dict {[ "q" := Str "2" ]} ]}) ∧
    readback 3 σ' (VRef 2)
      = Some (Dict {[ "a" := Dict {[ "p" := Str "1"; "q" := Str "2" ]};
                      "b" := Dict {[ "q" := Str "2" ]} ]}) ∧
    σ' !! 3 ≠ shared_store !! 3.
Proof.
  eexists. split; first by vm_compute.
  split; first by vm_compute. split; first by vm_compute.
  vm_compute. discriminate.
Qed.

Lemma C10_dict_update_frame_witness :
  ∃ r σ', _dict_update 3 (VRef 1) (VRef 2) apart_store = (r, σ') ∧
    r ≠ Raise RecursionLimit ∧
    (∀ v, r = Ok v → v = VRef 1) ∧
    (∀ l, reach apart_store 2 l → σ' !! l = apart_store !! l) ∧
    represents σ' (VRef 2) (Dict {[ "a" := Dict {[ "c" := Str "2" ]} ]}) ∧
    separate σ' 1 2.
Proof.
  apply C10_dict_update_frame.
  - apply (readback_represents 3). by vm_compute.
  - apply (separate_sets _ {[ 1; 3 ]} {[ 2; 4 ]}); [by vm_compute..|set_solver].
  - vm_compute. lia.
Defined.

End frame_claim.

(** * Rules of the logic *)

Section rules.
Import Py.
Context `{!gen_heapGS loc obj Σ}.

Lemma wp_ret {A} (a : A) Φ : Φ (Ok a) ⊢ wp (mret a) Φ.
Proof. iIntros "H" (σ) "Hσ". iModIntro. iExists _, _. by iFrame. Qed.

Lemma wp_raise {A} e (Φ : res A → iProp Σ) : Φ (Raise e) ⊢ wp (raise e) Φ.
Proof. iIntros "H" (σ) "Hσ". iModIntro. iExists _, _. by iFrame. Qed.

Lemma wp_bind {A B} (m : M A) (f : A → M B) Φ :
  wp m (λ r, match r with Ok a => wp (f a) Φ | Raise e => Φ (Raise e) end) ⊢ wp (m ≫= f) Φ.
Proof.
  iIntros "H" (σ) "Hσ". iMod ("H" with "Hσ") as (r σ' Hm) "[Hσ H]".
  destruct r as [a|e].
  - iMod ("H" with "Hσ") as (r σ'' Hf) "[Hσ H]". iModIntro. iExists r, σ''. iFrame.
    iPureIntro. by rewrite /mbind /M_bind Hm.
  - iModIntro. iExists _, _. iFrame. iPureIntro. by rewrite /mbind /M_bind Hm.
Qed.

Lemma wp_bupd {A} (m : M A) Φ : (|==> wp m Φ) ⊢ wp m Φ.
Proof. iIntros "H" (σ) "Hσ". iMod "H". by iApply "H". Qed.

Lemma wp_wand {A} (m : M A) Φ Ψ : wp m Φ -∗ (∀ r, Φ r -∗ Ψ r) -∗ wp m Ψ.
Proof.
  iIntros "H HΦ" (σ) "Hσ". iMod ("H" with "Hσ") as (r σ' Hm) "[Hσ H]".
  iModIntro. iExists r, σ'. iFrame. iSplit; first done. by iApply "HΦ".
Qed.

Lemma wp_alloc o Φ : (∀ l, l ↦ o -∗ Φ (Ok l)) ⊢ wp (alloc o) Φ.
Proof.
  iIntros "H" (σ) "Hσ".
  iMod (gen_heap_alloc σ (fresh (dom σ)) o with "Hσ") as "(Hσ & Hl & _)".
  { apply not_elem_of_dom, is_fresh. }
  iModIntro. iExists _, _. iFrame. iSplit; first done. by iApply "H".
Qed.

Lemma wp_load l dq o Φ : l ↦{dq} o -∗ (l ↦{dq} o -∗ Φ (Ok o)) -∗ wp (load l) Φ.
Proof.
  iIntros "Hl H" (σ) "Hσ". iDestruct (gen_heap_valid with "Hσ Hl") as %Hl.
  iModIntro. iExists _, _. iFrame "Hσ". iSplit.
  { iPureIntro. by rewrite /load Hl. }
  by iApply "H".
Qed.

Lemma wp_store l o o' Φ : l ↦ o -∗ (l ↦ o' -∗ Φ (Ok tt)) -∗ wp (store l o') Φ.
Proof.
  iIntros "Hl H" (σ) "Hσ". iDestruct (gen_heap_valid with "Hσ Hl") as %Hl.
  iMod (gen_heap_update with "Hσ Hl") as "[Hσ Hl]".
  iModIntro. iExists _, _. iFrame "Hσ". iSplit.
  { iPureIntro. by rewrite /store Hl. }
  by iApply "H".
Qed.

(** Unfolding [repr] at a dictionary. *)
Lemma repr_Dict dq v m :
  repr dq v (Dict m) ⊣⊢
  ∃ l d, ⌜v = VRef l ∧ dom d = dom m⌝ ∗ l ↦{dq} ODict d ∗
    [∗ map] k ↦ t ∈ m, ∃ x, ⌜d !! k = Some x⌝ ∗ repr dq x t.
Proof.
  simpl. do 6 f_equiv.
  rewrite map_fold_foldr big_opM_map_to_list.
  induction (map_to_list m) as [|[k t] l IH]; first done.
  by rewrite /= IH.
Qed.

Lemma repr_Str dq v s : repr dq v (Str s) ⊣⊢ ⌜v = VStr s⌝.
Proof. done. Qed.

Lemma repr_Dict_1 dq v m :
  repr dq v (Dict m) ⊢
  ∃ l d, ⌜v = VRef l ∧ dom d = dom m⌝ ∗ l ↦{dq} ODict d ∗
    [∗ map] k ↦ t ∈ m, ∃ x, ⌜d !! k = Some x⌝ ∗ repr dq x t.
Proof. by rewrite repr_Dict. Qed.

Lemma repr_Str_1 dq v s : repr dq v (Str s) ⊢ ⌜v = VStr s⌝.
Proof. done. Qed.

Global Instance repr_persistent v t : Persistent (repr DfracDiscarded v t).
Proof.
  revert v. induction t as [s|m IH] using Value_ind'; intros v; first apply _.
  rewrite repr_Dict. apply bi.exist_persistent=> l. apply bi.exist_persistent=> d.
  apply bi.sep_persistent; first apply _. apply bi.sep_persistent; first apply _.
  apply big_sepM_persistent=> k t Hk. apply bi.exist_persistent=> y.
  apply bi.sep_persistent; first apply _. by eapply IH.
Qed.

(** A tree that is complete can be given up for reading only. *)
Lemma repr_freeze v t : repr (DfracOwn 1) v t ==∗ repr DfracDiscarded v t.
Proof.
  revert v. induction t as [s|m IH] using Value_ind'; intros v; first by iIntros "$".
  rewrite !repr_Dict. iIntros "(%l & %d & % & Hl & Hm)".
  iMod (pointsto_persist with "Hl") as "Hl".
  iExists l, d. iFrame "Hl". iSplitR; first done.
  iApply big_sepM_bupd. iApply (big_sepM_impl with "Hm").
  iIntros "!>" (k t Hk) "(%x & % & Hx)". iMod (IH with "Hx") as "Hx"; first done.
  iModIntro. iExists x. by iFrame.
Qed.

Global Opaque repr.

End rules.

Arguments Py.for_each : simpl never.

Arguments Py._dict_update : simpl never.

(** * Dictionary and list operations *)

Section primitives.
Import Py.
Context `{!gen_heapGS loc obj Σ}.

Lemma py_for_each_cons {A B} (x : A) (xs : list A) (s : B) body :
  for_each (x :: xs) s body = s' ← body s x; for_each xs s' body.
Proof. done. Qed.

Lemma py_dict_update_S fuel dict1 dict2 :
  _dict_update (S fuel) dict1 dict2 =
  ks ← dict_iteritems dict2;
  for_each ks tt (λ _ k, update_item (_dict_update fuel) dict1 dict2 (List.length ks) k);;
  dict_iter_check dict2 (List.length ks);;
  mret dict1.
Proof. done. Qed.

Lemma wp_as_dict e l dq d Φ :
  l ↦{dq} ODict d -∗ (l ↦{dq} ODict d -∗ Φ (Ok (l, d))) -∗ wp (as_dict e (VRef l)) Φ.
Proof.
  iIntros "Hl HΦ". iApply wp_bind. iApply (wp_load with "Hl"). iIntros "Hl".
  iApply wp_ret. by iApply "HΦ".
Qed.

Lemma wp_as_list e l dq xs Φ :
  l ↦{dq} OList xs -∗ (l ↦{dq} OList xs -∗ Φ (Ok (l, xs))) -∗ wp (as_list e (VRef l)) Φ.
Proof.
  iIntros "Hl HΦ". iApply wp_bind. iApply (wp_load with "Hl"). iIntros "Hl".
  iApply wp_ret. by iApply "HΦ".
Qed.

Lemma wp_dict_new Φ : (∀ l, l ↦ ODict ∅ -∗ Φ (Ok (VRef l))) ⊢ wp dict_new Φ.
Proof.
  iIntros "HΦ". iApply wp_bind. iApply wp_alloc. iIntros (l) "Hl".
  iApply wp_ret. by iApply "HΦ".
Qed.

Lemma wp_dict_setitem l d k v Φ :
  l ↦ ODict d -∗ (l ↦ ODict (<[k:=v]> d) -∗ Φ (Ok tt)) -∗ wp (dict_setitem (VRef l) k v) Φ.
Proof.
  iIntros "Hl HΦ". iApply wp_bind. iApply (wp_as_dict with "Hl"). iIntros "Hl".
  by iApply (wp_store with "Hl").
Qed.

Lemma wp_dict_getitem l dq d k Φ :
  l ↦{dq} ODict d -∗
  (l ↦{dq} ODict d -∗
     Φ (match d !! k with Some v => Ok v | None => Raise (KeyError k) end)) -∗
  wp (dict_getitem (VRef l) k) Φ.
Proof.
  iIntros "Hl HΦ". iApply wp_bind. iApply (wp_as_dict with "Hl"). iIntros "Hl".
  iSpecialize ("HΦ" with "Hl").
  destruct (d !! k); [by iApply wp_ret|by iApply wp_raise].
Qed.

Lemma wp_dict_get l dq d k Φ :
  l ↦{dq} ODict d -∗
  (∀ l', l ↦{dq} ODict d -∗ l' ↦ ODict ∅ -∗ Φ (Ok (default (VRef l') (d !! k)))) -∗
  wp (dict_get (VRef l) k dict_new) Φ.
Proof.
  iIntros "Hl HΦ". iApply wp_bind. iApply (wp_as_dict with "Hl"). iIntros "Hl".
  iApply wp_bind. iApply wp_dict_new. iIntros (l') "Hl'".
  iApply wp_ret. iApply ("HΦ" with "Hl Hl'").
Qed.

Lemma wp_dict_iter_check l dq d n Φ :
  size d = n →
  l ↦{dq} ODict d -∗ (l ↦{dq} ODict d -∗ Φ (Ok d)) -∗ wp (dict_iter_check (VRef l) n) Φ.
Proof.
  iIntros (Hn) "Hl HΦ". iApply wp_bind. iApply (wp_as_dict with "Hl"). iIntros "Hl".
  rewrite bool_decide_eq_true_2 //. iApply wp_ret. by iApply "HΦ".
Qed.

Lemma repr_empty l : l ↦ ODict ∅ ⊢ repr (DfracOwn 1) (VRef l) (Dict ∅).
Proof.
  iIntros "Hl". rewrite repr_Dict. iExists l, ∅. iFrame "Hl".
  iSplit; first by rewrite !dom_empty_L. by rewrite big_sepM_empty.
Qed.

(** Storing the tree [t] at the key [k] of a dictionary. *)
Lemma repr_insert l (d : gmap string val) (m : gmap string Value) k x t :
  dom d = dom m →
  l ↦ ODict (<[k:=x]> d) -∗
  repr (DfracOwn 1) x t -∗
  ([∗ map] k' ↦ t' ∈ delete k m, ∃ y, ⌜d !! k' = Some y⌝ ∗ repr (DfracOwn 1) y t') -∗
  repr (DfracOwn 1) (VRef l) (Dict (<[k:=t]> m)).
Proof.
  iIntros (Hdom) "Hl Hx Hm". rewrite repr_Dict. iExists l, (<[k:=x]> d). iFrame "Hl".
  iSplit; first by rewrite !dom_insert_L Hdom.
  rewrite big_sepM_insert_delete. iSplitL "Hx".
  { iExists x. iFrame. by rewrite lookup_insert_eq. }
  iApply (big_sepM_impl with "Hm"). iIntros "!>" (k' t' [Hne _]%lookup_delete_Some) "(%y & % & Hy)".
  iExists y. iFrame. by rewrite lookup_insert_ne.
Qed.

Lemma items_keys {A B} (d : gmap string A) (m : gmap string B) :
  dom d = dom m → (items d).*1 = (items m).*1.
Proof.
  intros Hdom. rewrite /items !fmap_reverse. f_equal.
  assert ((λ _, ()) <$> d = (λ _, ()) <$> m) as Heq.
  { apply map_eq. intros k. rewrite !lookup_fmap.
    assert (is_Some (d !! k) ↔ is_Some (m !! k)) as His.
    { by rewrite -!elem_of_dom Hdom. }
    destruct (d !! k), (m !! k); try done.
    - by destruct His as [[? ?] _].
    - by destruct His as [_ [? ?]]. }
  apply (f_equal map_to_list) in Heq. rewrite !map_to_list_fmap in Heq.
  apply (f_equal (fmap fst)) in Heq. rewrite -!list_fmap_compose in Heq.
  exact Heq.
Qed.

Lemma items_length {A} (d : gmap string A) : List.length (items d).*1 = size d.
Proof. by rewrite length_fmap /items length_reverse length_map_to_list. Qed.

End primitives.

(** * Deep merge in the store: what it computes *)

Section dict_update_spec.
Import Py.
Context `{!gen_heapGS loc obj Σ}.

(** One round of the loop of [_dict_update], given the specification [Hrec]
    of the recursive call. *)
Lemma wp_update_item (rec : val → val → M val) dict1 t1 l2 d2 m2 n k t Ψ :
  (∀ d td x mt Φ, m2 !! k = Some (Dict mt) →
     repr (DfracOwn 1) d td -∗ repr DfracDiscarded x (Dict mt) -∗
     match Fun._dict_update td (Dict mt) with
     | Ok t' => repr (DfracOwn 1) d t' -∗ Φ (Ok d)
     | Raise e => Φ (Raise e)
     end -∗ wp (rec d x) Φ) →
  dom d2 = dom m2 → size d2 = n → m2 !! k = Some t →
  l2 ↦□ ODict d2 -∗
  ([∗ map] k ↦ t ∈ m2, ∃ x, ⌜d2 !! k = Some x⌝ ∗ repr DfracDiscarded x t) -∗
  repr (DfracOwn 1) dict1 t1 -∗
  match merge_item k t t1 with
  | Ok t' => repr (DfracOwn 1) dict1 t' -∗ Ψ (Ok tt)
  | Raise e => Ψ (Raise e)
  end -∗
  wp (update_item rec dict1 (VRef l2) n k) Ψ.
Proof.
  intros Hrec Hdom Hn Hk. iIntros "#Hl2 #Hm2 H1".
  iDestruct (big_sepM_lookup with "Hm2") as (x Hx) "#Hx"; first exact Hk.
  rewrite /update_item /Fun.update_item.
  iAssert (∀ Φ, Φ (Ok x) -∗ wp (dict_next (VRef l2) n k) Φ)%I as "Hnext".
  { iIntros (Φ) "HΦ". rewrite /dict_next. iApply wp_bind.
    iApply (wp_dict_iter_check with "Hl2"); first done. iIntros "_".
    rewrite Hx. by iApply wp_ret. }
  destruct t as [s|mt].
  - (* the item is a string *)
    iDestruct (repr_Str_1 with "Hx") as %->.
    destruct t1 as [s1|m1]; simpl.
    + iDestruct (repr_Str_1 with "H1") as %->. iIntros "HΨ".
      iApply wp_bind. iApply "Hnext". iApply wp_bind. iApply wp_ret.
      iApply wp_bind. iApply (wp_dict_getitem with "Hl2"). iIntros "_". rewrite Hx.
      rewrite /dict_setitem. iApply wp_bind. by iApply wp_raise.
    + iDestruct (repr_Dict_1 with "H1") as (l1 d1 [-> Hdom1]) "[Hl1 Hm1]". iIntros "HΨ".
      iApply wp_bind. iApply "Hnext". iApply wp_bind. iApply wp_ret.
      iApply wp_bind. iApply (wp_dict_getitem with "Hl2"). iIntros "_". rewrite Hx.
      iApply (wp_dict_setitem with "Hl1"). iIntros "Hl1". iApply "HΨ".
      iApply (repr_insert with "Hl1 [] [Hm1]"); first done.
      * by rewrite repr_Str.
      * iApply (big_sepM_subseteq with "Hm1"). apply delete_subseteq.
  - (* the item is a dictionary *)
    iAssert (∀ Φ, Φ (Ok true) -∗ wp (is_dict x) Φ)%I as "Hisdict".
    { iIntros (Φ) "HΦ". iDestruct (repr_Dict_1 with "Hx") as (lx dx [-> _]) "[Hlx _]".
      rewrite /is_dict. iApply wp_bind. iApply (wp_load with "Hlx"). iIntros "_".
      by iApply wp_ret. }
    destruct t1 as [s1|m1]; simpl.
    + iDestruct (repr_Str_1 with "H1") as %->. iIntros "HΨ".
      iApply wp_bind. iApply "Hnext". iApply wp_bind. iApply "Hisdict".
      iApply wp_bind. rewrite /dict_get. iApply wp_bind. by iApply wp_raise.
    + iDestruct (repr_Dict_1 with "H1") as (l1 d1 [-> Hdom1]) "[Hl1 Hm1]". iIntros "HΨ".
      iApply wp_bind. iApply "Hnext". iApply wp_bind. iApply "Hisdict".
      iApply wp_bind. iApply (wp_dict_get with "Hl1"). iIntros (l') "Hl1 Hl'".
      iAssert (repr (DfracOwn 1) (default (VRef l') (d1 !! k)) (default (Dict ∅) (m1 !! k)) ∗
               [∗ map] k' ↦ t' ∈ delete k m1, ∃ y, ⌜d1 !! k' = Some y⌝ ∗ repr (DfracOwn 1) y t')%I
        with "[Hl' Hm1]" as "[Hd Hm1]".
      { destruct (m1 !! k) as [tk|] eqn:Hmk.
        - iDestruct (big_sepM_delete with "Hm1") as "[(%y & %Hy & Hy) Hm1]"; first done.
          rewrite Hy /=. iFrame.
        - assert (d1 !! k = None) as ->.
          { apply not_elem_of_dom. rewrite Hdom1. by apply not_elem_of_dom. }
          rewrite /= delete_id //. iFrame "Hm1". by iApply repr_empty. }
      iApply wp_bind. iApply (Hrec with "Hd Hx"); first done.
      destruct (Fun._dict_update (default (Dict ∅) (m1 !! k)) (Dict mt)) as [t'|e]; last done.
      iIntros "Hd". iApply (wp_dict_setitem with "Hl1"). iIntros "Hl1". iApply "HΨ".
      by iApply (repr_insert with "Hl1 Hd Hm1").
Qed.

(** The merge in the store computes the merge on values: it leaves [dict1]
    standing for the merged value, or raises the same exception. *)
Lemma wp_dict_update fuel dict1 t1 dict2 t2 Φ :
  height t2 < fuel →
  repr (DfracOwn 1) dict1 t1 -∗
  repr DfracDiscarded dict2 t2 -∗
  match Fun._dict_update t1 t2 with
  | Ok t => repr (DfracOwn 1) dict1 t -∗ Φ (Ok dict1)
  | Raise e => Φ (Raise e)
  end -∗
  wp (_dict_update fuel dict1 dict2) Φ.
Proof.
  revert dict1 t1 dict2 t2 Φ.
  induction fuel as [|fuel IH]; intros dict1 t1 dict2 t2 Φ Hfuel; first lia.
  iIntros "H1 #H2". rewrite py_dict_update_S.
  destruct t2 as [s|m2].
  { iDestruct (repr_Str_1 with "H2") as %->. iIntros "HΦ".
    iApply wp_bind. rewrite /dict_iteritems. iApply wp_bind. by iApply wp_raise. }
  iDestruct (repr_Dict_1 with "H2") as (l2 d2 [-> Hdom]) "[#Hl2 #Hm2]".
  rewrite dict_update_for_each. iIntros "HΦ".
  iApply wp_bind. rewrite /dict_iteritems. iApply wp_bind.
  iApply (wp_as_dict with "Hl2"). iIntros "_". iApply wp_ret.
  rewrite (items_keys d2 m2 Hdom).
  assert (size d2 = List.length (items m2).*1) as Hn.
  { by rewrite -(items_keys d2 m2 Hdom) items_length. }
  revert Hn. generalize (List.length (items m2).*1). intros n Hn.
  assert (Forall (λ kt, m2 !! kt.1 = Some kt.2) (items m2)) as Hitems.
  { apply Forall_forall. intros [k t] Hin.
    by apply elem_of_reverse, elem_of_map_to_list in Hin. }
  iApply wp_bind.
  iAssert (match Fun.for_each (items m2) t1 (λ dict1 '(k, v), merge_item k v dict1) with
           | Ok t => repr (DfracOwn 1) dict1 t -∗
               wp (dict_iter_check (VRef l2) n ≫= λ _, mret dict1) Φ
           | Raise e => Φ (Raise e)
           end)%I with "[HΦ]" as "HΦ".
  { destruct (Fun.for_each _ _ _) as [t|e]; last done. iIntros "H1".
    iApply wp_bind. iApply (wp_dict_iter_check with "Hl2"); first done. iIntros "_".
    iApply wp_ret. by iApply "HΦ". }
  iInduction (items m2) as [|[k t] kts] "IHk" forall (t1).
  { iApply wp_ret. by iApply "HΦ". }
  apply Forall_cons in Hitems as [Hk Hkts]. simpl in Hk.
  rewrite fmap_cons py_for_each_cons for_each_cons. iApply wp_bind.
  iApply (wp_update_item with "Hl2 Hm2 H1"); [|done..|].
  { intros d td x mt Φ' Hmt. apply IH.
    assert (height (Dict mt) < height (Dict m2)) by by eapply height_lookup. lia. }
  destruct (merge_item k t t1) as [t1'|e] eqn:Hstep; rewrite ?Hstep /=; last done.
  iIntros "H1". by iApply ("IHk" with "[//] H1 HΦ").
Qed.

End dict_update_spec.

(** * Path dictionaries in the store *)

Section path_spec.
Import Py.
Context `{!gen_heapGS loc obj Σ}.

Lemma repr_strings dq l (attrs : gmap string string) :
  l ↦{dq} ODict (VStr <$> attrs) ⊢ repr dq (VRef l) (Dict (Str <$> attrs)).
Proof.
  iIntros "Hl". iApply repr_Dict. iExists l, _. iFrame "Hl". iSplit.
  { by rewrite !dom_fmap_L. }
  iApply big_sepM_intro. iIntros "!>" (k t). rewrite !lookup_fmap.
  iIntros ([s [Hs ->]]%fmap_Some). iExists (VStr s). rewrite Hs. iSplit; first done.
  by iApply repr_Str.
Qed.

Lemma repr_singleton l k x t :
  l ↦□ ODict {[ k := x ]} -∗ repr DfracDiscarded x t -∗
  repr DfracDiscarded (VRef l) (Dict {[ k := t ]}).
Proof.
  iIntros "Hl Hx". iApply repr_Dict. iExists l, _. iFrame "Hl". iSplit.
  { by rewrite !dom_singleton_L. }
  rewrite big_sepM_singleton. iExists x. iFrame. by rewrite lookup_singleton_eq.
Qed.

Lemma wp_list_add lp dq xs x Φ :
  lp ↦{dq} OList xs -∗
  (∀ l, lp ↦{dq} OList xs -∗ l ↦ OList (xs ++ [x]) -∗ Φ (Ok (VRef l))) -∗
  wp (list_add (VRef lp) x) Φ.
Proof.
  iIntros "Hp HΦ". rewrite /list_add. iApply wp_bind. iApply wp_alloc. iIntros (r) "_".
  iApply wp_bind. iApply (wp_as_list with "Hp"). iIntros "Hp".
  iApply wp_bind. iApply wp_alloc. iIntros (l) "Hl". iApply wp_ret.
  iApply ("HΦ" with "Hp Hl").
Qed.

Lemma wp_list_pop l xs x Φ :
  l ↦ OList (xs ++ [x]) -∗ (l ↦ OList xs -∗ Φ (Ok x)) -∗ wp (list_pop (VRef l)) Φ.
Proof.
  iIntros "Hl HΦ". rewrite /list_pop. iApply wp_bind. iApply (wp_as_list with "Hl").
  iIntros "Hl". rewrite last_snoc removelast_last. iApply wp_bind.
  iApply (wp_store with "Hl"). iIntros "Hl". iApply wp_ret. by iApply "HΦ".
Qed.

Lemma wp_copy_attributes attrs Φ :
  (∀ l, l ↦ ODict (VStr <$> attrs) -∗ Φ (Ok (VRef l))) ⊢ wp (copy_attributes attrs) Φ.
Proof.
  iIntros "HΦ". rewrite /copy_attributes. iApply wp_bind. iApply wp_dict_new.
  iIntros (l) "Hl". iApply wp_bind.
  iAssert (∀ d, l ↦ ODict d -∗
    (l ↦ ODict (foldl (λ d kv, <[kv.1 := VStr kv.2]> d) d (items attrs)) -∗
       wp (mret (VRef l)) Φ) -∗
    wp (for_each (items attrs) tt (λ _ '(k, v), dict_setitem (VRef l) k (VStr v)))
       (λ r, match r with Ok _ => wp (mret (VRef l)) Φ | Raise e => Φ (Raise e) end))%I
    as "Hloop".
  { iInduction (items attrs) as [|[k v] kvs] "IH".
    - iIntros (d) "Hl H". iApply wp_ret. by iApply "H".
    - iIntros (d) "Hl H". rewrite py_for_each_cons. iApply wp_bind.
      iApply (wp_dict_setitem with "Hl"). iIntros "Hl". iApply ("IH" with "Hl H"). }
  iApply ("Hloop" with "Hl"). iIntros "Hl". iApply wp_ret. iApply "HΦ".
  replace (foldl _ ∅ (items attrs)) with (VStr <$> attrs); first done.
  rewrite /items -{1}(list_to_map_to_list attrs) -list_to_map_fmap.
  induction (map_to_list attrs) as [|[k v] kvs IHkvs]; first done.
  by rewrite reverse_cons foldl_snoc /= IHkvs.
Qed.

Lemma wp_dict_len l dq d Φ :
  l ↦{dq} ODict d -∗ (l ↦{dq} ODict d -∗ Φ (Ok (size d))) -∗ wp (dict_len (VRef l)) Φ.
Proof.
  iIntros "Hl HΦ". iApply wp_bind. iApply (wp_as_dict with "Hl"). iIntros "Hl".
  iApply wp_ret. by iApply "HΦ".
Qed.

(** The loop of [_dict_with_path]: [d] is the innermost dictionary so far, at
    the path [P0] below [root], and still empty. *)
Lemma wp_dict_with_path_loop root d P0 P Ψ :
  d ↦ ODict ∅ -∗
  (∀ t, repr DfracDiscarded (VRef d) t ==∗ repr DfracDiscarded root (nest P0 t)) -∗
  (∀ d', d' ↦ ODict ∅ -∗
     (∀ t, repr DfracDiscarded (VRef d') t ==∗ repr DfracDiscarded root (nest (P0 ++ P) t)) -∗
     Ψ (Ok (VRef d'))) -∗
  wp (for_each (VStr <$> P) (VRef d) (λ d element,
        element ← as_key element;
        new ← dict_new;
        dict_setitem d element new;;
        dict_getitem d element)) Ψ.
Proof.
  iIntros "Hd Hctx HΨ".
  iInduction P as [|e P] "IH" forall (d P0).
  { iApply wp_ret. iApply ("HΨ" with "Hd"). by rewrite app_nil_r. }
  rewrite fmap_cons py_for_each_cons. iApply wp_bind.
  iApply wp_bind. iApply wp_ret.
  iApply wp_bind. iApply wp_dict_new. iIntros (new) "Hnew".
  iApply wp_bind. iApply (wp_dict_setitem with "Hd"). iIntros "Hd".
  iApply (wp_dict_getitem with "Hd"). iIntros "Hd". rewrite lookup_insert_eq insert_empty.
  iApply ("IH" $! new (P0 ++ [e]) with "Hnew [Hd Hctx]").
  - iIntros (t) "Ht". iMod (pointsto_persist with "Hd") as "Hd".
    iDestruct (repr_singleton with "Hd Ht") as "Hd".
    rewrite nest_app. by iApply "Hctx".
  - iIntros (d') "Hd' H". iApply ("HΨ" with "Hd'"). by rewrite -assoc.
Qed.

(** [_dict_with_path] builds the chain of dictionaries for the path, consumes
    the list it is given, and stores the value itself at the end of the
    chain. *)
Lemma wp_dict_with_path lp P k v tv Φ :
  lp ↦ OList (VStr <$> (P ++ [k])) -∗
  repr DfracDiscarded v tv -∗
  (∀ d, repr DfracDiscarded d (nest (P ++ [k]) tv) -∗ Φ (Ok d)) -∗
  wp (_dict_with_path (VRef lp) v) Φ.
Proof.
  iIntros "Hp #Hv HΦ". rewrite /_dict_with_path fmap_app /=.
  iApply wp_bind. iApply wp_dict_new. iIntros (root) "Hroot".
  iApply wp_bind. iApply (wp_list_pop with "Hp"). iIntros "Hp".
  iApply wp_bind. rewrite /list_iter. iApply wp_bind. iApply (wp_as_list with "Hp").
  iIntros "_". iApply wp_ret. iApply wp_bind.
  iApply (wp_dict_with_path_loop (VRef root) root [] with "Hroot []").
  { by iIntros (t) "$". }
  iIntros (d) "Hd Hctx". iApply wp_bind. iApply wp_ret.
  iApply wp_bind. iApply (wp_dict_setitem with "Hd"). iIntros "Hd".
  iApply wp_bupd. iMod (pointsto_persist with "Hd") as "Hd". rewrite insert_empty.
  iDestruct (repr_singleton with "Hd Hv") as "Hd".
  iMod ("Hctx" with "Hd") as "Hroot". iModIntro.
  iApply wp_ret. iApply "HΦ". rewrite (nest_app P [k]). iExact "Hroot".
Qed.

End path_spec.

(** * Rowset conversion in the store *)

Section conversion_spec.
Import Py.
Context `{!gen_heapGS loc obj Σ}.
Local Open Scope nat_scope.

(** A loop that updates the dictionary [result] in place, against the loop
    that threads the value it stands for.  [I] is what the loop needs besides
    and gives back. *)
Lemma wp_for_each_result {A} (cs : list A) (pstep : A → M unit)
    (fstep : Value → A → res Value) (I : iProp Σ) result t0 Φ :
  Forall (λ c, ∀ t Ψ,
    I -∗ repr (DfracOwn 1) result t -∗
    (I -∗ match fstep t c with
          | Ok t' => repr (DfracOwn 1) result t' -∗ Ψ (Ok tt)
          | Raise e => Ψ (Raise e)
          end) -∗
    wp (pstep c) Ψ) cs →
  I -∗ repr (DfracOwn 1) result t0 -∗
  (I -∗ match Fun.for_each cs t0 fstep with
        | Ok t => repr (DfracOwn 1) result t -∗ Φ (Ok tt)
        | Raise e => Φ (Raise e)
        end) -∗
  wp (for_each cs tt (λ _ c, pstep c)) Φ.
Proof.
  intros Hcs. revert t0. induction Hcs as [|c cs Hc Hcs IH]; intros t0; iIntros "HI Hr HΦ".
  { iApply wp_ret. iApply ("HΦ" with "HI Hr"). }
  rewrite py_for_each_cons for_each_cons. iApply wp_bind.
  iApply (Hc with "HI Hr"). iIntros "HI".
  destruct (fstep t0 c) as [t'|e]; simpl; last by iApply "HΦ".
  iIntros "Hr". iApply (IH with "HI Hr HΦ").
Qed.

(** Merging [{P + [k]: v}] into [result]. *)
Lemma wp_merge_at fuel lp dq P k v tv result t Φ :
  List.length P + 1 + height tv < fuel →
  lp ↦{dq} OList (VStr <$> P) -∗
  repr DfracDiscarded v tv -∗
  repr (DfracOwn 1) result t -∗
  (lp ↦{dq} OList (VStr <$> P) -∗
   match Fun._dict_update t (nest (P ++ [k]) tv) with
   | Ok t' => repr (DfracOwn 1) result t' -∗ Φ (Ok tt)
   | Raise e => Φ (Raise e)
   end) -∗
  wp (p ← list_add (VRef lp) (VStr k);
      d ← _dict_with_path p v;
      _dict_update fuel result d;;
      mret tt) Φ.
Proof.
  iIntros (Hfuel) "Hp #Hv Hr HΦ". iApply wp_bind.
  iApply (wp_list_add with "Hp"). iIntros (l) "Hp Hl". rewrite -fmap_snoc.
  iApply wp_bind. iApply (wp_dict_with_path with "Hl Hv"). iIntros (d) "#Hd".
  iApply wp_bind. iApply (wp_dict_update with "Hr Hd").
  { rewrite height_nest length_app /=. lia. }
  iSpecialize ("HΦ" with "Hp").
  destruct (Fun._dict_update t _) as [t'|e]; last done.
  iIntros "Hr". iApply wp_ret. by iApply "HΦ".
Qed.

Lemma wp_rowset_step fuel lp dq P key result t child Φ :
  List.length P + 2 < fuel →
  lp ↦{dq} OList (VStr <$> P) -∗
  repr (DfracOwn 1) result t -∗
  (lp ↦{dq} OList (VStr <$> P) -∗
   match Fun.rowset_step (Str <$> P) (Str key) t child with
   | Ok t' => repr (DfracOwn 1) result t' -∗ Φ (Ok tt)
   | Raise e => Φ (Raise e)
   end) -∗
  wp (rowset_step fuel (VRef lp) (VStr key) result child) Φ.
Proof.
  iIntros (Hfuel) "Hp Hr HΦ".
  destruct child as [data|tag attrs cs|cs|]; simpl;
    try (iApply wp_ret; by iApply ("HΦ" with "Hp Hr")).
  rewrite /Fun.rowset_step copy_attributes_eq /= /Fun.dict_getitem /= lookup_fmap.
  iApply wp_bind. iApply wp_copy_attributes. iIntros (la) "Hla".
  iApply wp_bupd. iMod (pointsto_persist with "Hla") as "#Hla". iModIntro.
  iApply wp_bind. iApply wp_ret.
  iApply wp_bind. iApply (wp_dict_getitem with "Hla"). iIntros "_". rewrite lookup_fmap.
  destruct (attrs !! key) as [kv|]; simpl; last by iApply "HΦ".
  rewrite dict_with_path_snoc /=.
  iApply (wp_merge_at with "Hp [] Hr HΦ"); last by iApply repr_strings.
  pose proof (height_row_value attrs) as Hh. rewrite /row_value in Hh. lia.
Qed.

Lemma wp_process_eveapi_rowset fuel element lp dq P key Φ :
  List.length P + 2 < fuel →
  lp ↦{dq} OList (VStr <$> P) -∗
  (lp ↦{dq} OList (VStr <$> P) -∗
   match Fun._process_eveapi_rowset element (Str <$> P) (Str key) with
   | Ok t => ∀ v, repr (DfracOwn 1) v t -∗ Φ (Ok v)
   | Raise e => Φ (Raise e)
   end) -∗
  wp (_process_eveapi_rowset fuel element (VRef lp) (VStr key)) Φ.
Proof.
  iIntros (Hfuel) "Hp HΦ". rewrite /_process_eveapi_rowset /Fun._process_eveapi_rowset.
  iApply wp_bind. iApply wp_dict_new. iIntros (l) "Hl".
  iDestruct (repr_empty with "Hl") as "Hr". iApply wp_bind.
  iApply (wp_for_each_result _ _ (Fun.rowset_step (Str <$> P) (Str key))
            (lp ↦{dq} OList (VStr <$> P)) with "Hp Hr").
  { apply Forall_forall. intros c _ t Ψ. iIntros "Hp Hr HΨ".
    iApply (wp_rowset_step with "Hp Hr HΨ"). done. }
  iIntros "Hp". iSpecialize ("HΦ" with "Hp").
  destruct (Fun.for_each _ _ _) as [t|e]; last done.
  iIntros "Hr". iApply wp_ret. by iApply "HΦ".
Qed.

End conversion_spec.

(** * Document conversion in the store *)

Section dom_spec.
Import Py.
Context `{!gen_heapGS loc obj Σ}.
Local Open Scope nat_scope.

Lemma wp_attributes_step fuel lp dq P result t attrs la Ψ :
  List.length P + 2 < fuel →
  la ↦□ ODict (VStr <$> attrs) -∗
  lp ↦{dq} OList (VStr <$> P) -∗
  repr (DfracOwn 1) result t -∗
  (lp ↦{dq} OList (VStr <$> P) -∗
   match attributes_step P t attrs with
   | Ok t' => repr (DfracOwn 1) result t' -∗ Ψ (Ok tt)
   | Raise e => Ψ (Raise e)
   end) -∗
  wp (if bool_decide (0 < size attrs) then
        p ← list_add (VRef lp) (VStr "attributes");
        d ← _dict_with_path p (VRef la);
        _dict_update fuel result d;;
        mret tt
      else mret tt) Ψ.
Proof.
  iIntros (Hfuel) "#Hla Hp Hr HΨ". rewrite /attributes_step.
  destruct (decide (attrs = ∅)) as [->|Hne].
  { rewrite map_size_empty (bool_decide_eq_false_2 (0 < 0)); last lia.
    rewrite (bool_decide_eq_true_2 (∅ = ∅)) //. iApply wp_ret. iApply ("HΨ" with "Hp Hr"). }
  rewrite (bool_decide_eq_false_2 _ Hne) (bool_decide_eq_true_2 (0 < size attrs)).
  2:{ apply map_size_non_empty_iff in Hne. lia. }
  change (nest P (Dict {["attributes" := row_value attrs]}))
    with (nest P (nest ["attributes"] (row_value attrs))).
  rewrite -nest_app.
  iApply (wp_merge_at with "Hp [] Hr HΨ"); last by iApply repr_strings.
  pose proof (height_row_value attrs). lia.
Qed.

Lemma wp_dom_step rec fuel lp dq P result t child Φ :
  (∀ tag, dom_to_dict_spec rec child (P ++ [tag])) →
  List.length P + depth child + 4 < fuel →
  lp ↦{dq} OList (VStr <$> P) -∗
  repr (DfracOwn 1) result t -∗
  (lp ↦{dq} OList (VStr <$> P) -∗
   match Fun.dom_step Fun.dom_to_dict (Str <$> P) t child with
   | Ok t' => repr (DfracOwn 1) result t' -∗ Φ (Ok tt)
   | Raise e => Φ (Raise e)
   end) -∗
  wp (dom_step rec fuel (VRef lp) result child) Φ.
Proof.
  iIntros (Hrec Hfuel) "Hp Hr HΦ".
  destruct child as [data|tag attrs cs|cs|].
  - (* text *)
    simpl. case_bool_decide; last (iApply wp_ret; by iApply ("HΦ" with "Hp Hr")).
    rewrite dict_with_path_snoc /=.
    iApply (wp_merge_at with "Hp [] Hr HΦ"); last by iApply repr_Str.
    simpl. lia.
  - (* element *)
    rewrite dom_step_element /dom_step.
    iApply wp_bind. iApply wp_copy_attributes. iIntros (la) "Hla".
    iApply wp_bupd. iMod (pointsto_persist with "Hla") as "#Hla". iModIntro.
    iApply wp_bind. iApply (wp_dict_len with "Hla"). iIntros "_". rewrite map_size_fmap.
    iApply wp_bind. iApply (wp_attributes_step with "Hla Hp Hr"); first lia.
    iIntros "Hp".
    destruct (attributes_step P t attrs) as [t1|e]; simpl; last by iApply "HΦ".
    iIntros "Hr". destruct (bool_decide (tag = "rowset")).
    + (* a rowset *)
      iApply wp_bind. rewrite /dom_attr.
      destruct (attrs !! "name") as [name|]; last (iApply wp_raise; by iApply "HΦ").
      iApply wp_ret. iApply wp_bind. iApply (wp_list_add with "Hp"). iIntros (lq) "Hp Hq".
      rewrite -fmap_snoc. iSpecialize ("HΦ" with "Hp").
      iApply wp_bind. iApply (wp_dict_getitem with "Hla"). iIntros "_". rewrite lookup_fmap.
      destruct (attrs !! "key") as [key|]; simpl; last done.
      iApply wp_bind. iApply (wp_process_eveapi_rowset with "Hq").
      { rewrite length_app /=. lia. }
      iIntros "_". rewrite -(process_eveapi_rowset_eq (Element tag attrs cs)).
      destruct (Fun._process_eveapi_rowset _ _ _) as [td|e] eqn:Hd; simpl; last done.
      apply process_eveapi_rowset_height in Hd. rewrite length_app /= in Hd.
      iIntros (d) "Hd". iApply wp_bupd. iMod (repr_freeze with "Hd") as "#Hd". iModIntro.
      iApply wp_bind. iApply (wp_dict_update with "Hr Hd"); first lia.
      destruct (Fun._dict_update t1 td) as [t'|e]; last done.
      iIntros "Hr". iApply wp_ret. by iApply "HΦ".
    + (* any other element *)
      iApply wp_bind. iApply (wp_list_add with "Hp"). iIntros (lq) "Hp Hq".
      rewrite -fmap_snoc. iSpecialize ("HΦ" with "Hp").
      iApply wp_bind. iApply (Hrec with "Hq"). iIntros "_".
      destruct (Fun.dom_to_dict _ _) as [td|e] eqn:Hd; simpl; last done.
      apply dom_to_dict_height in Hd. rewrite length_app in Hd.
      change (List.length [tag]) with 1 in Hd.
      iIntros (d) "Hd". iApply wp_bupd. iMod (repr_freeze with "Hd") as "#Hd". iModIntro.
      iApply wp_bind. iApply (wp_dict_update with "Hr Hd"); first lia.
      destruct (Fun._dict_update t1 td) as [t'|e]; last done.
      iIntros "Hr". iApply wp_ret. by iApply "HΦ".
  - simpl. iApply wp_ret. by iApply ("HΦ" with "Hp Hr").
  - simpl. iApply wp_ret. by iApply ("HΦ" with "Hp Hr").
Qed.

Lemma py_dom_to_dict_children fuel element path :
  dom_to_dict fuel element path =
  (result ← dict_new;
   for_each (childNodes element) tt (λ _ child,
     dom_step (dom_to_dict fuel) fuel path result child);;
   mret result).
Proof. by destruct element. Qed.

Lemma wp_dom_to_dict_children fuel element P :
  Forall (λ c, List.length P + depth c + 4 < fuel ∧
               ∀ tag, dom_to_dict_spec (dom_to_dict fuel) c (P ++ [tag]))
         (childNodes element) →
  dom_to_dict_spec (dom_to_dict fuel) element P.
Proof.
  intros Hcs lp dq Φ. iIntros "Hp HΦ".
  rewrite py_dom_to_dict_children dom_to_dict_children.
  iApply wp_bind. iApply wp_dict_new. iIntros (l) "Hl".
  iDestruct (repr_empty with "Hl") as "Hr". iApply wp_bind.
  iApply (wp_for_each_result _ _ (Fun.dom_step Fun.dom_to_dict (Str <$> P))
            (lp ↦{dq} OList (VStr <$> P)) with "Hp Hr").
  { eapply Forall_impl; first exact Hcs. intros c [Hfuel Hc] t Ψ. iIntros "Hp Hr HΨ".
    by iApply (wp_dom_step with "Hp Hr HΨ"). }
  iIntros "Hp". iSpecialize ("HΦ" with "Hp").
  destruct (Fun.for_each _ (Dict ∅) _) as [t|e]; last done.
  iIntros "Hr". iApply wp_ret. by iApply "HΦ".
Qed.

(** The conversion in the store computes the conversion on values, in a new
    dictionary, and leaves the list [path] as it was. *)
Lemma wp_dom_to_dict fuel element P :
  List.length P + depth element + 3 < fuel →
  dom_to_dict_spec (dom_to_dict fuel) element P.
Proof.
  revert P. induction element as [data|tag attrs cs IH|cs IH|] using node_ind'.
  all: intros P Hfuel; apply wp_dom_to_dict_children; simpl childNodes.
  1,4: by apply Forall_nil.
  all: rewrite Forall_forall in IH; apply Forall_forall; intros c Hc.
  all: match type of Hfuel with context [depth ?el] =>
         assert (depth c < depth el) by (by apply depth_children) end.
  all: split; [lia|].
  all: intros tag'; apply IH; [done|]; rewrite length_app /=; lia.
Qed.

End dom_spec.

(** * From the logic to runs *)

Section adequacy.
Import Py.
Local Open Scope nat_scope.

Lemma repr_represents `{!gen_heapGS loc obj Σ} σ dq v t :
  gen_heap_interp σ -∗ repr dq v t -∗ ⌜represents σ v t⌝.
Proof.
  revert v. induction t as [s|m IH] using Value_ind'; intros v; iIntros "Hσ Hv".
  { iDestruct (repr_Str_1 with "Hv") as %->. iPureIntro. constructor. }
  iDestruct (repr_Dict_1 with "Hv") as (l d [-> Hdom]) "[Hl Hm]".
  iDestruct (gen_heap_valid with "Hσ Hl") as %Hl.
  iAssert (⌜∀ k, option_Forall2 (represents σ) (d !! k) (m !! k)⌝)%I with "[-]" as %Hall.
  { iIntros (k). destruct (m !! k) as [t|] eqn:Hk.
    - iDestruct (big_sepM_lookup with "Hm") as (x Hx) "Hx"; first done.
      iDestruct (IH with "Hσ Hx") as %Hx'; first done.
      iPureIntro. rewrite Hx. by constructor.
    - iPureIntro. assert (d !! k = None) as ->; last constructor.
      apply not_elem_of_dom. rewrite Hdom. by apply not_elem_of_dom. }
  iPureIntro. by eapply represents_dict.
Qed.

Lemma heap_subseteq `{!gen_heapGS loc obj Σ} (σ σ' : heap) :
  ([∗ map] l ↦ o ∈ σ, l ↦ o) -∗ gen_heap_interp σ' -∗ ⌜σ ⊆ σ'⌝.
Proof.
  iIntros "Hσ Hσ'". rewrite map_subseteq_spec. iIntros (l o Hl).
  iDestruct (big_sepM_lookup with "Hσ") as "Hl"; first done.
  iApply (gen_heap_valid with "Hσ' Hl").
Qed.

(** What the logic proves of a computation holds of its run from a store
    that contains the objects it was given. *)
Lemma wp_adequacy {A} (m : M A) (σ : heap) (φ : res A → heap → Prop) :
  (∀ `{!gen_heapGS loc obj Σ},
     ([∗ map] l ↦ o ∈ σ, l ↦ o) ⊢ wp m (λ r, ∀ σ', gen_heap_interp σ' -∗ ⌜φ r σ'⌝)) →
  φ (m σ).1 (m σ).2.
Proof.
  intros H. apply (pure_soundness (PROP:=iPropI (gen_heapΣ loc obj))).
  apply uPred.bupd_soundness; first apply _.
  iMod (gen_heap_init σ) as (hG) "(Hσ & Hpts & _)".
  iPoseProof (H _ hG with "Hpts") as "Hwp".
  iMod ("Hwp" with "Hσ") as (r σ' Hm) "[Hσ HΦ]".
  iDestruct ("HΦ" with "Hσ") as %Hφ. iModIntro. iPureIntro. by rewrite Hm.
Qed.

(** The conversion run in a store refines the conversion on values: from any
    store in which [path] is the list of strings [P], and with the recursion
    depth the document needs, it leaves every object of the store as it was
    and returns a dictionary that stands for [Fun.dom_to_dict element P], or
    raises the exception that [Fun.dom_to_dict element P] raises. *)
Lemma dom_to_dict_refines fuel element P σ lp :
  σ !! lp = Some (OList (VStr <$> P)) →
  List.length P + depth element + 3 < fuel →
  ∃ r σ', dom_to_dict fuel element (VRef lp) σ = (r, σ') ∧ σ ⊆ σ' ∧
    match Fun.dom_to_dict element (Str <$> P) with
    | Ok t => ∃ v, r = Ok v ∧ represents σ' v t
    | Raise e => r = Raise e
    end.
Proof.
  intros Hlp Hfuel.
  destruct (dom_to_dict fuel element (VRef lp) σ) as [r σ'] eqn:Hrun.
  exists r, σ'. split; first done.
  change r with (r, σ').1. change σ' with (r, σ').2 at 1 3. rewrite -Hrun.
  apply (wp_adequacy _ _ (λ r σ', σ ⊆ σ' ∧
    match Fun.dom_to_dict element (Str <$> P) with
    | Ok t => ∃ v, r = Ok v ∧ represents σ' v t
    | Raise e => r = Raise e
    end)).
  intros Σ hG. iIntros "Hσ".
  iDestruct (big_sepM_lookup_acc with "Hσ") as "[Hp Hclose]"; first exact Hlp.
  iApply (wp_dom_to_dict with "Hp"); first exact Hfuel. iIntros "Hp".
  iDestruct ("Hclose" with "Hp") as "Hσ".
  destruct (Fun.dom_to_dict element (Str <$> P)) as [t|e].
  - iIntros (v) "Hv". iIntros (σ1) "Hσ1".
    iDestruct (repr_represents with "Hσ1 Hv") as %Hv.
    iDestruct (heap_subseteq with "Hσ Hσ1") as %Hsub.
    iPureIntro. split; first done. by exists v.
  - iIntros (σ1) "Hσ1". iDestruct (heap_subseteq with "Hσ Hσ1") as %Hsub. by iPureIntro.
Qed.

End adequacy.

(** * Determinism of the conversion *)

Section determinism.
Import Py.
Local Open Scope nat_scope.

(** C9: the conversion is deterministic, and depends on nothing in the store
    but the document and the contents of [path].  Take any two stores, each
    with a list object that holds the strings [P]; the second store may be
    the one that a first conversion has left, and the list the same object,
    such as the default value of the parameter [path], which all calls share.
    With the recursion depth that the document needs, the two conversions
    change no object that was in their store, [path] included, and either
    both raise the same exception, or both return a dictionary, and the two
    dictionaries stand for one and the same value. *)
Theorem C9_dom_to_dict_deterministic fuel element P σ1 p1 σ2 p2 :
  σ1 !! p1 = Some (OList (VStr <$> P)) →
  σ2 !! p2 = Some (OList (VStr <$> P)) →
  List.length P + depth element + 3 < fuel →
  ∃ r1 σ1' r2 σ2',
    dom_to_dict fuel element (VRef p1) σ1 = (r1, σ1') ∧
    dom_to_dict fuel element (VRef p2) σ2 = (r2, σ2') ∧
    σ1 ⊆ σ1' ∧ σ2 ⊆ σ2' ∧
    match r1, r2 with
    | Ok v1, Ok v2 => ∃ t, represents σ1' v1 t ∧ represents σ2' v2 t
    | Raise e1, Raise e2 => e1 = e2
    | _, _ => False
    end.
Proof.
  intros H1 H2 Hfuel.
  destruct (dom_to_dict_refines fuel element P σ1 p1 H1 Hfuel) as (r1 & σ1' & Hrun1 & Hsub1 & Hr1).
  destruct (dom_to_dict_refines fuel element P σ2 p2 H2 Hfuel) as (r2 & σ2' & Hrun2 & Hsub2 & Hr2).
  exists r1, σ1', r2, σ2'. do 4 (split; first done).
  destruct (Fun.dom_to_dict element (Str <$> P)) as [t|e].
  - destruct Hr1 as (v1 & -> & Hv1), Hr2 as (v2 & -> & Hv2). by exists t.
  - by rewrite Hr1 Hr2.
Qed.

Lemma C9_dom_to_dict_deterministic_witness :
  ∃ r1 σ1' r2 σ2',
    dom_to_dict 8 server_status (VRef 1%positive) fresh_store = (r1, σ1') ∧
    dom_to_dict 8 server_status (VRef 1%positive) used_store = (r2, σ2') ∧
    fresh_store ⊆ σ1' ∧ used_store ⊆ σ2' ∧
    match r1, r2 with
    | Ok v1, Ok v2 => ∃ t, represents σ1' v1 t ∧ represents σ2' v2 t
    | Raise e1, Raise e2 => e1 = e2
    | _, _ => False
    end.
Proof.
  apply (C9_dom_to_dict_deterministic 8 server_status [] fresh_store 1%positive used_store 1%positive).
  - by vm_compute.
  - by vm_compute.
  - vm_compute. lia.
Defined.

End determinism.

(** * Path dictionaries in the store: what is shared *)

Section chain_logic.
Import Py.
Context `{!gen_heapGS loc obj Σ}.

Lemma chain_snoc x P l k v :
  chain x P (VRef l) -∗ l ↦ ODict {[ k := v ]} -∗ chain x (P ++ [k]) v.
Proof.
  iIntros "Hx Hl". iInduction P as [|k' P] "IH" forall (x); simpl.
  - iDestruct "Hx" as %->. iExists l, v. by iFrame.
  - iDestruct "Hx" as (l' y ->) "[Hl' Hy]". iExists l', y. iFrame "Hl'".
    iSplit; first done. iApply ("IH" with "Hy Hl").
Qed.

Lemma chain_follow σ x P v : gen_heap_interp σ -∗ chain x P v -∗ ⌜follow σ x P = Some v⌝.
Proof.
  iIntros "Hσ Hx". iInduction P as [|k P] "IH" forall (x); simpl.
  - by iDestruct "Hx" as %->.
  - iDestruct "Hx" as (l y ->) "[Hl Hy]".
    iDestruct (gen_heap_valid with "Hσ Hl") as %->.
    rewrite lookup_singleton_eq /=. iApply ("IH" with "Hσ Hy").
Qed.

(** The loop of [_dict_with_path]: [d] is the innermost dictionary so far, at
    the end of the chain along [P0] from [root], and still empty. *)
Lemma wp_chain_loop root d P0 P Ψ :
  chain root P0 (VRef d) -∗ d ↦ ODict ∅ -∗
  (∀ d', chain root (P0 ++ P) (VRef d') -∗ d' ↦ ODict ∅ -∗ Ψ (Ok (VRef d'))) -∗
  wp (for_each (VStr <$> P) (VRef d) (λ d element,
        element ← as_key element;
        new ← dict_new;
        dict_setitem d element new;;
        dict_getitem d element)) Ψ.
Proof.
  iIntros "Hroot Hd HΨ".
  iInduction P as [|e P] "IH" forall (d P0).
  { iApply wp_ret. rewrite app_nil_r. iApply ("HΨ" with "Hroot Hd"). }
  rewrite fmap_cons py_for_each_cons. iApply wp_bind.
  iApply wp_bind. iApply wp_ret.
  iApply wp_bind. iApply wp_dict_new. iIntros (new) "Hnew".
  iApply wp_bind. iApply (wp_dict_setitem with "Hd"). iIntros "Hd".
  iApply (wp_dict_getitem with "Hd"). iIntros "Hd". rewrite lookup_insert_eq insert_empty.
  iDestruct (chain_snoc with "Hroot Hd") as "Hroot".
  iApply ("IH" $! new (P0 ++ [e]) with "Hroot Hnew").
  iIntros (d') "Hroot Hd'". rewrite -assoc. iApply ("HΨ" with "Hroot Hd'").
Qed.

(** [_dict_with_path] takes the last element off the list it is given, and
    returns the head of a chain of new dictionaries that leads along the path
    to the value itself. *)
Lemma wp_dict_with_path_chain lp P k v Φ :
  lp ↦ OList (VStr <$> (P ++ [k])) -∗
  (∀ d, lp ↦ OList (VStr <$> P) -∗ chain d (P ++ [k]) v -∗ Φ (Ok d)) -∗
  wp (_dict_with_path (VRef lp) v) Φ.
Proof.
  iIntros "Hp HΦ". rewrite /_dict_with_path fmap_app /=.
  iApply wp_bind. iApply wp_dict_new. iIntros (root) "Hroot".
  iApply wp_bind. iApply (wp_list_pop with "Hp"). iIntros "Hp".
  iApply wp_bind. rewrite /list_iter. iApply wp_bind. iApply (wp_as_list with "Hp").
  iIntros "Hp". iApply wp_ret. iApply wp_bind.
  iApply (wp_chain_loop (VRef root) root [] with "[] Hroot"); first done.
  iIntros (d) "Hchain Hd". iApply wp_bind. iApply wp_ret.
  iApply wp_bind. iApply (wp_dict_setitem with "Hd"). iIntros "Hd".
  rewrite insert_empty. iDestruct (chain_snoc with "Hchain Hd") as "Hchain".
  iApply wp_ret. iApply ("HΦ" with "Hp Hchain").
Qed.

End chain_logic.

(** * Runs of the converters in the store *)

Section store_runs.
Import Py.
Local Open Scope nat_scope.

(** X12: run in a store, the rowset converter computes what it computes on
    values: from any store in which [path] is the list of strings [P], and
    with the recursion depth the path needs, it changes no object of the
    store, [path] included, and returns a dictionary that stands for
    [Fun._process_eveapi_rowset element P key], or raises the exception that
    the latter raises. *)
Theorem X12_rowset_refines fuel element (P : list string) key σ lp :
  σ !! lp = Some (OList (VStr <$> P)) →
  List.length P + 2 < fuel →
  ∃ r σ', _process_eveapi_rowset fuel element (VRef lp) (VStr key) σ = (r, σ') ∧ σ ⊆ σ' ∧
    match Fun._process_eveapi_rowset element (Str <$> P) (Str key) with
    | Ok t => ∃ v, r = Ok v ∧ represents σ' v t
    | Raise e => r = Raise e
    end.
Proof.
  intros Hlp Hfuel.
  destruct (_process_eveapi_rowset fuel element (VRef lp) (VStr key) σ) as [r σ'] eqn:Hrun.
  exists r, σ'. split; first done.
  change r with (r, σ').1. change σ' with (r, σ').2 at 1 3. rewrite -Hrun.
  apply (wp_adequacy _ _ (λ r σ', σ ⊆ σ' ∧
    match Fun._process_eveapi_rowset element (Str <$> P) (Str key) with
    | Ok t => ∃ v, r = Ok v ∧ represents σ' v t
    | Raise e => r = Raise e
    end)).
  intros Σ hG. iIntros "Hσ".
  iDestruct (big_sepM_lookup_acc with "Hσ") as "[Hp Hclose]"; first exact Hlp.
  iApply (wp_process_eveapi_rowset with "Hp"); first exact Hfuel. iIntros "Hp".
  iDestruct ("Hclose" with "Hp") as "Hσ".
  destruct (Fun._process_eveapi_rowset element (Str <$> P) (Str key)) as [t|e].
  - iIntros (v) "Hv". iIntros (σ1) "Hσ1".
    iDestruct (repr_represents with "Hσ1 Hv") as %Hv.
    iDestruct (heap_subseteq with "Hσ Hσ1") as %Hsub.
    iPureIntro. split; first done. by exists v.
  - iIntros (σ1) "Hσ1". iDestruct (heap_subseteq with "Hσ Hσ1") as %Hsub. by iPureIntro.
Qed.

Lemma X12_rowset_refines_witness :
  ∃ r σ',
    _process_eveapi_rowset 5 characters (VRef 1%positive) (VStr "characterID")
      {[ 1%positive := OList (VStr <$> ["result"; "characters"]) ]} = (r, σ') ∧
    {[ 1%positive := OList (VStr <$> ["result"; "characters"]) ]} ⊆ σ' ∧
    match Fun._process_eveapi_rowset characters (Str <$> ["result"; "characters"])
            (Str "characterID") with
    | Ok t => ∃ v, r = Ok v ∧ represents σ' v t
    | Raise e => r = Raise e
    end.
Proof.
  apply X12_rowset_refines.
  - by vm_compute.
  - vm_compute. lia.
Defined.

(** Every dictionary of a tree that is owned in full is new to a store whose
    objects are owned as well. *)
Lemma repr_fresh `{!gen_heapGS loc obj Σ} (σ0 σ : heap) t :
  ∀ v, ([∗ map] l ↦ o ∈ σ0, l ↦ o) -∗ gen_heap_interp σ -∗ repr (DfracOwn 1) v t -∗
       ⌜∀ l0 l, v = VRef l0 → reach σ l0 l → σ0 !! l = None⌝.
Proof.
  induction t as [s|m IH] using Value_ind'; intros v; iIntros "Hσ0 Hσ Hv".
  { iDestruct (repr_Str_1 with "Hv") as %->. by iIntros (l0 l [=]). }
  iDestruct (repr_Dict_1 with "Hv") as (l1 d [-> Hdom]) "[Hl1 Hm]".
  iDestruct (gen_heap_valid with "Hσ Hl1") as %Hl1.
  iIntros (l0 l [= <-] Hreach).
  apply rtc_inv in Hreach as [<-|(l2 & (o & Ho & Hholds) & Hreach)].
  - destruct (σ0 !! l1) as [o|] eqn:Hσ0; last done.
    iDestruct (big_sepM_lookup with "Hσ0") as "Hl1'"; first exact Hσ0.
    iDestruct (pointsto_valid_2 with "Hl1 Hl1'") as %[Hv _]. done.
  - rewrite Hl1 in Ho. injection Ho as <-. destruct Hholds as [k Hk].
    assert (is_Some (m !! k)) as [tk Htk].
    { apply elem_of_dom. rewrite -Hdom. by apply elem_of_dom. }
    iDestruct (big_sepM_lookup with "Hm") as (x Hx) "Hx"; first exact Htk.
    rewrite Hk in Hx. injection Hx as <-.
    iDestruct (IH k tk Htk with "Hσ0 Hσ Hx") as %Hfresh.
    iPureIntro. by apply (Hfresh l2).
Qed.

(** X13: the dictionaries that [dom_to_dict] returns are all new: when the
    conversion returns, it returns a reference to a dictionary, and no object
    that can be reached from it was in the store before the call.  The result
    thus shares no dictionary with the document path, with the results of
    earlier calls or with anything else the caller holds. *)
Theorem X13_result_is_new fuel element (P : list string) σ lp v σ' :
  σ !! lp = Some (OList (VStr <$> P)) →
  List.length P + depth element + 3 < fuel →
  dom_to_dict fuel element (VRef lp) σ = (Ok v, σ') →
  ∃ l0, v = VRef l0 ∧ ∀ l, reach σ' l0 l → σ !! l = None.
Proof.
  intros Hlp Hfuel Hrun.
  pose proof (wp_adequacy (dom_to_dict fuel element (VRef lp)) σ
    (λ r σ1, ∀ v, r = Ok v → ∃ l0, v = VRef l0 ∧ ∀ l, reach σ1 l0 l → σ !! l = None)) as Hadq.
  rewrite Hrun in Hadq. apply Hadq; last done. clear Hadq.
  intros Σ hG. iIntros "Hσ".
  iDestruct (big_sepM_lookup_acc with "Hσ") as "[Hp Hclose]"; first exact Hlp.
  iApply (wp_dom_to_dict with "Hp"); first exact Hfuel. iIntros "Hp".
  iDestruct ("Hclose" with "Hp") as "Hσ".
  destruct (Fun.dom_to_dict element (Str <$> P)) as [t|e] eqn:Ht.
  - apply dom_to_dict_shape in Ht as (o & -> & _).
    assert (∃ m, dom_acc P o = Dict m) as [m ->].
    { destruct o as [m|]; [apply nest_Dict|by exists ∅]. }
    iIntros (v1) "Hv". iIntros (σ1) "Hσ1". iIntros (v2 [= <-]).
    iDestruct (repr_fresh with "Hσ Hσ1 Hv") as %Hfresh.
    iDestruct (repr_Dict_1 with "Hv") as (l1 d [-> _]) "_".
    iPureIntro. exists l1. split; first done. intros l. by apply (Hfresh l1 l).
  - iIntros (σ1) "Hσ1". by iIntros (v2 [=]).
Qed.

Lemma X13_result_is_new_witness :
  ∃ v σ',
    dom_to_dict 6 (Document [Element "serverOpen" ∅ [Text "True"]]) (VRef 1%positive) fresh_store
      = (Ok v, σ') ∧
    ∃ l0, v = VRef l0 ∧ ∀ l, reach σ' l0 l → fresh_store !! l = None.
Proof.
  eexists _, _. split; first (vm_compute; reflexivity).
  apply (X13_result_is_new 6 (Document [Element "serverOpen" ∅ [Text "True"]]) []
           fresh_store 1%positive).
  - vm_compute. reflexivity.
  - vm_compute. lia.
  - vm_compute. reflexivity.
Defined.

(** X14: [_dict_with_path] consumes the list it is given: run on a list object
    that holds the strings of a path, it takes the last string off that very
    object, leaves every other object of the store as it was, and returns a
    dictionary from which the path leads to the value itself; a dictionary
    given as value is stored by reference, not copied. *)
Theorem X14_dict_with_path_pops (P : list string) k v σ lp :
  σ !! lp = Some (OList (VStr <$> (P ++ [k]))) →
  ∃ d σ', _dict_with_path (VRef lp) v σ = (Ok d, σ') ∧
    σ' !! lp = Some (OList (VStr <$> P)) ∧
    delete lp σ ⊆ σ' ∧
    follow σ' d (P ++ [k]) = Some v.
Proof.
  intros Hlp.
  pose proof (wp_adequacy (_dict_with_path (VRef lp) v) σ
    (λ r σ', ∃ d, r = Ok d ∧ σ' !! lp = Some (OList (VStr <$> P)) ∧
                  delete lp σ ⊆ σ' ∧ follow σ' d (P ++ [k]) = Some v)) as Hadq.
  destruct (_dict_with_path (VRef lp) v σ) as [r σ'] eqn:Hrun.
  destruct Hadq as (d & Hr & H).
  { intros Σ hG. iIntros "Hσ".
    iDestruct (big_sepM_delete with "Hσ") as "[Hp Hσ]"; first exact Hlp.
    iApply (wp_dict_with_path_chain with "Hp"). iIntros (d) "Hp Hchain".
    iIntros (σ1) "Hσ1".
    iDestruct (gen_heap_valid with "Hσ1 Hp") as %Hp.
    iDestruct (heap_subseteq with "Hσ Hσ1") as %Hsub.
    iDestruct (chain_follow with "Hσ1 Hchain") as %Hfollow.
    iPureIntro. by exists d. }
  simpl in Hr. subst r. by exists d, σ'.
Qed.

Lemma X14_dict_with_path_pops_witness :
  ∃ d σ',
    _dict_with_path (VRef 1%positive) (VRef 2%positive)
      {[ 1%positive := OList (VStr <$> (["result"] ++ ["attributes"]));
         2%positive := ODict {[ "version" := VStr "2" ]} ]} = (Ok d, σ') ∧
    σ' !! 1%positive = Some (OList (VStr <$> ["result"])) ∧
    delete 1%positive
      ({[ 1%positive := OList (VStr <$> (["result"] ++ ["attributes"]));
          2%positive := ODict {[ "version" := VStr "2" ]} ]} : heap) ⊆ σ' ∧
    follow σ' d (["result"] ++ ["attributes"]) = Some (VRef 2%positive).
Proof. apply X14_dict_with_path_pops. vm_compute. reflexivity. Defined.

(** X15: the conversion run in a store refines the conversion on values:
    from any store in which [path] is the list of strings [P], and with the
    recursion depth the document needs, it leaves every object of the store
    as it was and returns a dictionary that stands for
    [Fun.dom_to_dict element P], or raises the exception that the latter
    raises.  What is proved of [Fun.dom_to_dict] thus holds of the
    dictionaries the Python function builds in place. *)
Theorem X15_dom_to_dict_refines fuel element (P : list string) σ lp :
  σ !! lp = Some (OList (VStr <$> P)) →
  List.length P + depth element + 3 < fuel →
  ∃ r σ', dom_to_dict fuel element (VRef lp) σ = (r, σ') ∧ σ ⊆ σ' ∧
    match Fun.dom_to_dict element (Str <$> P) with
    | Ok t => ∃ v, r = Ok v ∧ represents σ' v t
    | Raise e => r = Raise e
    end.
Proof. apply dom_to_dict_refines. Qed.

Lemma X15_dom_to_dict_refines_witness :
  ∃ r σ',
    dom_to_dict 8 (Document [Element "a" ∅ [Text "hello"; Element "text" ∅ [Text "world"]]])
      (VRef 1%positive) fresh_store = (r, σ') ∧
    fresh_store ⊆ σ' ∧
    match Fun.dom_to_dict
            (Document [Element "a" ∅ [Text "hello"; Element "text" ∅ [Text "world"]]])
            (Str <$> []) with
    | Ok t => ∃ v, r = Ok v ∧ represents σ' v t
    | Raise e => r = Raise e
    end.
Proof.
  apply X15_dom_to_dict_refines.
  - vm_compute. reflexivity.
  - vm_compute. lia.
Defined.

End store_runs.
